(** * StackTrie: an append-only Merkle Patricia trie builder

    Shallow embedding of [trie/stacktrie.go] and the properties of its
    insertion / finalisation state machine.

    Conventions of the embedding.
    - A Go [byte] is an [N] below 256; a [[]byte] is a [list N]. Nibbles are
      bytes below 16.
    - A [*stNode] owns its children exclusively (no node is reachable through
      two pointers, and every slice stored in a node is either freshly
      allocated or private to it), so the pointer graph is embedded as a
      tree of values. [stPool.Get] is the allocation of a cleared node.
    - The [Writer] and [Cleaner] callbacks and the boundary gauge are
      external: the options record says whether each is configured, and every
      call is recorded as an [event], in call order.
    - A Go [panic] is an explicit outcome. Every operation returns the store
      as the panic leaves it, the events emitted so far, and the panic. *)

From Stdlib Require Import NArith Lia.
From Stdlib Require String.
From stdpp Require Import base numbers option list.

(** ** Keccak-256

    [hasher.hashData] is the legacy Keccak-256 of the blob (rate 136 bytes,
    padding 0x01 .. 0x80, 24 rounds of Keccak-f[1600]). Lanes are 64-bit
    words kept as [N]; the state is the list of the 25 lanes, lane (x, y) at
    index x + 5 y. *)

Module Keccak.
Local Open Scope N_scope.

Definition mask64 : N := 18446744073709551615.

Definition rotl64 (x : N) (r : N) : N :=
  N.lor (N.land (N.shiftl x r) mask64) (N.shiftr x (64 - r)).

Definition lane (a : list N) (i : nat) : N := nth i a 0.

Definition rotc : list N :=
  [ 0;  1; 62; 28; 27;
   36; 44;  6; 55; 20;
    3; 10; 43; 25; 39;
   41; 45; 15; 21;  8;
   18;  2; 61; 56; 14].

Definition rndc : list N :=
  [0x0000000000000001; 0x0000000000008082; 0x800000000000808A;
   0x8000000080008000; 0x000000000000808B; 0x0000000080000001;
   0x8000000080008081; 0x8000000000008009; 0x000000000000008A;
   0x0000000000000088; 0x0000000080008009; 0x000000008000000A;
   0x000000008000808B; 0x800000000000008B; 0x8000000000008089;
   0x8000000000008003; 0x8000000000008002; 0x8000000000000080;
   0x000000000000800A; 0x800000008000000A; 0x8000000080008081;
   0x8000000000008080; 0x0000000080000001; 0x8000000080008008].

Definition theta (a : list N) : list N :=
  let c := map (fun x => N.lxor (lane a x) (N.lxor (lane a (x + 5))
             (N.lxor (lane a (x + 10)) (N.lxor (lane a (x + 15)) (lane a (x + 20))))))
             (seq 0 5) in
  let d := map (fun x => N.lxor (lane c ((x + 4) mod 5)) (rotl64 (lane c ((x + 1) mod 5)) 1))
             (seq 0 5) in
  map (fun i => N.lxor (lane a i) (lane d (i mod 5))) (seq 0 25).

Definition rhopi (a : list N) : list N :=
  map (fun i => let X := (i mod 5)%nat in let Y := (i / 5)%nat in
                let x := ((X + 3 * Y) mod 5)%nat in
                let src := (x + 5 * X)%nat in
                rotl64 (lane a src) (nth src rotc 0))
      (seq 0 25).

Definition chi (b : list N) : list N :=
  map (fun i => let x := (i mod 5)%nat in let y := (i / 5)%nat in
                N.lxor (lane b i)
                  (N.ldiff (lane b ((x + 2) mod 5 + 5 * y)) (lane b ((x + 1) mod 5 + 5 * y))))
      (seq 0 25).

Definition iota (rc : N) (a : list N) : list N :=
  match a with
  | [] => []
  | a0 :: rest => N.lxor a0 rc :: rest
  end.

Definition round (a : list N) (rc : N) : list N := iota rc (chi (rhopi (theta a))).

Definition keccakF (a : list N) : list N := fold_left round rndc a.

Definition rate : nat := 136.

(* little-endian lane from 8 bytes *)
Fixpoint le_lane (bs : list N) : N :=
  match bs with
  | [] => 0
  | b :: rest => b + 256 * le_lane rest
  end.

Fixpoint lanes_of (n : nat) (bs : list N) : list N :=
  match n with
  | O => []
  | S n' => le_lane (take 8 bs) :: lanes_of n' (drop 8 bs)
  end.

Definition absorb (a : list N) (block : list N) : list N :=
  let ls := lanes_of 17 block in
  keccakF (map (fun i => N.lxor (lane a i) (nth i ls 0)) (seq 0 25)).

Definition pad (msg : list N) : list N :=
  let r := (length msg mod rate)%nat in
  if (r =? rate - 1)%nat then msg ++ [0x81]
  else msg ++ [0x01] ++ replicate (rate - r - 2) 0 ++ [0x80].

Fixpoint blocks (n : nat) (bs : list N) : list (list N) :=
  match n with
  | O => []
  | S n' => take rate bs :: blocks n' (drop rate bs)
  end.

Definition byte_of_state (a : list N) (i : nat) : N :=
  N.land (N.shiftr (lane a (i / 8)) (8 * N.of_nat (i mod 8))) 255.

Definition keccak256 (msg : list N) : list N :=
  let p := pad msg in
  let st := fold_left absorb (blocks (length p / rate) p) (replicate 25 0) in
  map (byte_of_state st) (seq 0 32).

End Keccak.

Local Open Scope N_scope.

(** Modelled from the spec: [hasher.hashData] lives in trie/hasher.go, which
    is not part of the sources at hand; the spec fixes it as the 32-byte
    Keccak-256 digest of the blob. *)
Definition hashData (blob : list N) : list N := Keccak.keccak256 blob.

(** Modelled from the spec: the constant [emptyRoot] is declared in
    trie/trie.go; the spec gives its 32 bytes. *)
Definition emptyRoot : list N :=
  [0x56; 0xe8; 0x1f; 0x17; 0x1b; 0xcc; 0x55; 0xa6;
   0xff; 0x83; 0x45; 0xe6; 0x92; 0xc0; 0xf8; 0x6e;
   0x5b; 0x48; 0xe0; 0x1b; 0x99; 0x6c; 0xad; 0xc0;
   0x01; 0x62; 0x2f; 0xb5; 0xe3; 0x63; 0xb4; 0x21].

(** Modelled from the spec: [common.BytesToHash] (common/types.go) turns a
    byte string into a 32-byte hash, cropping from the left or padding with
    zeros on the left; it is the identity on the 32-byte digests it is given
    here. *)
Definition BytesToHash (b : list N) : list N :=
  replicate (32 - length b) 0 ++ drop (length b - 32) b.

(** [bytes.HasPrefix s prefix]: [s] begins with [prefix]. *)
Fixpoint HasPrefix (s prefix : list N) : bool :=
  match prefix, s with
  | [], _ => true
  | p :: prefix', c :: s' => (p =? c) && HasPrefix s' prefix'
  | _ :: _, [] => false
  end.

(** ** Nibble codec *)

(** Modelled from the spec: [keybytesToHex] (trie/encoding.go): two nibbles
    per byte, high nibble first, then the terminator 16. *)
Definition keybytesToHex (str : list N) : list N :=
  flat_map (fun b => [b / 16; b mod 16]) str ++ [16].

(** Modelled from the spec: the packing of nibbles in pairs, high nibble
    first, of [hexToCompactInPlace] (trie/encoding.go). *)
Fixpoint packNibbles (hex : list N) : list N :=
  match hex with
  | hi :: lo :: rest => N.lor (N.land (N.shiftl hi 4) 255) lo :: packNibbles rest
  | _ => []
  end.

(** Modelled from the spec: the test of [hexToCompactInPlace] for the
    terminator at the end of the path (trie/encoding.go). *)
Definition hasTerm (hex : list N) : bool :=
  match last hex with
  | Some t => t =? 16
  | None => false
  end.

(** Modelled from the spec: [hexToCompactInPlace] (trie/encoding.go), the
    hex-prefix encoding. The prefix byte is
    [leaf_flag << 5 | odd_flag << 4 | first nibble when odd]; the leaf flag
    is set when the path ends with the terminator, which is dropped; the
    remaining nibbles are packed in pairs. The result is the compact form
    [hex[:sz]] that the in-place encoder leaves in the buffer. *)
Definition hexToCompact (hex : list N) : list N :=
  let flag := if hasTerm hex then 32 else 0 in
  let body := if hasTerm hex then removelast hex else hex in
  if Nat.odd (length body) then
    match body with
    | h0 :: rest => N.lor (N.lor flag 16) h0 :: packNibbles rest
    | [] => [flag]
    end
  else flag :: packNibbles body.

(** ** Node encoder *)

(** Modelled from the spec: the big-endian digits of a length in the
    length-prefixed serializer (package rlp); a length has at most eight
    digits. *)
Fixpoint be_digits (fuel : nat) (n : N) (acc : list N) : list N :=
  match fuel with
  | O => acc
  | S fuel' => if n =? 0 then acc else be_digits fuel' (n / 256) (n mod 256 :: acc)
  end.

(** Modelled from the spec: big-endian digits of a length, without leading
    zeros (package rlp). *)
Definition be_len (n : nat) : list N := be_digits 8 (N.of_nat n) [].

(** Modelled from the spec: the length-prefixed serializer (package rlp) is
    external; the spec asks for the canonical encoding. A byte string. *)
Definition rlp_string (b : list N) : list N :=
  match b with
  | [x] => if x <? 128 then [x] else [129; x]
  | _ =>
      if (length b <? 56)%nat then (128 + N.of_nat (length b)) :: b
      else (183 + N.of_nat (length (be_len (length b)))) :: be_len (length b) ++ b
  end.

(** Modelled from the spec: a list whose items are already encoded. *)
Definition rlp_list (payload : list N) : list N :=
  if (length payload <? 56)%nat then (192 + N.of_nat (length payload)) :: payload
  else (247 + N.of_nat (length (be_len (length payload)))) :: be_len (length payload) ++ payload.

(** The reference to a hashed child inside its parent: the child's own
    encoding when it is shorter than 32 bytes ([rawNode]), its digest as a
    byte string otherwise ([hashNode]). *)
Definition childRef (v : list N) : list N :=
  if (length v <? 32)%nat then v else rlp_string v.

(** Modelled from the spec: [nilValueNode] (trie/node.go), the empty
    value of an unused slot of a full node, as it is encoded. *)
Definition nilValueNode : list N := [128].

(** Modelled from the spec: [fullNode.encode] (trie/node_enc.go), a list of
    seventeen items, the sixteen child references and an empty value. *)
Definition fullNode_encode (refs : list (list N)) : list N :=
  rlp_list (concat refs ++ nilValueNode).

(** Modelled from the spec: [shortNode.encode] (trie/node_enc.go), the list
    of the compact path and the encoded value or child reference. *)
Definition shortNode_encode (compactKey valEnc : list N) : list N :=
  rlp_list (rlp_string compactKey ++ valEnc).

(** ** Data model *)

(** [StackTrieOptions]: a callback is modelled by whether it is configured. *)
Record StackTrieOptions := mkOptions {
  Writer : bool;
  Cleaner : bool;
  SkipLeftBoundary : bool;
  SkipRightBoundary : bool;
  boundaryGauge : bool
}.

(** [NewStackTrieOptions]: nothing configured. *)
Definition NewStackTrieOptions : StackTrieOptions :=
  mkOptions false false false false false.

Definition WithWriter (o : StackTrieOptions) : StackTrieOptions :=
  mkOptions true (Cleaner o) (SkipLeftBoundary o) (SkipRightBoundary o) (boundaryGauge o).

Definition WithCleaner (o : StackTrieOptions) : StackTrieOptions :=
  mkOptions (Writer o) true (SkipLeftBoundary o) (SkipRightBoundary o) (boundaryGauge o).


(** The values of [stNode.typ]. *)
Inductive nodeType := emptyNode | branchNode | extNode | leafNode | hashedNode.

Global Instance nodeType_eq_dec : EqDecision nodeType.
Proof. solve_decision. Defined.

(** [stNode]. [children] is the array of sixteen optional child pointers. *)
Local Unset Elimination Schemes.
Inductive stNode : Type := StNode {
  typ : nodeType;
  key : list N;
  val : list N;
  children : list (option stNode)
}.
Local Set Elimination Schemes.

(** What the sink observes, in call order. *)
Inductive event :=
  | EvWriter (path hash blob : list N)
  | EvCleaner (path : list N)
  | EvGaugeInc
  | EvLogError (err : String.string).

(** The ways an operation aborts: the three explicit panics of the file and
    the two run-time panics of Go. *)
Inductive panic :=
  | PanicDeletion        (* "deletion not supported" *)
  | PanicExistingKey     (* "Trying to insert into existing key" *)
  | PanicInsertIntoHash  (* "trying to insert into hash" *)
  | PanicIndex           (* index out of range *)
  | PanicNil.            (* nil pointer dereference *)

(** Result of an operation on a node: the node as the operation leaves it,
    the events emitted, and the panic that stopped it, if any. *)
Record out := Out {
  o_node : stNode;
  o_evs : list event;
  o_panic : option panic
}.

(** A cleared array of children. *)
Definition noChildren : list (option stNode) := replicate 16 None.

(** [stPool.Get()]: a cleared node. *)
Definition poolGet : stNode := StNode emptyNode [] [] noChildren.

(** [stNode.reset]. *)
Definition reset (n : stNode) : stNode := StNode emptyNode [] [] noChildren.

Definition newLeaf (key val : list N) : stNode :=
  StNode leafNode key val noChildren.

(** [newExt]; the child pointer may be nil. *)
Definition newExt (key : list N) (child : option stNode) : stNode :=
  StNode extNode key [] (<[0%nat := child]> noChildren).

(** [getDiffIndex], from index [idx] on; [None] is the index-out-of-range
    panic of [key[idx]]. *)
Fixpoint getDiffIndexFrom (idx : nat) (nkey key : list N) : option nat :=
  match nkey with
  | [] => Some idx
  | nibble :: nkey' =>
      match key with
      | [] => None
      | k :: key' =>
          if nibble =? k then getDiffIndexFrom (S idx) nkey' key' else Some idx
      end
  end.

Definition getDiffIndex (n : stNode) (k : list N) : option nat :=
  getDiffIndexFrom 0 (key n) k.

(** [p.children[idx] = c] on the sixteen-slot array: [None] is the
    index-out-of-range panic. *)
Definition setChild (cs : list (option stNode)) (idx : N) (c : option stNode)
  : option (list (option stNode)) :=
  if idx <? 16 then Some (<[N.to_nat idx := c]> cs) else None.

(** ** The hasher and the sink coordinator

    [t.options], [t.first] and [t.last] are read, never written, by [hash]
    and [insert]; a nil [t.first] or [t.last] reads as the empty slice. *)
Section Hasher.
Variable options : StackTrieOptions.
Variables first last : list N.

(** The increment of the boundary gauge, when one is configured. *)
Definition gaugeInc : list event :=
  if boundaryGauge options then [EvGaugeInc] else [].

(** The end of [hash], from [st.key = st.key[:0]] on: the node [st], whose
    encoding is [blob], becomes a hashed node and is handed to the sink
    unless it is embedded in its parent. [internal] is the list of paths
    covered by an extension node. *)
Definition hashTail (st : stNode) (path blob : list N) (internal : list (list N))
  : stNode * list event :=
  if (length blob <? 32)%nat && (0 <? length path)%nat then
    (StNode hashedNode [] blob (children st), [])
  else
    let st' := StNode hashedNode [] (hashData blob) (children st) in
    if negb (Writer options) then (st', [])
    else if SkipLeftBoundary options && HasPrefix first path then (st', gaugeInc)
    else if SkipRightBoundary options && HasPrefix last path then (st', gaugeInc)
    else (st', map EvCleaner internal
                ++ [EvWriter path (BytesToHash (hashData blob)) blob]).

(** The paths strictly inside an extension node with key [k] at [path]:
    [path ++ k[:i]] for [i] from 1 to [len k - 1]. *)
Definition internalPaths (path k : list N) : list (list N) :=
  map (fun i => path ++ take i k) (seq 1 (length k - 1)).

(** The loop of [hash] over the children of a branch, from slot [i] on. It
    yields the child references collected so far, the array of children
    (a hashed child is released and its slot cleared), the events, and the
    panic of a child, which stops the loop. *)
Section Children.
Variable hashRec : stNode -> list N -> out.
Variable path : list N.

Fixpoint hashChildren (cs : list (option stNode)) (i : nat)
  : list (list N) * list (option stNode) * list event * option panic :=
  match cs with
  | [] => ([], [], [], None)
  | None :: rest =>
      let '(refs, cs', evs, pan) := hashChildren rest (S i) in
      (nilValueNode :: refs, None :: cs', evs, pan)
  | Some child :: rest =>
      let r := hashRec child (path ++ [N.of_nat i]) in
      match o_panic r with
      | Some p => ([], Some (o_node r) :: rest, o_evs r, Some p)
      | None =>
          let '(refs, cs', evs, pan) := hashChildren rest (S i) in
          (childRef (val (o_node r)) :: refs, None :: cs', o_evs r ++ evs, pan)
      end
  end.
End Children.

(** The [switch] of [hash] for a branch, an extension or a leaf: the
    children are hashed and released, the node is encoded. It yields the
    node as the switch leaves it, the encoded blob, the list of internal
    paths of an extension node, the events of the children, and the panic
    of a child. *)
Section Switch.
Variable hashRec : stNode -> list N -> out.

Definition hashSwitch (st : stNode) (path : list N)
  : stNode * list N * list (list N) * list event * option panic :=
  match st with
  | StNode ty k v cs =>
      match ty with
      | branchNode =>
          let '(refs, cs', evs, pan) := hashChildren hashRec path cs 0 in
          (StNode branchNode k v cs', fullNode_encode refs, [], evs, pan)
      | extNode =>
          match cs with
          | Some child :: rest =>
              (* recursively hash and commit child as the first step *)
              let r := hashRec child (path ++ k) in
              match o_panic r with
              | Some p =>
                  (StNode extNode k v (Some (o_node r) :: rest), [], [], o_evs r, Some p)
              | None =>
                  let cv := val (o_node r) in
                  let internal :=
                    if (32 <=? length cv)%nat && Cleaner options
                    then internalPaths path k else [] in
                  (StNode extNode k v (None :: rest),
                   shortNode_encode (hexToCompact k) (childRef cv),
                   internal, o_evs r, None)
              end
          | _ => (st, [], [], [], Some PanicNil)
          end
      | leafNode =>
          (st, shortNode_encode (hexToCompact (k ++ [16])) (rlp_string v), [], [], None)
      | _ => (st, [], [], [], None)
      end
  end.
End Switch.

(** [StackTrie.hash]. *)
Fixpoint hash (st : stNode) (path : list N) {struct st} : out :=
  match typ st with
  | hashedNode => Out st [] None
  | emptyNode => Out (StNode hashedNode [] emptyRoot (children st)) [] None
  | _ =>
      let '(st1, blob, internal, evs, pan) := hashSwitch hash st path in
      match pan with
      | Some p => Out st1 evs (Some p)
      | None =>
          let '(st', evs') := hashTail st1 path blob internal in
          Out st' (evs ++ evs') None
      end
  end.
End Hasher.

(** ** The insertion engine *)
Section Insertion.
Variable options : StackTrieOptions.
Variables first last : list N.

(** The loop of [insert] that hashes the nearest elder sibling: slots
    [n - 1] down to 0 are scanned for the first child that is present,
    which is hashed at [path ++ [i]] unless it is hashed already. *)
Fixpoint unresolveElder (cs : list (option stNode)) (n : nat) (path : list N)
  : list (option stNode) * list event * option panic :=
  match n with
  | O => (cs, [], None)
  | S i =>
      match cs !! i with
      | None => (cs, [], Some PanicIndex)
      | Some None => unresolveElder cs i path
      | Some (Some c) =>
          if decide (typ c = hashedNode) then (cs, [], None)
          else
            let r := hash options first last c (path ++ [N.of_nat i]) in
            (<[i := Some (o_node r)]> cs, o_evs r, o_panic r)
      end
  end.

(** The slot [idx] of a branch receives the new key: a new leaf when the
    slot is empty, the insertion into the child otherwise. [None] is the
    index-out-of-range panic. *)
Section Slot.
Variable insertRec : stNode -> out.
Variable leaf : stNode.

Fixpoint insertSlot (cs : list (option stNode)) (idx : nat) : option out :=
  match cs with
  | [] => None
  | c :: rest =>
      match idx with
      | O =>
          match c with
          | None => Some (Out leaf [] None)
          | Some child => Some (insertRec child)
          end
      | S idx' => insertSlot rest idx'
      end
  end.
End Slot.

(** The node that holds the branch [p] of a split, given the children of
    [p]: the split node itself when the keys differ at the first nibble
    ([d = 0], the node is converted into the branch), an extension node
    over a new branch otherwise. [k] and [v] are the key and the value the
    node has at that moment. *)
Definition splitNode (d : nat) (cs : list (option stNode))
    (k v : list N) (pcs : list (option stNode)) : stNode :=
  if (d =? 0)%nat then StNode branchNode k v pcs
  else StNode extNode k v (<[0%nat := Some (StNode branchNode [] [] pcs)]> cs).

(** The children of [p] before the two halves of the split are placed. *)
Definition splitBase (d : nat) (cs : list (option stNode)) : list (option stNode) :=
  if (d =? 0)%nat then <[0%nat := None]> cs else noChildren.

(** [StackTrie.insert]. *)
Fixpoint insert (st : stNode) (key value path : list N) {struct st} : out :=
  match st with
  | StNode ty k v cs =>
      match ty with
      | branchNode =>
          match key with
          | [] => Out st [] (Some PanicIndex)
          | k0 :: krest =>
              let idx := N.to_nat k0 in
              let '(cs1, evs1, pan1) := unresolveElder cs idx path in
              match pan1 with
              | Some p => Out (StNode branchNode k v cs1) evs1 (Some p)
              | None =>
                  (* the elder siblings are in slots below [idx]: slot
                     [idx] of [cs1] is slot [idx] of [cs] *)
                  match insertSlot (fun child => insert child krest value (path ++ [k0]))
                          (newLeaf krest value) cs idx with
                  | None => Out (StNode branchNode k v cs1) evs1 (Some PanicIndex)
                  | Some r =>
                      Out (StNode branchNode k v (<[idx := Some (o_node r)]> cs1))
                          (evs1 ++ o_evs r) (o_panic r)
                  end
              end
          end
      | extNode =>
          match getDiffIndexFrom 0 k key with
          | None => Out st [] (Some PanicIndex)
          | Some d =>
              if (d =? length k)%nat then
                match cs with
                | Some child :: rest =>
                    let r := insert child (drop d key) value (path ++ take d key) in
                    Out (StNode extNode k v (Some (o_node r) :: rest)) (o_evs r) (o_panic r)
                | _ => Out st [] (Some PanicNil)
                end
              else
                let c0 := mjoin (head cs) in
                (* the original part: an intermediate extension, or the
                   child itself; [held] is what [st.children[0]] points to
                   afterwards *)
                let '(n, held, evs, pan) :=
                  if (d <? length k - 1)%nat then
                    let r := hash options first last (newExt (drop (S d) k) c0)
                               (path ++ take (S d) k) in
                    (o_node r, mjoin (head (children (o_node r))), o_evs r, o_panic r)
                  else
                    match c0 with
                    | Some c =>
                        let r := hash options first last c (path ++ k) in
                        (o_node r, Some (o_node r), o_evs r, o_panic r)
                    | None => (poolGet, None, [], Some PanicNil)
                    end in
                match pan with
                | Some p => Out (StNode extNode k v (<[0%nat := held]> cs)) evs (Some p)
                | None =>
                    let o := newLeaf (drop (S d) key) value in
                    let origIdx := nth d k 0 in
                    let newIdx := nth d key 0 in
                    let pcs0 := splitBase d cs in
                    match setChild pcs0 origIdx (Some n) with
                    | None => Out (splitNode d cs k v pcs0) evs (Some PanicIndex)
                    | Some pcs1 =>
                        match setChild pcs1 newIdx (Some o) with
                        | None => Out (splitNode d cs k v pcs1) evs (Some PanicIndex)
                        | Some pcs2 => Out (splitNode d cs (take d k) v pcs2) evs None
                        end
                    end
                end
          end
      | leafNode =>
          match getDiffIndexFrom 0 k key with
          | None => Out st [] (Some PanicIndex)
          | Some d =>
              if (length k <=? d)%nat then Out st [] (Some PanicExistingKey)
              else
                let origIdx := nth d k 0 in
                let newIdx := nth d key 0 in
                let pcs0 := splitBase d cs in
                match setChild pcs0 origIdx (Some (newLeaf (drop (S d) k) v)) with
                | None => Out (splitNode d cs k v pcs0) [] (Some PanicIndex)
                | Some _ =>
                    let r := hash options first last (newLeaf (drop (S d) k) v)
                               (path ++ take (S d) k) in
                    let pcs1 := <[N.to_nat origIdx := Some (o_node r)]> pcs0 in
                    match o_panic r with
                    | Some p => Out (splitNode d cs k v pcs1) (o_evs r) (Some p)
                    | None =>
                        match setChild pcs1 newIdx (Some (newLeaf (drop (S d) key) value)) with
                        | None => Out (splitNode d cs k v pcs1) (o_evs r) (Some PanicIndex)
                        | Some pcs2 =>
                            Out (splitNode d cs (take d k) [] pcs2) (o_evs r) None
                        end
                    end
                end
          end
      | emptyNode => Out (StNode leafNode key value cs) [] None
      | hashedNode => Out st [] (Some PanicInsertIntoHash)
      end
  end.
End Insertion.

(** ** The trie and its public operations *)

(** [StackTrie]. The hasher [h] only holds a scratch buffer and is left out;
    [first] and [last] are [None] while they are nil. *)
Record StackTrie := mkStackTrie {
  options : StackTrieOptions;
  root : stNode;
  first : option (list N);
  last : option (list N)
}.

(** How a call of a public operation ends: it returns (with its error value,
    [None] for the nil error) or it panics. *)
Inductive outcome :=
  | Returned (err : option String.string)
  | Panicked (p : panic).

(** Result of a public operation: the trie afterwards, the events of the
    call and how the call ended. *)
Record result := Result {
  r_trie : StackTrie;
  r_evs : list event;
  r_outcome : outcome
}.

Definition NewStackTrie (o : option StackTrieOptions) : StackTrie :=
  mkStackTrie (default NewStackTrieOptions o) poolGet None None.

Definition Reset (t : StackTrie) : StackTrie :=
  mkStackTrie NewStackTrieOptions poolGet None None.

(** A nil boundary reads as the empty slice. *)
Definition boundary (b : option (list N)) : list N := default [] b.

(** [StackTrie.TryUpdate]. *)
Definition TryUpdate (t : StackTrie) (key value : list N) : result :=
  let k := keybytesToHex key in
  if (length value =? 0)%nat then Result t [] (Panicked PanicDeletion)
  else
    let k := removelast k in
    let first' := match first t with None => Some k | Some f => Some f end in
    let last' := Some k in
    let r := insert (options t) (boundary first') (boundary last') (root t) k value [] in
    Result (mkStackTrie (options t) (o_node r) first' last') (o_evs r)
      match o_panic r with
      | Some p => Panicked p
      | None => Returned None
      end.

(** [StackTrie.Update]: an error returned by [TryUpdate] is logged. *)
Definition Update (t : StackTrie) (key value : list N) : result :=
  let r := TryUpdate t key value in
  match r_outcome r with
  | Returned (Some err) => Result (r_trie r) (r_evs r ++ [EvLogError err]) (Returned None)
  | Returned None => Result (r_trie r) (r_evs r) (Returned None)
  | Panicked p => r
  end.

(** [StackTrie.Hash]: the digest returned, with the result of the call. *)
Definition Hash (t : StackTrie) : list N * result :=
  let r := hash (options t) (boundary (first t)) (boundary (last t)) (root t) [] in
  (BytesToHash (val (o_node r)),
   Result (mkStackTrie (options t) (o_node r) (first t) (last t)) (o_evs r)
     match o_panic r with
     | Some p => Panicked p
     | None => Returned None
     end).

(** [StackTrie.Commit]. *)
Definition Commit (t : StackTrie) : list N * result := Hash t.

(** ** Scenarios *)

Definition writerOptions : StackTrieOptions := WithWriter NewStackTrieOptions.

(** The trie after a list of updates, with all events; the run stops at the
    first panic. *)
Fixpoint updates (t : StackTrie) (kvs : list (list N * list N)) : result :=
  match kvs with
  | [] => Result t [] (Returned None)
  | (k, v) :: kvs' =>
      let r := Update t k v in
      match r_outcome r with
      | Panicked _ => r
      | Returned _ =>
          let r' := updates (r_trie r) kvs' in
          Result (r_trie r') (r_evs r ++ r_evs r') (r_outcome r')
      end
  end.

(** A lifetime of a trie: updates, hashes and commits. *)
Inductive op :=
  | OpUpdate (key value : list N)
  | OpHash
  | OpCommit.

Definition step (t : StackTrie) (o : op) : result :=
  match o with
  | OpUpdate k v => Update t k v
  | OpHash => snd (Hash t)
  | OpCommit => snd (Commit t)
  end.

(** The operations are run in order; a panic ends the run. *)
Fixpoint run (t : StackTrie) (ops : list op) : result :=
  match ops with
  | [] => Result t [] (Returned None)
  | o :: ops' =>
      let r := step t o in
      match r_outcome r with
      | Panicked _ => r
      | Returned _ =>
          let r' := run (r_trie r) ops' in
          Result (r_trie r') (r_evs r ++ r_evs r') (r_outcome r')
      end
  end.

(** The paths handed to the writer, in call order. *)
Definition writerPaths (evs : list event) : list (list N) :=
  omap (fun e => match e with EvWriter p _ _ => Some p | _ => None end) evs.

(** The paths handed to the cleaner, in call order. *)
Definition cleanerPaths (evs : list event) : list (list N) :=
  omap (fun e => match e with EvCleaner p => Some p | _ => None end) evs.

(** * Vocabulary of the properties *)

(** ** Induction on nodes *)
Section stNode_induction.
Variable P : stNode -> Prop.

Definition onChild (c : option stNode) : Prop :=
  match c with
  | Some n => P n
  | None => True
  end.

Hypothesis step_ind : forall ty k v cs, Forall onChild cs -> P (StNode ty k v cs).

Fixpoint stNode_ind (st : stNode) : P st :=
  match st with
  | StNode ty k v cs =>
      step_ind ty k v cs
        ((fix children_ind (cs : list (option stNode)) : Forall onChild cs :=
            match cs with
            | [] => List.Forall_nil onChild
            | c :: cs' =>
                @List.Forall_cons _ onChild c cs'
                  match c return onChild c with
                  | Some n => stNode_ind n
                  | None => I
                  end
                  (children_ind cs')
            end) cs)
  end.
End stNode_induction.

(** ** Well-formed nodes

    The shape the operations keep: sixteen slots; only a branch and an
    extension node have children, the extension node exactly one, in slot
    0, under a non-empty key. *)
Inductive wf : stNode -> Prop :=
  | wf_empty k v : wf (StNode emptyNode k v noChildren)
  | wf_leaf k v : wf (StNode leafNode k v noChildren)
  | wf_hashed k v : wf (StNode hashedNode k v noChildren)
  | wf_ext k v c :
      k <> [] -> wf c -> wf (StNode extNode k v (Some c :: replicate 15 None))
  | wf_branch k v cs :
      length cs = 16%nat ->
      (forall i c, cs !! i = Some (Some c) -> wf c) ->
      wf (StNode branchNode k v cs).

(** ** Paths that are closed

    [covers b n s]: the descent from [n] along the nibbles [s] ends in a
    hashed node or, when [b] is set, at a leaf whose key is what is left of
    [s]. With [b] unset the path [s] is dead: no node can be hashed at it
    or below it any more. *)
Inductive covers (b : bool) : stNode -> list N -> Prop :=
  | covers_hashed k v cs s : covers b (StNode hashedNode k v cs) s
  | covers_leaf k v cs : b = true -> covers b (StNode leafNode k v cs) k
  | covers_ext k v c rest s :
      covers b c s -> covers b (StNode extNode k v (Some c :: rest)) (k ++ s)
  | covers_branch k v cs i c s :
      cs !! N.to_nat i = Some (Some c) -> covers b c s ->
      covers b (StNode branchNode k v cs) (i :: s).

Abbreviation dead := (covers false).

(** ** What [hash] and [insert] do on well-formed nodes *)

(** [hash] at [path] returns, the node is hashed and well formed; the paths
    it hands to the writer lie at [path] or below, were open, and none is
    handed twice. *)
Definition hashSpec (o : StackTrieOptions) (first last : list N)
    (st : stNode) : Prop :=
  forall path,
    wf st ->
    o_panic (hash o first last st path) = None /\
    wf (o_node (hash o first last st path)) /\
    typ (o_node (hash o first last st path)) = hashedNode /\
    (forall p, p ∈ writerPaths (o_evs (hash o first last st path)) ->
               exists s, p = path ++ s /\ ~ dead st s) /\
    NoDup (writerPaths (o_evs (hash o first last st path))).

(** The branch of a split: the hashed original part [n] in slot [a], the new
    leaf [l] in slot [b]. *)
Definition splitChildren (a b : N) (n l : stNode) : list (option stNode) :=
  <[N.to_nat b := Some l]> (<[N.to_nat a := Some n]> noChildren).

(** The node that a split leaves, on a well-formed node. *)
Definition splitResult (d : nat) (k v : list N) (pcs : list (option stNode)) : stNode :=
  if (d =? 0)%nat then StNode branchNode k v pcs
  else StNode extNode k v (Some (StNode branchNode [] [] pcs) :: replicate 15 None).

(** What [insert] does on a well-formed node at [path]: the paths it hands
    to the writer were open and are closed afterwards, none is handed
    twice; when it returns, the node is well formed, it covers the new key
    and every path it covered before. *)
Definition insertSpec (o : StackTrieOptions) (first last : list N)
    (st : stNode) : Prop :=
  forall key value path,
    wf st ->
    let r := insert o first last st key value path in
    (forall p, p ∈ writerPaths (o_evs r) ->
       exists s, p = path ++ s /\ ~ dead st s /\
                 (o_panic r = None -> dead (o_node r) s)) /\
    NoDup (writerPaths (o_evs r)) /\
    (o_panic r = None ->
       wf (o_node r) /\ covers true (o_node r) key /\
       forall b s, covers b st s -> covers b (o_node r) s).

(** The end of the split of an extension node, once the original part [n]
    is hashed: the two halves are placed in the branch. *)
Definition extFinish (d : nat) (cs : list (option stNode)) (k v key value : list N)
    (n : stNode) (evs : list event) : out :=
  match setChild (splitBase d cs) (nth d k 0) (Some n) with
  | None => Out (splitNode d cs k v (splitBase d cs)) evs (Some PanicIndex)
  | Some pcs1 =>
      match setChild pcs1 (nth d key 0) (Some (newLeaf (drop (S d) key) value)) with
      | None => Out (splitNode d cs k v pcs1) evs (Some PanicIndex)
      | Some pcs2 => Out (splitNode d cs (take d k) v pcs2) evs None
      end
  end.

(** ** Lifetimes and sink events *)

(** The [(path, hash)] pairs handed to the writer, in call order. *)
Definition writerCalls (evs : list event) : list (list N * list N) :=
  omap (fun e => match e with EvWriter p h _ => Some (p, h) | _ => None end) evs.

(** The invariant of a lifetime: the root is well formed, and every path
    handed to the writer so far is closed, and was handed once. *)
Definition closedInv (t : StackTrie) (tr : list event) : Prop :=
  wf (root t) /\
  (forall p, p ∈ writerPaths tr -> dead (root t) p) /\
  NoDup (writerPaths tr).

(** The writer is called at the path of the node or below it, the cleaner
    strictly below it. *)
Definition belowPath (path : list N) (e : event) : Prop :=
  match e with
  | EvWriter p _ _ => exists s, p = path ++ s
  | EvCleaner q => exists s, q = path ++ s /\ s <> []
  | _ => True
  end.


(** The nibble path, without terminator, of the first key inserted by a
    sequence of operations: the key of the first update, unless that update
    is rejected for its empty value. *)
Fixpoint firstInserted (ops : list op) : option (list N) :=
  match ops with
  | [] => None
  | OpUpdate k v :: _ =>
      if (length v =? 0)%nat then None else Some (removelast (keybytesToHex k))
  | _ :: ops' => firstInserted ops'
  end.


(** ** The frontier

    [frontier n L]: the nodes below [n] that are not hashed are the nodes on
    the descent from [n] along the nibbles [L], which ends at a leaf; at
    every branch on the way the children to the left of the descent are
    hashed and there is no child to its right. *)
Inductive frontier : stNode -> list N -> Prop :=
  | frontier_leaf k v cs : frontier (StNode leafNode k v cs) k
  | frontier_ext k v c rest L :
      frontier c L -> frontier (StNode extNode k v (Some c :: rest)) (k ++ L)
  | frontier_branch k v cs j c L :
      cs !! N.to_nat j = Some (Some c) ->
      frontier c L ->
      (forall i n, (i < N.to_nat j)%nat -> cs !! i = Some (Some n) -> typ n = hashedNode) ->
      (forall i n, (N.to_nat j < i)%nat -> cs !! i <> Some (Some n)) ->
      frontier (StNode branchNode k v cs) (j :: L).

(** [bytes.Compare a b < 0]: the lexicographic order of byte strings. *)
Fixpoint lexlt (a b : list N) : bool :=
  match a, b with
  | _, [] => false
  | [], _ :: _ => true
  | x :: a', y :: b' => (x <? y) || ((x =? y) && lexlt a' b')
  end.

(** The keys are strictly increasing. *)
Fixpoint strictlyIncreasing (keys : list (list N)) : bool :=
  match keys with
  | k1 :: ((k2 :: _) as rest) => lexlt k1 k2 && strictlyIncreasing rest
  | _ => true
  end.

(** The nibble path of a key, without terminator. *)
Definition hexKey (key : list N) : list N := removelast (keybytesToHex key).

(** An [insert] that returns, with a key greater than [L], moves the
    frontier from [L] to that key. *)
Definition frontierSpec (o : StackTrieOptions) (first last : list N)
    (st : stNode) : Prop :=
  forall L K value path,
    wf st -> frontier st L -> lexlt L K = true ->
    o_panic (insert o first last st K value path) = None ->
    frontier (o_node (insert o first last st K value path)) K.

(** The keys are strictly increasing, from the key [prev] before them. *)
Fixpoint chain (prev : option (list N)) (keys : list (list N)) : bool :=
  match keys with
  | [] => true
  | k :: rest =>
      match prev with
      | None => true
      | Some p => lexlt p k
      end && chain (Some k) rest
  end.

(** The last key of [keys], or [prev]. *)
Definition lastKey (prev : option (list N)) (keys : list (list N)) : option (list N) :=
  fold_left (fun _ k => Some k) keys prev.

(** The state of the trie after updates of which the last had key [prev]:
    the root is well formed and the frontier runs to that key. *)
Definition trieInv (t : StackTrie) (prev : option (list N)) : Prop :=
  wf (root t) /\
  last t = hexKey <$> prev /\
  match prev with
  | None => typ (root t) = emptyNode
  | Some p => frontier (root t) (hexKey p)
  end.

(** ** Existing keys *)

(** [reaches st key n rem]: the descent of [insert] from [st] with the key
    [key] arrives at the node [n] with [rem] left of the key: through the
    slot of a branch, through an extension node whose key is matched in
    full. *)
Inductive reaches : stNode -> list N -> stNode -> list N -> Prop :=
  | reaches_here st key : reaches st key st key
  | reaches_branch k v cs k0 krest c n rem :
      cs !! N.to_nat k0 = Some (Some c) ->
      reaches c krest n rem ->
      reaches (StNode branchNode k v cs) (k0 :: krest) n rem
  | reaches_ext k v c rest key n rem :
      getDiffIndexFrom 0 k key = Some (length k) ->
      reaches c (drop (length k) key) n rem ->
      reaches (StNode extNode k v (Some c :: rest)) key n rem.

(** The leaf [n] holds the key [rem] already, as [insert] sees it: the
    index of the first difference is not inside the key of the leaf. *)
Definition existingKey (n : stNode) (rem : list N) : Prop :=
  typ n = leafNode /\
  exists d, getDiffIndex n rem = Some d /\ (length (key n) <= d)%nat.

(** The existing-key panic of [insert] comes from a leaf that its descent
    reaches. *)
Definition existingSpec (o : StackTrieOptions) (first last : list N)
    (st : stNode) : Prop :=
  forall key value path,
    wf st ->
    o_panic (insert o first last st key value path) = Some PanicExistingKey ->
    exists n rem, reaches st key n rem /\ existingKey n rem.

(** Re-inserting a key: the descent along a key that the node covers, in a
    node whose frontier runs to [L], stops at the leaf of [L] or at a hashed
    node, and hashes nothing on the way. *)
Definition coveredSpec (o : StackTrieOptions) (first last : list N)
    (st : stNode) : Prop :=
  forall K L value path,
    covers true st K -> frontier st L ->
    insert o first last st K value path
      = Out st [] (Some (if decide (K = L) then PanicExistingKey else PanicInsertIntoHash)).

(** ** Sample inputs *)

(** Three updates with increasing keys, the last with a value of 40 bytes. *)
Definition sampleThree : list (list N * list N) :=
  [([0x10], [1]); ([0x12], [2]); ([0x20], replicate 40 7)].

(** A branch of two leaves with values of 40 bytes, the first hashed
    already: the child of the extension node with key [1; 0; 0] that the
    keys [0x1000] and [0x1001] build. *)
Definition sampleBranch : stNode :=
  Eval vm_compute in
    default poolGet
      (mjoin (head (children (root (r_trie
         (updates (NewStackTrie (Some (WithCleaner writerOptions)))
            [([0x10; 0x00], replicate 40 1); ([0x10; 0x01], replicate 40 2)])))))).


(** Four updates with values of 40 bytes, then [Hash]. *)
Definition sampleRun : list op :=
  [OpUpdate [0x00] (replicate 40 1); OpUpdate [0x01] (replicate 40 2);
   OpUpdate [0x11] (replicate 40 3); OpUpdate [0x22] (replicate 40 4); OpHash].

(** Four updates with increasing keys that share nibbles. *)
Definition sampleFour : list (list N * list N) :=
  [([0x10; 0x00], replicate 40 1); ([0x10; 0x01], [2]); ([0x10; 0x20], [3]);
   ([0x20; 0x00], replicate 40 4)].

(** Three updates with increasing keys and values of 40 bytes. *)
Definition sampleBig : list (list N * list N) :=
  [([0x10; 0x00], replicate 40 1); ([0x10; 0x01], replicate 40 2);
   ([0x20; 0x00], replicate 40 3)].

(** ** Input on which an update returns *)

(** The nibbles of a path are below 16. *)
Definition nibbles (s : list N) : Prop := Forall (fun x => x < 16) s.

(** [K] leaves [L] to the right: after a common prefix the next element of
    [K] is the greater one. This is [lexlt L K] without the case in which
    [L] is a prefix of [K]. *)
Fixpoint rightOf (L K : list N) : bool :=
  match L, K with
  | x :: L', y :: K' => (x <? y) || ((x =? y) && rightOf L' K')
  | _, _ => false
  end.

(** No key is a prefix of the key that follows it. *)
Fixpoint prefixFree (keys : list (list N)) : bool :=
  match keys with
  | k1 :: ((k2 :: _) as rest) => negb (HasPrefix k2 k1) && prefixFree rest
  | _ => true
  end.

(** An update as Go can make it: the key is made of bytes and the value is
    not empty. *)
Definition validUpdate (kv : list N * list N) : bool :=
  forallb (fun b => b <? 256) kv.1 && negb (length kv.2 =? 0)%nat.

(** Every key leaves the key before it to the right, from the key [prev]
    on. *)
Fixpoint ascending (prev : option (list N)) (keys : list (list N)) : bool :=
  match keys with
  | [] => true
  | k :: rest =>
      match prev with
      | None => true
      | Some p => rightOf p k
      end && ascending (Some k) rest
  end.

(** [insert] returns when the new key leaves the frontier to the right. *)
Definition returnsSpec (o : StackTrieOptions) (first last : list N)
    (st : stNode) : Prop :=
  forall L K value path,
    wf st -> frontier st L -> nibbles L -> nibbles K -> rightOf L K = true ->
    o_panic (insert o first last st K value path) = None.

(** ** Calls of the sinks *)

(** What a call of a sink tells about the options: the writer, the cleaner
    and the gauge are called only when they are configured, the cleaner only
    next to a writer, the gauge only when a boundary is skipped; no error is
    logged. *)
Definition configured (o : StackTrieOptions) (e : event) : Prop :=
  match e with
  | EvWriter _ _ _ => Writer o = true
  | EvCleaner _ => Cleaner o = true /\ Writer o = true
  | EvGaugeInc =>
      boundaryGauge o = true /\ Writer o = true /\
      (SkipLeftBoundary o = true \/ SkipRightBoundary o = true)
  | EvLogError _ => False
  end.

(** What the writer is handed: the digest of the blob, 32 bytes long, and a
    blob of 32 bytes or more unless the node is the root. *)
Definition writerCallOK (e : event) : Prop :=
  match e with
  | EvWriter p h b =>
      h = hashData b /\ length h = 32%nat /\ ((32 <= length b)%nat \/ p = [])
  | _ => True
  end.

(** The first call of the writer in the sample run, with a writer and
    nothing else configured: path, hash and blob. *)
Definition sampleWrite : list N * list N * list N :=
  Eval vm_compute in
    match r_evs (run (NewStackTrie (Some writerOptions)) sampleRun) with
    | EvWriter p h b :: _ => (p, h, b)
    | _ => ([], [], [])
    end.

(** ** The order of the writer calls *)

(** The paths come bottom-up: no path is followed, later in the list, by
    itself or by a path below it. *)
Definition bottomUp (l : list (list N)) : Prop :=
  forall i j p q, (i < j)%nat -> l !! i = Some p -> l !! j = Some q -> HasPrefix q p = false.

(** ** The trie does not depend on the sinks *)

(** Two results on a node agree but for their events. *)
Definition sameNode (r r' : out) : Prop :=
  o_node r = o_node r' /\ o_panic r = o_panic r'.

(** Two tries agree but for their options. *)
Definition sameTrie (t t' : StackTrie) : Prop :=
  root t = root t' /\ first t = first t' /\ last t = last t'.

(** ** Where the nodes that are written lie *)

(** The event is for a node at [path] or below, on the descent along
    [L]. *)
Definition onPath (L path : list N) (e : event) : Prop :=
  match e with
  | EvWriter p _ _ => exists s, p = path ++ s /\ HasPrefix L s = true
  | EvCleaner q => exists s, q = path ++ s /\ HasPrefix L s = true
  | _ => True
  end.

(** The writer is called at [path] or below, off the descent along
    [K]. *)
Definition offPath (K path : list N) (e : event) : Prop :=
  match e with
  | EvWriter p _ _ => exists s, p = path ++ s /\ HasPrefix K s = false
  | _ => True
  end.

(** ** The nodes a trie holds *)

(** The number of nodes below a node, itself included, that satisfy
    [f]. *)
Fixpoint countNodes (f : stNode -> bool) (st : stNode) : nat :=
  match st with
  | StNode ty k v cs =>
      (if f st then 1 else 0) +
      sum_list_with (fun c => match c with
                              | Some n => countNodes f n
                              | None => 0
                              end) cs
  end%nat.

(** The nodes that the trie holds. *)
Definition held (st : stNode) : nat := countNodes (fun _ => true) st.

(** The nodes that are not hashed yet. *)
Definition unhashed (st : stNode) : nat :=
  countNodes (fun n => negb (bool_decide (typ n = hashedNode))) st.

(** ** Paths made of nibbles *)

(** The keys of the nodes below a node, itself included, are made of
    nibbles. *)
Inductive nibbleTree : stNode -> Prop :=
  | nibbleTree_node ty k v cs :
      nibbles k ->
      (forall i c, cs !! i = Some (Some c) -> nibbleTree c) ->
      nibbleTree (StNode ty k v cs).

(** The path handed to the writer or to the cleaner is made of nibbles. *)
Definition sinkNibbles (e : event) : Prop :=
  match e with
  | EvWriter p _ _ => nibbles p
  | EvCleaner q => nibbles q
  | _ => True
  end.

(** The keys of the updates are made of bytes. *)
Definition byteKeys (ops : list op) : bool :=
  forallb (fun o => match o with
                    | OpUpdate k _ => forallb (fun b => b <? 256) k
                    | _ => true
                    end) ops.

(** [insert] with a key made of nibbles, at a path made of nibbles, hands
    such paths to the sinks and keeps the keys of the nodes made of
    nibbles. *)
Definition nibbleSpec (o : StackTrieOptions) (first last : list N)
    (st : stNode) : Prop :=
  forall key value path,
    wf st -> nibbleTree st -> nibbles key -> nibbles path ->
    (forall e, e ∈ o_evs (insert o first last st key value path) -> sinkNibbles e) /\
    (o_panic (insert o first last st key value path) = None ->
     nibbleTree (o_node (insert o first last st key value path))).

(** * Properties *)

(** ** The model on known values *)

(** Keccak-256 of the empty string. *)
Example keccak256_empty :
  hashData []
    = [0xc5; 0xd2; 0x46; 0x01; 0x86; 0xf7; 0x23; 0x3c;
       0x92; 0x7e; 0x7d; 0xb2; 0xdc; 0xc7; 0x03; 0xc0;
       0xe5; 0x00; 0xb6; 0x53; 0xca; 0x82; 0x27; 0x3b;
       0x7b; 0xfa; 0xd8; 0x04; 0x5d; 0x85; 0xa4; 0x70].
Proof. vm_compute. reflexivity. Qed.

(** The key 0xA0: nibbles 10, 0; as a leaf path it is encoded 0x20 0xa0. *)
Example compact_single_key :
  keybytesToHex [0xA0] = [10; 0; 16] /\ hexToCompact [10; 0; 16] = [0x20; 0xa0] /\
  hexToCompact [1] = [0x11] /\ hexToCompact [1; 2; 3; 16] = [0x31; 0x23].
Proof. repeat split. Qed.

(** A single short key: the root is a leaf, encoded as the list of 0x20a0
    and 0x01; [Hash] returns the digest of that encoding. *)
Example single_short_key :
  let t := r_trie (updates (NewStackTrie None) [([0xA0], [1])]) in
  root t = newLeaf [10; 0] [1] /\
  (Hash t).1 = hashData [0xc4; 0x82; 0x20; 0xa0; 0x01].
Proof. split; vm_compute; reflexivity. Qed.

(** Two keys that share a nibble: an extension node with path [1] over a
    branch whose slot 0 holds the leaf of the first key, hashed during the
    second update, and whose slot 2 holds the leaf of the second key. *)
Example two_keys_sharing_a_nibble :
  root (r_trie (updates (NewStackTrie None) [([0x10], [1]); ([0x12], [2])]))
    = StNode extNode [1] []
        (Some (StNode branchNode [] []
                 (<[2%nat := Some (newLeaf [] [2])]>
                    (<[0%nat := Some (StNode hashedNode [] [0xc2; 0x20; 0x01] noChildren)]>
                       noChildren)))
           :: replicate 15 None).
Proof. vm_compute. reflexivity. Qed.

(** Three keys that differ at the first nibble: a branch at the root; each
    update hashes the leaf of the update before it. *)
Example three_keys_at_first_nibble :
  root (r_trie (updates (NewStackTrie None)
                  [([0x00], [0x61]); ([0x10], [0x62]); ([0x20], [0x63])]))
    = StNode branchNode [] []
        (<[2%nat := Some (newLeaf [0] [0x63])]>
           (<[1%nat := Some (StNode hashedNode [] [0xc2; 0x30; 0x62] noChildren)]>
              (<[0%nat := Some (StNode hashedNode [] [0xc2; 0x30; 0x61] noChildren)]>
                 noChildren))).
Proof. vm_compute. reflexivity. Qed.

(** The same key twice: the second update fails, nothing is written. *)
Example duplicate_insert :
  let r := updates (NewStackTrie (Some writerOptions)) [([0x10], [0x61]); ([0x10], [0x62])] in
  r_outcome r = Panicked PanicExistingKey /\ r_evs r = [].
Proof. split; vm_compute; reflexivity. Qed.

(** ** The end of [hash] *)
Section HasherFacts.
Variable o : StackTrieOptions.
Variables first last : list N.

Lemma hashTail_node st path blob internal :
  let n := (hashTail o first last st path blob internal).1 in
  typ n = hashedNode /\ key n = [] /\ children n = children st /\
  (val n = blob \/ val n = hashData blob).
Proof.
  unfold hashTail.
  repeat (case_match; simpl); auto.
Qed.

Lemma hash_unfold st path :
  hash o first last st path =
  match typ st with
  | hashedNode => Out st [] None
  | emptyNode => Out (StNode hashedNode [] emptyRoot (children st)) [] None
  | _ =>
      let '(st1, blob, internal, evs, pan) := hashSwitch o (hash o first last) st path in
      match pan with
      | Some p => Out st1 evs (Some p)
      | None =>
          let '(st', evs') := hashTail o first last st1 path blob internal in
          Out st' (evs ++ evs') None
      end
  end.
Proof. destruct st; reflexivity. Qed.

(** A node that [hash] returns from is a hashed node. *)
Lemma hash_hashed st path :
  o_panic (hash o first last st path) = None ->
  typ (o_node (hash o first last st path)) = hashedNode.
Proof.
  rewrite hash_unfold.
  destruct (typ st) eqn:Hty; simpl; auto.
  all: destruct (hashSwitch _ _ _ _) as [[[[st1 blob] internal] evs] pan].
  all: destruct pan; simpl; [discriminate|].
  all: pose proof (hashTail_node st1 path blob internal) as H.
  all: destruct (hashTail _ _ _ _ _ _ _) as [st' evs']; simpl in *; tauto.
Qed.

(** Hashing a hashed node does nothing. *)
Lemma hash_noop st path :
  typ st = hashedNode -> hash o first last st path = Out st [] None.
Proof. intros H. rewrite hash_unfold, H. reflexivity. Qed.
End HasherFacts.

(** ** Paths that are closed *)

Lemma dead_covers b n s : dead n s -> covers b n s.
Proof. induction 1; econstructor; eauto. discriminate. Qed.

Lemma covers_leaf_inv b k v cs s :
  covers b (StNode leafNode k v cs) s -> b = true /\ s = k.
Proof. inversion 1; auto. Qed.

Lemma covers_ext_inv b k v cs s :
  covers b (StNode extNode k v cs) s ->
  exists c rest s', cs = Some c :: rest /\ s = k ++ s' /\ covers b c s'.
Proof. inversion 1; subst; eauto 10. Qed.

Lemma covers_branch_inv b k v cs s :
  covers b (StNode branchNode k v cs) s ->
  exists i c s', s = i :: s' /\ cs !! N.to_nat i = Some (Some c) /\ covers b c s'.
Proof. inversion 1; subst; eauto 10. Qed.

Lemma covers_empty_inv b k v cs s : ~ covers b (StNode emptyNode k v cs) s.
Proof. inversion 1. Qed.

Lemma wf_not_dead_here n : wf n -> typ n <> hashedNode -> ~ dead n [].
Proof.
  intros Hwf Hty Hd. inversion Hd; subst; simpl in *; try congruence.
  inversion Hwf; subst. destruct k; [congruence|discriminate].
Qed.

(** ** Events of [hash] *)

Lemma writerPaths_app evs1 evs2 :
  writerPaths (evs1 ++ evs2) = writerPaths evs1 ++ writerPaths evs2.
Proof. apply omap_app. Qed.

Lemma cleanerPaths_app evs1 evs2 :
  cleanerPaths (evs1 ++ evs2) = cleanerPaths evs1 ++ cleanerPaths evs2.
Proof. apply omap_app. Qed.

Lemma writerPaths_cleaners qs : writerPaths (map EvCleaner qs) = [].
Proof. induction qs; simpl; auto. Qed.

Lemma cleanerPaths_cleaners qs : cleanerPaths (map EvCleaner qs) = qs.
Proof. induction qs; simpl; f_equal; auto. Qed.

Section HashEvents.
Variable o : StackTrieOptions.
Variables first last : list N.

(** The sink is handed at most the node itself. *)
Lemma hashTail_writerPaths st path blob internal :
  writerPaths (hashTail o first last st path blob internal).2 = [] \/
  writerPaths (hashTail o first last st path blob internal).2 = [path].
Proof.
  unfold hashTail, gaugeInc.
  repeat (case_match; simpl); auto.
  right. rewrite writerPaths_app, writerPaths_cleaners. reflexivity.
Qed.

Lemma hashTail_noChildren st path blob internal :
  children st = noChildren ->
  exists v, (hashTail o first last st path blob internal).1
            = StNode hashedNode [] v noChildren.
Proof.
  intros Hcs.
  pose proof (hashTail_node o first last st path blob internal) as (H1 & H2 & H3 & _).
  destruct (hashTail _ _ _ _ _ _ _).1 as [ty k v cs]; simpl in *; subst.
  exists v. congruence.
Qed.
End HashEvents.

(** ** [hash] on well-formed nodes *)
Section HashWf.
Variable o : StackTrieOptions.
Variables first last : list N.

Lemma hashChildren_spec path cs :
  Forall (onChild (hashSpec o first last)) cs ->
  (forall i c, cs !! i = Some (Some c) -> wf c) ->
  forall i,
  exists refs evs,
    hashChildren (hash o first last) path cs i
      = (refs, replicate (length cs) None, evs, None) /\
    (forall p, p ∈ writerPaths evs ->
       exists j c s, cs !! j = Some (Some c) /\
                     p = path ++ N.of_nat (i + j) :: s /\ ~ dead c s) /\
    NoDup (writerPaths evs).
Proof.
  induction 1 as [|c cs Hc Hcs IH]; intros Hwf i.
  - exists [], []. simpl. split_and!; auto. { intros p Hp. inversion Hp. } constructor.
  - destruct (IH (fun j => Hwf (S j)) (S i)) as (refs & evs & Heq & Hev & Hnd).
    destruct c as [c|]; simpl; rewrite Heq.
    + destruct (Hc (path ++ [N.of_nat i]) (Hwf 0%nat c eq_refl))
        as (Hpan & _ & _ & Hcev & Hcnd).
      rewrite Hpan.
      eexists _, _. split; [reflexivity|].
      rewrite writerPaths_app. split.
      * intros p [Hp|Hp]%elem_of_app.
        -- destruct (Hcev p Hp) as (s & -> & Hs).
           exists 0%nat, c, s. split_and!; auto.
           rewrite <- app_assoc. simpl. do 3 f_equal. lia.
        -- destruct (Hev p Hp) as (j & c' & s & Hj & -> & Hs).
           exists (S j), c', s. split_and!; auto.
           do 3 f_equal. lia.
      * apply NoDup_app. split_and!; auto.
        intros p Hp1 Hp2.
        destruct (Hcev p Hp1) as (s & -> & Hs).
        destruct (Hev _ Hp2) as (j & c' & s' & Hj & Heq' & Hs').
        rewrite <- app_assoc in Heq'. apply app_inv_head in Heq'.
        simpl in Heq'. injection Heq' as Heq' _. lia.
    + eexists _, _. split; [reflexivity|]. split; auto.
      intros p Hp. destruct (Hev p Hp) as (j & c' & s & Hj & -> & Hs).
      exists (S j), c', s. split_and!; auto. do 3 f_equal. lia.
Qed.

Ltac tail_facts :=
  match goal with
  | |- context [hashTail ?a ?b ?c ?st ?p ?blob ?int] =>
      let v := fresh "v'" in
      let Hn := fresh "Hn" in
      let Hw := fresh "Hw" in
      pose proof (hashTail_noChildren a b c st p blob int eq_refl) as [v Hn];
      pose proof (hashTail_writerPaths a b c st p blob int) as Hw;
      destruct (hashTail a b c st p blob int) as [? ?];
      cbn [fst snd o_node o_evs o_panic typ app] in *; subst
  end.

Lemma own_path_only evs' path p :
  writerPaths evs' = [] \/ writerPaths evs' = [path] ->
  p ∈ writerPaths evs' -> p = path.
Proof.
  intros [Hw|Hw] Hp; rewrite Hw in Hp; [inversion Hp|].
  by apply list_elem_of_singleton in Hp.
Qed.

Lemma own_path_NoDup evs' path :
  writerPaths evs' = [] \/ writerPaths evs' = [path] -> NoDup (writerPaths evs').
Proof. intros [-> | ->]; [constructor|apply NoDup_singleton]. Qed.

Lemma hash_spec st : (hashSpec o first last) st.
Proof.
  induction st as [ty k v cs IH] using stNode_ind.
  intros path Hwf. rewrite hash_unfold.
  inversion Hwf as [| | |? ? c Hk Hc|? ? ? Hlen Hcs]; subst;
    cbn [typ children hashSwitch o_node o_evs o_panic].
  - (* empty *)
    split_and!; auto using wf_hashed, NoDup_nil_2. intros p Hp; inversion Hp.
  - (* leaf *)
    tail_facts.
    split_and!; [done | apply wf_hashed | done | | eauto using own_path_NoDup].
    intros p Hp. exists []. rewrite app_nil_r. split; [eauto using own_path_only|].
    intros [? _]%covers_leaf_inv. discriminate.
  - (* hashed *)
    split_and!; auto using wf_hashed, NoDup_nil_2. intros p Hp; inversion Hp.
  - (* ext *)
    apply Forall_cons_1 in IH as [IHc _]. cbn [onChild] in IHc.
    destruct (IHc (path ++ k) Hc) as (Hpan & Hwfc & Htyc & Hcev & Hcnd).
    cbv zeta. rewrite Hpan.
    tail_facts.
    rewrite writerPaths_app.
    split_and!; [done | apply wf_hashed | done | | ].
    + intros p [Hp|Hp]%elem_of_app.
      * destruct (Hcev p Hp) as (s & -> & Hs).
        exists (k ++ s). rewrite app_assoc. split; auto.
        intros (c' & rest & s' & [= <- <-] & Heq%app_inv_head & Hd)%covers_ext_inv.
        subst. auto.
      * exists []. rewrite app_nil_r. split; [eauto using own_path_only|].
        apply wf_not_dead_here; [done|discriminate].
    + apply NoDup_app. split_and!; eauto using own_path_NoDup.
      intros p Hp1 Hp2.
      destruct (Hcev p Hp1) as (s & -> & Hs).
      apply (own_path_only _ _ _ Hw) in Hp2.
      rewrite <- app_assoc in Hp2.
      rewrite <- (app_nil_r path) in Hp2 at 2.
      apply app_inv_head in Hp2. destruct k; [congruence|discriminate].
  - (* branch *)
    destruct (hashChildren_spec path cs IH Hcs 0%nat) as (refs & evs & Heq & Hev & Hnd).
    rewrite Heq, Hlen.
    tail_facts.
    rewrite writerPaths_app.
    split_and!; [done | apply wf_hashed | done | | ].
    + intros p [Hp|Hp]%elem_of_app.
      * destruct (Hev p Hp) as (j & c & s & Hj & -> & Hs).
        exists (N.of_nat j :: s). split; auto.
        intros (i & c' & s' & [= <- <-] & Hl & Hd)%covers_branch_inv.
        rewrite Nat2N.id in Hl. congruence.
      * exists []. rewrite app_nil_r. split; [eauto using own_path_only|].
        intros (i & c' & s' & [=] & _)%covers_branch_inv.
    + apply NoDup_app. split_and!; eauto using own_path_NoDup.
      intros p Hp1 Hp2.
      destruct (Hev p Hp1) as (j & c & s & Hj & -> & Hs).
      apply (own_path_only _ _ _ Hw) in Hp2.
      rewrite <- (app_nil_r path) in Hp2 at 2.
      apply app_inv_head in Hp2. discriminate.
Qed.
End HashWf.

(** ** Helpers of [insert] *)

Lemma getDiffIndexFrom_spec nkey : forall idx k d,
  getDiffIndexFrom idx nkey k = Some d ->
  exists e, d = (idx + e)%nat /\ (e <= length nkey)%nat /\ (e <= length k)%nat /\
            take e nkey = take e k /\
            ((e < length nkey)%nat -> (e < length k)%nat /\ nth e nkey 0 <> nth e k 0).
Proof.
  induction nkey as [|a nkey IH]; intros idx k d; simpl.
  - intros [= <-]. exists 0%nat. split_and!; simpl; try lia. { by rewrite take_0. }
  - destruct k as [|b k]; [discriminate|].
    destruct (N.eqb_spec a b) as [->|Hne].
    + intros (e & -> & ? & ? & Ht & Hn)%IH.
      exists (S e). split_and!; simpl; try lia. by rewrite Ht.
    + intros [= <-]. exists 0%nat. split_and!; simpl; try lia; auto.
Qed.

Lemma getDiffIndex_spec nkey k d :
  getDiffIndexFrom 0 nkey k = Some d ->
  (d <= length nkey)%nat /\ (d <= length k)%nat /\ take d nkey = take d k /\
  ((d < length nkey)%nat -> (d < length k)%nat /\ nth d nkey 0 <> nth d k 0).
Proof.
  intros (e & -> & ?)%getDiffIndexFrom_spec. simpl. tauto.
Qed.

Lemma take_S_nth (l : list N) d :
  (d < length l)%nat -> take (S d) l = take d l ++ [nth d l 0].
Proof.
  revert d. induction l as [|a l IH]; intros d Hd; simpl in *; [lia|].
  destruct d; simpl; [done|]. rewrite IH by lia. done.
Qed.

Lemma split_at_nth (l : list N) d :
  (d < length l)%nat -> l = take d l ++ nth d l 0 :: drop (S d) l.
Proof.
  revert d. induction l as [|a l IH]; intros d Hd; simpl in *; [lia|].
  destruct d; simpl; [done|]. rewrite <- IH by lia. done.
Qed.

Lemma setChild_Some cs idx c cs' :
  setChild cs idx c = Some cs' <-> idx < 16 /\ cs' = <[N.to_nat idx := c]> cs.
Proof.
  unfold setChild. destruct (N.ltb_spec idx 16); split.
  - intros [= <-]. auto.
  - intros [_ ->]. done.
  - discriminate.
  - lia.
Qed.

Lemma setChild_None cs idx c : setChild cs idx c = None <-> 16 <= idx.
Proof.
  unfold setChild. destruct (N.ltb_spec idx 16); split; try done; lia.
Qed.

Section SlotFacts.
Variable f : stNode -> out.
Variable leaf : stNode.

Lemma insertSlot_lookup cs idx :
  insertSlot f leaf cs idx =
  match cs !! idx with
  | None => None
  | Some None => Some (Out leaf [] None)
  | Some (Some c) => Some (f c)
  end.
Proof.
  revert idx. induction cs as [|c cs IH]; intros [|idx]; simpl; auto.
Qed.
End SlotFacts.

Section ElderFacts.
Variable o : StackTrieOptions.
Variables first last : list N.

(** The three ways the scan for the elder sibling ends. *)
Lemma unresolveElder_cases cs path : forall n,
  (n <= length cs)%nat ->
  (unresolveElder o first last cs n path = (cs, [], None) /\
   (forall j, (j < n)%nat -> cs !! j = Some None))
  \/ (exists i c, (i < n)%nat /\ cs !! i = Some (Some c) /\ typ c = hashedNode /\
        (forall j, (i < j < n)%nat -> cs !! j = Some None) /\
        unresolveElder o first last cs n path = (cs, [], None))
  \/ (exists i c, (i < n)%nat /\ cs !! i = Some (Some c) /\ typ c <> hashedNode /\
        (forall j, (i < j < n)%nat -> cs !! j = Some None) /\
        let r := hash o first last c (path ++ [N.of_nat i]) in
        unresolveElder o first last cs n path
          = (<[i := Some (o_node r)]> cs, o_evs r, o_panic r)).
Proof.
  induction n as [|n IH]; intros Hn; simpl.
  - left. split; auto. intros; lia.
  - destruct (cs !! n) as [[c|]|] eqn:Hl.
    + destruct (decide (typ c = hashedNode)) as [Hty|Hty].
      * right; left. exists n, c. split_and!; auto. intros; lia.
      * right; right. exists n, c. split_and!; auto. intros; lia.
    + destruct IH as [[Heq Hall]|[(i & c & ? & ? & ? & Hall & Heq)|(i & c & ? & ? & ? & Hall & Heq)]];
        [lia| | |].
      * left. split; auto. intros j Hj.
        destruct (decide (j = n)) as [->|]; auto. apply Hall. lia.
      * right; left. exists i, c. split_and!; auto.
        intros j Hj. destruct (decide (j = n)) as [->|]; auto. apply Hall. lia.
      * right; right. exists i, c. split_and!; auto.
        intros j Hj. destruct (decide (j = n)) as [->|]; auto. apply Hall. lia.
    + apply lookup_ge_None in Hl. lia.
Qed.

Lemma unresolveElder_out_of_range cs path n :
  (length cs < n)%nat ->
  unresolveElder o first last cs n path = (cs, [], Some PanicIndex).
Proof.
  destruct n as [|n]; [lia|]. intros Hn. simpl.
  rewrite (proj2 (lookup_ge_None cs n)) by lia. done.
Qed.
End ElderFacts.

(** ** The two halves of a split *)

Lemma splitBase_wf d cs :
  cs = noChildren \/ (exists c, cs = Some c :: replicate 15 None) ->
  splitBase d cs = noChildren.
Proof.
  unfold splitBase. destruct (d =? 0)%nat; auto.
  intros [->|[c ->]]; reflexivity.
Qed.

Lemma splitNode_wf d cs k v pcs :
  cs = noChildren \/ (exists c, cs = Some c :: replicate 15 None) ->
  splitNode d cs k v pcs =
  if (d =? 0)%nat then StNode branchNode k v pcs
  else StNode extNode k v (Some (StNode branchNode [] [] pcs) :: replicate 15 None).
Proof.
  unfold splitNode. destruct (d =? 0)%nat; auto.
  intros [->|[c ->]]; reflexivity.
Qed.

Lemma splitChildren_length a b n l : length (splitChildren a b n l) = 16%nat.
Proof. unfold splitChildren. by rewrite !length_insert. Qed.

Lemma splitChildren_lookup a b n l i :
  a < 16 -> b < 16 -> a <> b ->
  splitChildren a b n l !! i =
  if decide (i = N.to_nat b) then Some (Some l)
  else if decide (i = N.to_nat a) then Some (Some n)
  else if decide (i < 16)%nat then Some None else None.
Proof.
  intros Ha Hb Hab. unfold splitChildren.
  assert (length noChildren = 16%nat) as Hlen by reflexivity.
  destruct (decide (i = N.to_nat b)) as [->|Hib].
  { rewrite list_lookup_insert_eq; [done|]. rewrite length_insert. lia. }
  rewrite list_lookup_insert_ne by done.
  destruct (decide (i = N.to_nat a)) as [->|Hia].
  { rewrite list_lookup_insert_eq; [done|]. lia. }
  rewrite list_lookup_insert_ne by done.
  destruct (decide (i < 16)%nat).
  - unfold noChildren. by rewrite lookup_replicate_2.
  - apply lookup_ge_None. lia.
Qed.

Lemma splitChildren_wf a b n l :
  a < 16 -> b < 16 -> a <> b -> wf n -> wf l ->
  forall i c, splitChildren a b n l !! i = Some (Some c) -> wf c.
Proof.
  intros Ha Hb Hab Hn Hl i c. rewrite splitChildren_lookup by done.
  repeat case_decide; congruence.
Qed.

Lemma splitResult_wf d k v a b n l :
  (d < length k)%nat ->
  a < 16 -> b < 16 -> a <> b -> wf n -> wf l ->
  wf (splitResult d (take d k) v (splitChildren a b n l)).
Proof.
  intros Hd Ha Hb Hab Hn Hl. unfold splitResult.
  destruct (Nat.eqb_spec d 0) as [->|Hd0].
  - apply wf_branch; [apply splitChildren_length|].
    by apply splitChildren_wf.
  - apply wf_ext.
    + destruct k; simpl in *; [lia|]. destruct d; [lia|done].
    + apply wf_branch; [apply splitChildren_length|].
      by apply splitChildren_wf.
Qed.

Lemma splitResult_covers_branch bb d k v pcs i c s :
  pcs !! N.to_nat i = Some (Some c) -> covers bb c s ->
  covers bb (splitResult d (take d k) v pcs) (take d k ++ i :: s).
Proof.
  intros Hl Hc. unfold splitResult.
  destruct (Nat.eqb_spec d 0) as [->|Hd0].
  - rewrite take_0. simpl. by eapply covers_branch.
  - apply covers_ext. by eapply covers_branch.
Qed.

(** ** [insert] on well-formed nodes *)
Section InsertWf.
Variable o : StackTrieOptions.
Variables first last : list N.

Lemma elder_spec cs path n :
  (n <= length cs)%nat ->
  (forall i c, cs !! i = Some (Some c) -> wf c) ->
  exists cs1 evs1,
    unresolveElder o first last cs n path = (cs1, evs1, None) /\
    length cs1 = length cs /\
    (forall j, (n <= j)%nat -> cs1 !! j = cs !! j) /\
    (forall j c, cs1 !! j = Some (Some c) -> wf c) /\
    (forall b j c s, cs !! j = Some (Some c) -> covers b c s ->
       exists c', cs1 !! j = Some (Some c') /\ covers b c' s) /\
    (forall p, p ∈ writerPaths evs1 ->
       exists i c s, (i < n)%nat /\ cs !! i = Some (Some c) /\
         p = path ++ N.of_nat i :: s /\ ~ dead c s /\
         exists c', cs1 !! i = Some (Some c') /\ dead c' s) /\
    NoDup (writerPaths evs1).
Proof.
  intros Hn Hwf.
  destruct (unresolveElder_cases o first last cs path n Hn)
    as [[Heq _]|[(i & c & _ & _ & _ & _ & Heq)|(i & c & Hi & Hl & Hty & _ & Heq)]].
  1,2: exists cs, []; split_and!; eauto using NoDup_nil_2;
       intros p Hp; inversion Hp.
  cbv zeta in Heq.
  destruct (hash_spec o first last c (path ++ [N.of_nat i]) (Hwf _ _ Hl))
    as (Hpan & Hwfc & Htyc & Hev & Hnd).
  set (r := hash o first last c (path ++ [N.of_nat i])) in *.
  rewrite Hpan in Heq.
  assert (i < length cs)%nat as Hilen by (eapply lookup_lt_Some; eauto).
  exists (<[i := Some (o_node r)]> cs), (o_evs r).
  split_and!; auto.
  - by rewrite length_insert.
  - intros j Hj. rewrite list_lookup_insert_ne by lia. done.
  - intros j c'. destruct (decide (j = i)) as [->|].
    + rewrite list_lookup_insert_eq by done. by intros [= <-].
    + rewrite list_lookup_insert_ne by done. eauto.
  - intros b j c' s Hj Hc. destruct (decide (j = i)) as [->|].
    + rewrite list_lookup_insert_eq by done. eexists; split; [done|].
      destruct (o_node r); simpl in Htyc; subst. constructor.
    + rewrite list_lookup_insert_ne by done. eauto.
  - intros p Hp. destruct (Hev p Hp) as (s & -> & Hs).
    exists i, c, s. rewrite <- app_assoc. split_and!; auto.
    rewrite list_lookup_insert_eq by done. eexists; split; [done|].
    destruct (o_node r); simpl in Htyc; subst. constructor.
Qed.

Lemma insert_empty_spec k v : (insertSpec o first last) (StNode emptyNode k v noChildren).
Proof.
  intros key value path Hwf. cbn [insert]. cbn [o_evs o_panic o_node].
  split_and!; [|apply NoDup_nil_2|].
  - intros p Hp. inversion Hp.
  - intros _. split_and!; [apply wf_leaf|by apply covers_leaf|].
    intros b s Hc. by apply covers_empty_inv in Hc.
Qed.

Lemma insert_hashed_spec k v : (insertSpec o first last) (StNode hashedNode k v noChildren).
Proof.
  intros key value path Hwf. cbn [insert]. cbn [o_evs o_panic o_node].
  split_and!; [|apply NoDup_nil_2|discriminate].
  intros p Hp. inversion Hp.
Qed.

(** The node left by a split at index [d] of the key [k], for the new key
    [key]: [n] is the hashed original part. *)
Lemma split_facts d k key v' value n :
  (d < length k)%nat -> (d < length key)%nat ->
  take d k = take d key ->
  nth d k 0 <> nth d key 0 ->
  nth d k 0 < 16 -> nth d key 0 < 16 ->
  wf n -> typ n = hashedNode ->
  let res := splitResult d (take d k) v'
               (splitChildren (nth d k 0) (nth d key 0) n
                  (newLeaf (drop (S d) key) value)) in
  wf res /\ covers true res key /\
  forall b s, covers b res (take (S d) k ++ s).
Proof.
  intros Hdk Hdkey Htake Hne Ha Hb Hwfn Htyn res.
  split_and!.
  - apply splitResult_wf; auto. apply wf_leaf.
  - assert (covers true res (take d k ++ nth d key 0 :: drop (S d) key)) as Hc.
    { eapply splitResult_covers_branch.
      + rewrite splitChildren_lookup by done. by rewrite decide_True.
      + by apply covers_leaf. }
    rewrite Htake, <- split_at_nth in Hc; done.
  - intros b s. rewrite take_S_nth by done. rewrite <- app_assoc. simpl.
    eapply splitResult_covers_branch.
    + rewrite splitChildren_lookup by done.
      rewrite decide_False, decide_True; [done|done|].
      intros Heq. apply Hne. lia.
    + destruct n; simpl in Htyn; subst. constructor.
Qed.

Lemma insert_leaf_spec k v : (insertSpec o first last) (StNode leafNode k v noChildren).
Proof.
  intros key value path Hwf. cbn [insert].
  destruct (getDiffIndexFrom 0 k key) as [d|] eqn:Hd; cbn [o_evs o_panic o_node].
  2: { split_and!; [|apply NoDup_nil_2|discriminate]. intros p Hp; inversion Hp. }
  apply getDiffIndex_spec in Hd as (Hdk & Hdkey & Htake & Hdiff).
  destruct (Nat.leb_spec (length k) d) as [Hge|Hlt]; cbn [o_evs o_panic o_node].
  { split_and!; [|apply NoDup_nil_2|discriminate]. intros p Hp; inversion Hp. }
  destruct (Hdiff Hlt) as [Hdkey' Hne].
  rewrite (splitBase_wf d noChildren) by auto.
  destruct (setChild noChildren (nth d k 0) _) as [pcs1|] eqn:Hs1;
    cbn [o_evs o_panic o_node].
  2: { split_and!; [|apply NoDup_nil_2|discriminate]. intros p Hp; inversion Hp. }
  apply setChild_Some in Hs1 as [Ha _].
  destruct (hash_spec o first last (newLeaf (drop (S d) k) v) (path ++ take (S d) k)
              (wf_leaf _ _)) as (Hpan & Hwfn & Htyn & Hev & Hnd).
  set (r := hash o first last (newLeaf (drop (S d) k) v) (path ++ take (S d) k)) in *.
  rewrite Hpan.
  assert (forall p, p ∈ writerPaths (o_evs r) ->
            exists s, p = path ++ take (S d) k ++ s /\
                      ~ dead (StNode leafNode k v noChildren) (take (S d) k ++ s)) as Hev'.
  { intros p Hp. destruct (Hev p Hp) as (s & -> & _).
    exists s. rewrite <- app_assoc. split; [done|].
    intros [? _]%covers_leaf_inv. discriminate. }
  destruct (setChild _ (nth d key 0) _) as [pcs2|] eqn:Hs2; cbn [o_evs o_panic o_node].
  2: { split_and!; [|done|discriminate].
       intros p Hp. destruct (Hev' p Hp) as (s & -> & Hs).
       exists (take (S d) k ++ s). split_and!; [done|done|discriminate]. }
  apply setChild_Some in Hs2 as [Hb ->].
  rewrite splitNode_wf by auto. fold (splitResult d (take d k) [] ).
  change (<[N.to_nat (nth d key 0):=Some (newLeaf (drop (S d) key) value)]>
            (<[N.to_nat (nth d k 0):=Some (o_node r)]> noChildren))
    with (splitChildren (nth d k 0) (nth d key 0) (o_node r)
            (newLeaf (drop (S d) key) value)).
  destruct (split_facts d k key [] value (o_node r)) as (Hwfr & Hcov & Hall); auto.
  split_and!; [|done|].
  - intros p Hp. destruct (Hev' p Hp) as (s & -> & Hs).
    exists (take (S d) k ++ s). split_and!; [done|done|auto].
  - intros _. split_and!; auto.
    intros b s [_ ->]%covers_leaf_inv.
    specialize (Hall b (drop (S d) k)). by rewrite take_drop in Hall.
Qed.

Lemma extFinish_spec d k v c key value path n evs :
  let st := StNode extNode k v (Some c :: replicate 15 None) in
  (d < length k)%nat -> (d < length key)%nat ->
  take d k = take d key ->
  nth d k 0 <> nth d key 0 ->
  wf n -> typ n = hashedNode ->
  (forall p, p ∈ writerPaths evs ->
     exists s, p = path ++ take (S d) k ++ s /\ ~ dead st (take (S d) k ++ s)) ->
  NoDup (writerPaths evs) ->
  let r := extFinish d (children st) k v key value n evs in
  (forall p, p ∈ writerPaths (o_evs r) ->
     exists s, p = path ++ s /\ ~ dead st s /\
               (o_panic r = None -> dead (o_node r) s)) /\
  NoDup (writerPaths (o_evs r)) /\
  (o_panic r = None ->
     wf (o_node r) /\ covers true (o_node r) key /\
     forall b s, covers b st s -> covers b (o_node r) s).
Proof.
  intros st Hdk Hdkey Htake Hne Hwfn Htyn Hev Hnd. unfold extFinish.
  cbn [children st].
  rewrite (splitBase_wf d (Some c :: replicate 15 None)) by eauto.
  destruct (setChild noChildren (nth d k 0) _) as [pcs1|] eqn:Hs1;
    cbn [o_evs o_panic o_node].
  2: { split_and!; [|done|discriminate].
       intros p Hp. destruct (Hev p Hp) as (s & -> & Hs).
       exists (take (S d) k ++ s). split_and!; [done|done|discriminate]. }
  apply setChild_Some in Hs1 as [Ha ->].
  destruct (setChild _ (nth d key 0) _) as [pcs2|] eqn:Hs2; cbn [o_evs o_panic o_node].
  2: { split_and!; [|done|discriminate].
       intros p Hp. destruct (Hev p Hp) as (s & -> & Hs).
       exists (take (S d) k ++ s). split_and!; [done|done|discriminate]. }
  apply setChild_Some in Hs2 as [Hb ->].
  rewrite splitNode_wf by eauto. fold (splitResult d (take d k) v).
  change (<[N.to_nat (nth d key 0):=Some (newLeaf (drop (S d) key) value)]>
            (<[N.to_nat (nth d k 0):=Some n]> noChildren))
    with (splitChildren (nth d k 0) (nth d key 0) n (newLeaf (drop (S d) key) value)).
  destruct (split_facts d k key v value n) as (Hwfr & Hcov & Hall); auto.
  split_and!; [|done|].
  - intros p Hp. destruct (Hev p Hp) as (s & -> & Hs).
    exists (take (S d) k ++ s). split_and!; [done|done|auto].
  - intros _. split_and!; auto.
    intros b s (c' & rest & s' & _ & -> & _)%covers_ext_inv.
    specialize (Hall b (drop (S d) k ++ s')).
    by rewrite app_assoc, take_drop in Hall.
Qed.

Lemma insert_ext_spec k v c :
  k <> [] -> wf c -> (insertSpec o first last) c ->
  (insertSpec o first last) (StNode extNode k v (Some c :: replicate 15 None)).
Proof.
  intros Hk Hwfc IH key value path Hwf. cbn [insert].
  destruct (getDiffIndexFrom 0 k key) as [d|] eqn:Hd; cbn [o_evs o_panic o_node].
  2: { split_and!; [|apply NoDup_nil_2|discriminate]. intros p Hp; inversion Hp. }
  apply getDiffIndex_spec in Hd as (Hdk & Hdkey & Htake & Hdiff).
  destruct (Nat.eqb_spec d (length k)) as [->|Hdne].
  - (* the key runs through the extension node *)
    rewrite take_ge in Htake by lia.
    destruct (IH (drop (length k) key) value (path ++ take (length k) key) Hwfc)
      as (Hev & Hnd & Hok).
    set (r := insert o first last c _ _ _) in *.
    cbn [o_evs o_panic o_node]. rewrite <- Htake in *.
    split_and!; [|done|].
    + intros p Hp. destruct (Hev p Hp) as (s & -> & Hs & Hafter).
      exists (k ++ s). rewrite app_assoc. split_and!; [done| |].
      * intros (c' & rest & s' & [= <- <-] & Heq%app_inv_head & Hd)%covers_ext_inv.
        subst. auto.
      * intros Hp'. apply covers_ext. auto.
    + intros Hp'. destruct (Hok Hp') as (Hwfr & Hcov & Hmono).
      split_and!.
      * by apply wf_ext.
      * rewrite <- (take_drop (length k) key), <- Htake. by apply covers_ext.
      * intros b s (c' & rest & s' & [= <- <-] & -> & Hd)%covers_ext_inv.
        apply covers_ext. auto.
  - (* the extension node is split *)
    assert (d < length k)%nat as Hlt by lia.
    destruct (Hdiff Hlt) as [Hdkey' Hne].
    change (mjoin (head (Some c :: replicate 15 None))) with (Some c).
    destruct (d <? length k - 1)%nat eqn:Hlast.
    + apply Nat.ltb_lt in Hlast.
      assert (wf (newExt (drop (S d) k) (Some c))) as Hwfn.
      { apply (wf_ext (drop (S d) k) [] c); [|done].
        intros Heq. apply (f_equal length) in Heq. rewrite length_drop in Heq.
        simpl in Heq. lia. }
      destruct (hash_spec o first last _ (path ++ take (S d) k) Hwfn)
        as (Hpan & Hwfr & Htyr & Hev & Hnd).
      set (r := hash o first last _ _) in *.
      cbv zeta. rewrite Hpan.
      apply (extFinish_spec d k v c key value path (o_node r) (o_evs r)); auto.
      intros p Hp. destruct (Hev p Hp) as (s & -> & Hs).
      exists s. rewrite <- app_assoc. split; [done|].
      intros (c' & rest & s' & [= <- <-] & Heq & Hd)%covers_ext_inv.
      apply Hs. rewrite <- (take_drop (S d) k) in Heq at 2.
      rewrite <- app_assoc in Heq. apply app_inv_head in Heq. subst.
      by apply (covers_ext false (drop (S d) k) [] c).
    + apply Nat.ltb_ge in Hlast.
      destruct (hash_spec o first last c (path ++ k) Hwfc)
        as (Hpan & Hwfr & Htyr & Hev & Hnd).
      set (r := hash o first last _ _) in *.
      cbv zeta. rewrite Hpan.
      apply (extFinish_spec d k v c key value path (o_node r) (o_evs r)); auto.
      intros p Hp. destruct (Hev p Hp) as (s & -> & Hs).
      rewrite take_ge by lia.
      exists s. rewrite <- app_assoc. split; [done|].
      intros (c' & rest & s' & [= <- <-] & Heq%app_inv_head & Hd)%covers_ext_inv.
      subst. auto.
Qed.

Lemma insert_branch_spec k v cs :
  length cs = 16%nat ->
  (forall i c, cs !! i = Some (Some c) -> wf c) ->
  Forall (onChild (insertSpec o first last)) cs ->
  (insertSpec o first last) (StNode branchNode k v cs).
Proof.
  intros Hlen Hwfcs IH key value path Hwf. cbn [insert].
  destruct key as [|k0 krest]; cbn [o_evs o_panic o_node].
  { split_and!; [|apply NoDup_nil_2|discriminate]. intros p Hp; inversion Hp. }
  set (idx := N.to_nat k0).
  destruct (decide (idx <= length cs)%nat) as [Hidx|Hidx].
  2: { rewrite unresolveElder_out_of_range by lia. cbn [o_evs o_panic o_node].
       split_and!; [|apply NoDup_nil_2|discriminate]. intros p Hp; inversion Hp. }
  destruct (elder_spec cs path idx Hidx Hwfcs)
    as (cs1 & evs1 & -> & Hlen1 & Hsame & Hwf1 & Hmono1 & Hev1 & Hnd1).
  assert (forall p, p ∈ writerPaths evs1 ->
            exists i s, (i < idx)%nat /\ p = path ++ N.of_nat i :: s /\
              ~ dead (StNode branchNode k v cs) (N.of_nat i :: s) /\
              exists c', cs1 !! i = Some (Some c') /\ dead c' s) as Hev1'.
  { intros p Hp. destruct (Hev1 p Hp) as (i & c & s & Hi & Hl & -> & Hs & Hafter).
    exists i, s. split_and!; auto.
    intros (i' & c' & s' & [= <- <-] & Hl' & Hd)%covers_branch_inv.
    rewrite Nat2N.id in Hl'. congruence. }
  rewrite insertSlot_lookup.
  destruct (cs !! idx) as [[child|]|] eqn:Hchild; cbn [o_evs o_panic o_node].
  - (* the slot holds a child *)
    assert ((insertSpec o first last) child) as IHc.
    { rewrite Forall_lookup in IH. apply (IH idx (Some child) Hchild). }
    destruct (IHc krest value (path ++ [k0]) (Hwfcs _ _ Hchild)) as (Hev & Hnd & Hok).
    set (r := insert o first last child krest value (path ++ [k0])) in *.
    assert (idx < length cs1)%nat as Hidx1.
    { rewrite Hlen1. eapply lookup_lt_Some; eauto. }
    rewrite writerPaths_app.
    split_and!.
    + intros p [Hp|Hp]%elem_of_app.
      * destruct (Hev1' p Hp) as (i & s & Hi & -> & Hs & c' & Hl' & Hd').
        exists (N.of_nat i :: s). split_and!; [done|done|].
        intros _. eapply covers_branch; [|exact Hd'].
        rewrite Nat2N.id, list_lookup_insert_ne by lia. done.
      * destruct (Hev p Hp) as (s & -> & Hs & Hafter).
        exists (k0 :: s). rewrite <- app_assoc. split_and!; [done| |].
        -- intros (i' & c' & s' & [= <- <-] & Hl' & Hd)%covers_branch_inv.
           fold idx in Hl'. congruence.
        -- intros Hp'. eapply covers_branch; [|exact (Hafter Hp')].
           fold idx. by rewrite list_lookup_insert_eq.
    + apply NoDup_app. split_and!; [done| |done].
      intros p Hp1 Hp2.
      destruct (Hev1' p Hp1) as (i & s & Hi & Heq1 & _).
      destruct (Hev p Hp2) as (s' & Heq & _).
      rewrite Heq1 in Heq. clear Heq1.
      rewrite <- app_assoc in Heq. apply app_inv_head in Heq.
      simpl in Heq. injection Heq as Heq _. subst idx. lia.
    + intros Hp'. destruct (Hok Hp') as (Hwfr & Hcov & Hmono).
      split_and!.
      * apply wf_branch; [by rewrite length_insert, Hlen1|].
        intros i c'. destruct (decide (i = idx)) as [->|].
        -- rewrite list_lookup_insert_eq by done. by intros [= <-].
        -- rewrite list_lookup_insert_ne by done. eauto.
      * eapply covers_branch; [|exact Hcov].
        fold idx. by rewrite list_lookup_insert_eq.
      * intros b s (i & c' & s' & -> & Hl' & Hd)%covers_branch_inv.
        destruct (decide (N.to_nat i = idx)) as [Heq|Hne].
        -- rewrite Heq in Hl'. assert (c' = child) as -> by congruence.
           eapply covers_branch; [|exact (Hmono _ _ Hd)].
           rewrite Heq. by rewrite list_lookup_insert_eq.
        -- destruct (Hmono1 b _ _ _ Hl' Hd) as (c'' & Hl'' & Hd'').
           eapply covers_branch; [|exact Hd''].
           by rewrite list_lookup_insert_ne.
  - (* the slot is empty: a new leaf *)
    assert (idx < length cs1)%nat as Hidx1.
    { rewrite Hlen1. eapply lookup_lt_Some; eauto. }
    rewrite app_nil_r.
    split_and!; [|done|].
    + intros p Hp.
      destruct (Hev1' p Hp) as (i & s & Hi & -> & Hs & c' & Hl' & Hd').
      exists (N.of_nat i :: s). split_and!; [done|done|].
      intros _. eapply covers_branch; [|exact Hd'].
      rewrite Nat2N.id, list_lookup_insert_ne by lia. done.
    + intros _. split_and!.
      * apply wf_branch; [by rewrite length_insert, Hlen1|].
        intros i c'. destruct (decide (i = idx)) as [->|].
        -- rewrite list_lookup_insert_eq by done. intros [= <-]. apply wf_leaf.
        -- rewrite list_lookup_insert_ne by done. eauto.
      * eapply covers_branch; [|by apply covers_leaf].
        fold idx. by rewrite list_lookup_insert_eq.
      * intros b s (i & c' & s' & -> & Hl' & Hd)%covers_branch_inv.
        assert (N.to_nat i <> idx) as Hne by (intros Heq; congruence).
        destruct (Hmono1 b _ _ _ Hl' Hd) as (c'' & Hl'' & Hd'').
        eapply covers_branch; [|exact Hd''].
        by rewrite list_lookup_insert_ne.
  - (* the nibble is not a slot *)
    split_and!; [|done|discriminate].
    intros p Hp.
    destruct (Hev1' p Hp) as (i & s & Hi & -> & Hs & _).
    exists (N.of_nat i :: s). split_and!; [done|done|discriminate].
Qed.

Lemma insert_spec st : (insertSpec o first last) st.
Proof.
  induction st as [ty k v cs IH] using stNode_ind.
  intros key value path Hwf.
  inversion Hwf as [| | |? ? c Hk Hc|? ? ? Hlen Hcs]; subst.
  - by apply insert_empty_spec.
  - by apply insert_leaf_spec.
  - by apply insert_hashed_spec.
  - apply Forall_cons_1 in IH as [IHc _]. by apply insert_ext_spec.
  - by apply insert_branch_spec.
Qed.
End InsertWf.

(** ** One lifetime of a trie *)

Lemma writerCalls_paths evs : (writerCalls evs).*1 = writerPaths evs.
Proof.
  unfold writerCalls, writerPaths.
  induction evs as [|[] evs IH]; simpl; auto. by f_equal.
Qed.

(** [TryUpdate] never returns an error, so [Update] never logs one. *)
Lemma Update_TryUpdate t k v : Update t k v = TryUpdate t k v.
Proof.
  unfold Update, TryUpdate.
  destruct (length v =? 0)%nat; [done|].
  cbn [r_outcome r_trie r_evs].
  destruct (o_panic _); reflexivity.
Qed.

Lemma closedInv_new o : closedInv (NewStackTrie o) [].
Proof.
  split_and!; [apply wf_empty| |apply NoDup_nil_2].
  intros p Hp. inversion Hp.
Qed.

Lemma closedInv_reset t : closedInv (Reset t) [].
Proof.
  split_and!; [apply wf_empty| |apply NoDup_nil_2].
  intros p Hp. inversion Hp.
Qed.

Lemma closedInv_step t tr op :
  closedInv t tr ->
  NoDup (writerPaths (tr ++ r_evs (step t op))) /\
  (forall e, r_outcome (step t op) = Returned e ->
             closedInv (r_trie (step t op)) (tr ++ r_evs (step t op))).
Proof.
  intros (Hwf & Hdead & Hnd).
  assert (forall evs (n' : stNode) (ok : Prop),
    (forall p, p ∈ writerPaths evs ->
       exists s, p = [] ++ s /\ ~ dead (root t) s /\ (ok -> dead n' s)) ->
    NoDup (writerPaths evs) ->
    (ok -> wf n' /\ forall s, dead (root t) s -> dead n' s) ->
    NoDup (writerPaths (tr ++ evs)) /\
    (ok -> wf n' /\ (forall p, p ∈ writerPaths (tr ++ evs) -> dead n' p) /\
           NoDup (writerPaths (tr ++ evs)))) as Hgen.
  { intros evs n' ok Hev Hnd' Hok.
    assert (NoDup (writerPaths (tr ++ evs))) as Hnd''.
    { rewrite writerPaths_app. apply NoDup_app. split_and!; [done| |done].
      intros p Hp1 Hp2. destruct (Hev p Hp2) as (s & -> & Hs & _).
      apply Hs. by apply Hdead. }
    split; [done|]. intros Hyes. destruct (Hok Hyes) as [Hwf' Hmono].
    split_and!; [done| |done].
    intros p. rewrite writerPaths_app. intros [Hp|Hp]%elem_of_app.
    - apply Hmono. by apply Hdead.
    - destruct (Hev p Hp) as (s & -> & _ & Hafter). by apply Hafter. }
  destruct op as [k v| |]; cbn [step].
  - (* Update *)
    rewrite Update_TryUpdate. unfold TryUpdate.
    destruct (length v =? 0)%nat; cbn [r_evs r_outcome r_trie].
    { rewrite app_nil_r. split; [done|]. discriminate. }
    set (r := insert _ _ _ _ _ _ _).
    destruct (insert_spec (options t) (boundary match first t with
                                                | Some f => Some f
                                                | None => Some (removelast (keybytesToHex k))
                                                end)
                (boundary (Some (removelast (keybytesToHex k))))
                (root t) (removelast (keybytesToHex k)) v [] Hwf) as (Hev & Hnd' & Hok).
    fold r in Hev, Hnd', Hok.
    destruct (Hgen (o_evs r) (o_node r) (o_panic r = None)) as [H1 H2]; auto.
    { intros Hp. destruct (Hok Hp) as (? & _ & Hmono). split; auto. }
    split; [done|]. intros e He. unfold closedInv. cbn [root].
    apply H2. destruct (o_panic r); [discriminate|done].
  - (* Hash *)
    unfold Hash. cbn [snd r_evs r_outcome r_trie].
    destruct (hash_spec (options t) (boundary (first t)) (boundary (last t))
                (root t) [] Hwf) as (Hpan & Hwf' & Hty & Hev & Hnd').
    set (r := hash _ _ _ _ _) in *.
    assert (forall s, dead (o_node r) s) as Hall.
    { intros s. destruct (o_node r); simpl in Hty; subst. constructor. }
    destruct (Hgen (o_evs r) (o_node r) True) as [H1 H2]; auto.
    { intros p Hp. destruct (Hev p Hp) as (s & -> & Hs). eauto. }
    split; [done|]. intros e He. unfold closedInv. cbn [root]. by apply H2.
  - (* Commit *)
    unfold Commit, Hash. cbn [snd r_evs r_outcome r_trie].
    destruct (hash_spec (options t) (boundary (first t)) (boundary (last t))
                (root t) [] Hwf) as (Hpan & Hwf' & Hty & Hev & Hnd').
    set (r := hash _ _ _ _ _) in *.
    assert (forall s, dead (o_node r) s) as Hall.
    { intros s. destruct (o_node r); simpl in Hty; subst. constructor. }
    destruct (Hgen (o_evs r) (o_node r) True) as [H1 H2]; auto.
    { intros p Hp. destruct (Hev p Hp) as (s & -> & Hs). eauto. }
    split; [done|]. intros e He. unfold closedInv. cbn [root]. by apply H2.
Qed.

Lemma closedInv_run ops : forall t tr,
  closedInv t tr ->
  NoDup (writerPaths (tr ++ r_evs (run t ops))) /\
  (forall e, r_outcome (run t ops) = Returned e ->
             closedInv (r_trie (run t ops)) (tr ++ r_evs (run t ops))).
Proof.
  induction ops as [|op ops IH]; intros t tr Hinv; cbn [run].
  - cbn [r_evs r_trie]. rewrite app_nil_r. split; [apply Hinv|done].
  - destruct (closedInv_step t tr op Hinv) as [Hnd Hnext].
    destruct (r_outcome (step t op)) as [e|p] eqn:Hout.
    + cbn [r_evs r_trie r_outcome]. rewrite app_assoc. apply IH. by eapply Hnext.
    + split; [done|]. rewrite Hout. discriminate.
Qed.

(** C8. Within one lifetime of a trie, from its construction or from a
    [Reset], over any sequence of [Update], [Hash] and [Commit] calls (the
    run ends at the first panic), no [(path, hash)] pair is handed to the
    writer twice; indeed no path is. *)
Theorem C8_writer_at_most_once (o : option StackTrieOptions) (t : StackTrie) (ops : list op) :
  NoDup (writerCalls (r_evs (run (NewStackTrie o) ops))) /\
  NoDup (writerPaths (r_evs (run (NewStackTrie o) ops))) /\
  NoDup (writerCalls (r_evs (run (Reset t) ops))) /\
  NoDup (writerPaths (r_evs (run (Reset t) ops))).
Proof.
  pose proof (proj1 (closedInv_run ops _ _ (closedInv_new o))) as H1.
  pose proof (proj1 (closedInv_run ops _ _ (closedInv_reset t))) as H2.
  cbn [app] in H1, H2.
  split_and!; auto.
  - apply (NoDup_fmap_1 fst). by rewrite writerCalls_paths.
  - apply (NoDup_fmap_1 fst). by rewrite writerCalls_paths.
Qed.

(** ** The public operations *)

Lemma updates_run kvs : forall t,
  updates t kvs = run t (map (fun kv => OpUpdate kv.1 kv.2) kvs).
Proof.
  induction kvs as [|[k v] kvs IH]; intros t; cbn [updates run map step fst snd]; [done|].
  destruct (r_outcome (Update t k v)); [|done]. by rewrite IH.
Qed.

(** A run of updates that returns leaves a well-formed root. *)
Lemma updates_wf o kvs e :
  r_outcome (updates (NewStackTrie o) kvs) = Returned e ->
  wf (root (r_trie (updates (NewStackTrie o) kvs))).
Proof.
  rewrite updates_run. intros He.
  by destruct (proj2 (closedInv_run _ _ _ (closedInv_new o)) e He) as [Hwf _].
Qed.

Lemma BytesToHash_32 b : length b = 32%nat -> BytesToHash b = b.
Proof. intros Hlen. unfold BytesToHash. rewrite Hlen. reflexivity. Qed.

Lemma hashData_length blob : length (hashData blob) = 32%nat.
Proof. unfold hashData, Keccak.keccak256. by rewrite length_map, length_seq. Qed.

(** Hashing a trie whose root is hashed returns the stored digest and does
    nothing. *)
Lemma Hash_hashed t :
  typ (root t) = hashedNode ->
  Hash t = (BytesToHash (val (root t)), Result t [] (Returned None)).
Proof.
  intros Hty. unfold Hash. rewrite hash_noop by done.
  cbn [o_node o_evs o_panic]. by destruct t.
Qed.

Lemma Hash_twice t :
  r_outcome (Hash t).2 = Returned None ->
  Hash (r_trie (Hash t).2) = ((Hash t).1, Result (r_trie (Hash t).2) [] (Returned None)).
Proof.
  unfold Hash at 1. cbn [snd r_outcome].
  destruct (o_panic (hash _ _ _ _ _)) eqn:Hpan; [discriminate|]. intros _.
  rewrite Hash_hashed.
  - unfold Hash. cbn [fst snd r_trie root]. done.
  - unfold Hash. cbn [snd r_trie root]. by apply hash_hashed.
Qed.

(** C1. On a trie on which no update has been performed (a new trie, or a
    trie after [Reset]), [Hash] returns the empty-root constant
    56e81f17...63b421, which is the Keccak-256 of the encoding of the empty
    string; the root becomes a hashed node holding these 32 bytes, and
    nothing is handed to the sink. *)
Theorem C1_empty_trie_hash (o : option StackTrieOptions) (t0 : StackTrie) :
  Hash (NewStackTrie o)
    = (emptyRoot,
       Result (mkStackTrie (default NewStackTrieOptions o)
                 (StNode hashedNode [] emptyRoot noChildren) None None)
         [] (Returned None)) /\
  Hash (Reset t0)
    = (emptyRoot,
       Result (mkStackTrie NewStackTrieOptions
                 (StNode hashedNode [] emptyRoot noChildren) None None)
         [] (Returned None)) /\
  emptyRoot = hashData (rlp_string []) /\
  length emptyRoot = 32%nat.
Proof.
  split_and!; [reflexivity|reflexivity|vm_compute; reflexivity|reflexivity].
Qed.


Lemma getDiffIndexFrom_same k : forall idx,
  getDiffIndexFrom idx k k = Some (idx + length k)%nat.
Proof.
  induction k as [|a k IH]; intros idx; simpl.
  - f_equal. lia.
  - rewrite N.eqb_refl, IH. f_equal. lia.
Qed.

Lemma TryUpdate_outcome t key value :
  r_outcome (TryUpdate t key value) = Returned None \/
  exists p, r_outcome (TryUpdate t key value) = Panicked p.
Proof.
  unfold TryUpdate. destruct (length value =? 0)%nat; cbn [r_outcome]; [eauto|].
  destruct (o_panic _); eauto.
Qed.

(** C10. [TryUpdate] either panics or returns the nil error: it never
    returns an error, and [Update], whose only other branch logs such an
    error, does exactly what [TryUpdate] does. The three explicit panics:
    an empty value, a leaf that holds the key already, a hashed node. *)
Theorem C10_TryUpdate_never_returns_error (t : StackTrie) (key value : list N) :
  (r_outcome (TryUpdate t key value) = Returned None \/
   exists p, r_outcome (TryUpdate t key value) = Panicked p) /\
  (forall err, r_outcome (TryUpdate t key value) <> Returned (Some err)) /\
  Update t key value = TryUpdate t key value /\
  r_outcome (TryUpdate t key []) = Panicked PanicDeletion /\
  (forall b k v cs,
     r_outcome (TryUpdate (mkStackTrie (options t)
                             (StNode leafNode (removelast (keybytesToHex key)) v cs)
                             (first t) (last t)) key (b :: value))
       = Panicked PanicExistingKey /\
     r_outcome (TryUpdate (mkStackTrie (options t) (StNode hashedNode k v cs)
                             (first t) (last t)) key (b :: value))
       = Panicked PanicInsertIntoHash).
Proof.
  pose proof (TryUpdate_outcome t key value) as H.
  split_and!; [done| |apply Update_TryUpdate|reflexivity|].
  - intros err Herr. destruct H as [H|[p H]]; congruence.
  - intros b k v cs. split.
    + unfold TryUpdate. cbn [length Nat.eqb r_outcome root insert].
      rewrite getDiffIndexFrom_same. cbn [Nat.add].
      rewrite Nat.leb_refl. reflexivity.
    + reflexivity.
Qed.

(** C9. After any sequence of updates that returned, a first [Hash] returns
    a digest, and a second [Hash] (or [Commit]) with no update in between
    returns the same digest, leaves the trie as it is and hands nothing to
    the sink: the root is a hashed node, on which [hash] does nothing. *)
Theorem C9_hash_idempotent (o : option StackTrieOptions) (kvs : list (list N * list N)) :
  r_outcome (updates (NewStackTrie o) kvs) = Returned None ->
  let t := r_trie (updates (NewStackTrie o) kvs) in
  let t1 := r_trie (Hash t).2 in
  r_outcome (Hash t).2 = Returned None /\
  typ (root t1) = hashedNode /\
  Hash t1 = ((Hash t).1, Result t1 [] (Returned None)) /\
  Commit t1 = ((Hash t).1, Result t1 [] (Returned None)) /\
  hash (options t1) (boundary (first t1)) (boundary (last t1)) (root t1) []
    = Out (root t1) [] None.
Proof.
  intros Hok t t1.
  pose proof (updates_wf o kvs None Hok) as Hwf. fold t in Hwf.
  destruct (hash_spec (options t) (boundary (first t)) (boundary (last t)) (root t) [] Hwf)
    as (Hpan & _ & Hty & _).
  assert (r_outcome (Hash t).2 = Returned None) as Hret.
  { unfold Hash. cbn [snd r_outcome]. by rewrite Hpan. }
  split_and!; [done|done| | |].
  - by apply Hash_twice.
  - by apply Hash_twice.
  - by apply hash_noop.
Qed.

Lemma C9_hash_idempotent_witness :
  r_outcome (updates (NewStackTrie (Some writerOptions)) sampleThree) = Returned None /\
  let t := r_trie (updates (NewStackTrie (Some writerOptions)) sampleThree) in
  Hash (r_trie (Hash t).2) = ((Hash t).1, Result (r_trie (Hash t).2) [] (Returned None)).
Proof.
  split; [vm_compute; reflexivity|].
  apply (C9_hash_idempotent (Some writerOptions) sampleThree). vm_compute; reflexivity.
Defined.

(** ** Every event comes from the end of a [hash]

    A property [Q path e] of the events of a node at [path] that holds of
    what the end of [hash] emits, and that is kept when [path] is
    shortened, holds of every event of [hash] and of [insert]. *)
Section EventInduction.
Variable o : StackTrieOptions.
Variables first last : list N.
Variable Q : list N -> event -> Prop.

Hypothesis Q_mono : forall path x e, Q (path ++ x) e -> Q path e.

Hypothesis Q_tail : forall st path blob internal e,
  internal = [] \/ (exists k, internal = internalPaths path k) ->
  e ∈ (hashTail o first last st path blob internal).2 -> Q path e.

Lemma hashChildren_events path cs :
  Forall (onChild (fun n => forall path e, e ∈ o_evs (hash o first last n path) -> Q path e)) cs ->
  forall i e, e ∈ (hashChildren (hash o first last) path cs i).1.2 -> Q path e.
Proof.
  induction 1 as [|c cs Hc Hcs IH]; intros i e; cbn [hashChildren].
  - cbn [fst snd]. intros He. inversion He.
  - specialize (IH (S i) e).
    destruct c as [c|].
    + destruct (o_panic (hash o first last c (path ++ [N.of_nat i]))).
      * cbn [fst snd]. intros He. eapply Q_mono, Hc, He.
      * destruct (hashChildren _ _ cs (S i)) as [[[refs cs'] evs] pan].
        cbn [fst snd] in *. intros [He|He]%elem_of_app; [|auto].
        eapply Q_mono, Hc, He.
    + destruct (hashChildren _ _ cs (S i)) as [[[refs cs'] evs] pan].
      cbn [fst snd] in *. auto.
Qed.

Lemma hash_events_ind st : forall path e,
  e ∈ o_evs (hash o first last st path) -> Q path e.
Proof.
  induction st as [ty k v cs IH] using stNode_ind.
  intros path e. rewrite hash_unfold.
  destruct ty; cbn [typ hashSwitch o_evs].
  - intros He. inversion He.
  - (* branch *)
    pose proof (hashChildren_events path cs IH 0%nat e) as Hch.
    destruct (hashChildren _ _ cs 0%nat) as [[[refs cs'] evs] [p|]]; cbn [fst snd o_evs] in *;
      [done|].
    destruct (hashTail _ _ _ _ _ _ _) as [st' evs'] eqn:Htail; cbn [o_evs].
    intros [He|He]%elem_of_app; [auto|].
    eapply (Q_tail _ _ _ []); [by left|]. by rewrite Htail.
  - (* extension *)
    destruct cs as [|[c|] rest]; cbn [o_evs]; try (intros He; by inversion He).
    apply Forall_cons_1 in IH as [IHc _]. cbn [onChild] in IHc.
    cbv zeta.
    destruct (o_panic (hash o first last c (path ++ k))); cbn [o_evs].
    + intros He. eapply Q_mono, IHc, He.
    + destruct (hashTail _ _ _ _ _ _ _) as [st' evs'] eqn:Htail; cbn [o_evs].
      intros [He|He]%elem_of_app; [eapply Q_mono, IHc, He|].
      eapply Q_tail; [|by rewrite Htail].
      destruct (_ && _); eauto.
  - (* leaf *)
    destruct (hashTail _ _ _ _ _ _ _) as [st' evs'] eqn:Htail; cbn [o_evs app].
    intros He. eapply (Q_tail _ _ _ []); [by left|]. by rewrite Htail.
  - intros He. inversion He.
Qed.

Lemma unresolveElder_events cs path : forall n e,
  e ∈ (unresolveElder o first last cs n path).1.2 -> Q path e.
Proof.
  induction n as [|n IH]; intros e; cbn [unresolveElder].
  - cbn [fst snd]. intros He. inversion He.
  - destruct (cs !! n) as [[c|]|]; [|by apply IH|cbn [fst snd]; intros He; inversion He].
    destruct (decide (typ c = hashedNode)); cbn [fst snd].
    + intros He. inversion He.
    + intros He. eapply Q_mono, hash_events_ind, He.
Qed.

Lemma insert_events_ind st : forall key value path e,
  e ∈ o_evs (insert o first last st key value path) -> Q path e.
Proof.
  induction st as [ty k v cs IH] using stNode_ind.
  intros key value path e.
  destruct ty; cbn [insert o_evs]; try (intros He; by inversion He).
  - (* branch *)
    destruct key as [|k0 krest]; cbn [o_evs]; [intros He; by inversion He|].
    pose proof (unresolveElder_events cs path (N.to_nat k0) e) as Hel.
    destruct (unresolveElder _ _ _ cs (N.to_nat k0) path) as [[cs1 evs1] [p|]];
      cbn [fst snd o_evs] in *; [done|].
    rewrite insertSlot_lookup.
    destruct (cs !! N.to_nat k0) as [[child|]|] eqn:Hl; cbn [o_evs]; [| |done].
    + rewrite Forall_lookup in IH. specialize (IH _ _ Hl). cbn [onChild] in IH.
      intros [He|He]%elem_of_app; [auto|]. eapply Q_mono, IH, He.
    + rewrite app_nil_r. done.
  - (* extension *)
    destruct (getDiffIndexFrom 0 k key) as [d|]; cbn [o_evs]; [|intros He; by inversion He].
    destruct (d =? length k)%nat.
    + destruct cs as [|[c|] rest]; cbn [o_evs]; try (intros He; by inversion He).
      apply Forall_cons_1 in IH as [IHc _]. cbn [onChild] in IHc.
      intros He. eapply Q_mono, IHc, He.
    + assert (forall st' path' e, e ∈ o_evs (hash o first last st' (path ++ path')) ->
                Q path e) as Hhash.
      { intros st' path' e' He. eapply Q_mono, hash_events_ind, He. }
      destruct (d <? length k - 1)%nat; [|destruct (mjoin (head cs))];
        cbv beta iota zeta.
      * specialize (Hhash (newExt (drop (S d) k) (mjoin (head cs))) (take (S d) k) e).
        destruct (o_panic _); cbn [o_evs]; [done|].
        repeat (destruct (setChild _ _ _); cbn [o_evs]); done.
      * specialize (Hhash s k e).
        destruct (o_panic _); cbn [o_evs]; [done|].
        repeat (destruct (setChild _ _ _); cbn [o_evs]); done.
      * cbn [o_evs]. intros He. inversion He.
  - (* leaf *)
    destruct (getDiffIndexFrom 0 k key) as [d|]; cbn [o_evs]; [|intros He; by inversion He].
    destruct (length k <=? d)%nat; cbn [o_evs]; [intros He; by inversion He|].
    destruct (setChild _ _ _); cbn [o_evs]; [|intros He; by inversion He].
    assert (e ∈ o_evs (hash o first last (newLeaf (drop (S d) k) v) (path ++ take (S d) k)) ->
            Q path e) as Hhash.
    { intros He. eapply Q_mono, hash_events_ind, He. }
    destruct (o_panic _); cbn [o_evs]; [done|].
    destruct (setChild _ _ _); cbn [o_evs]; done.
Qed.
End EventInduction.

(** ** Where the events of a node lie *)

Lemma elem_of_internalPaths q path k :
  q ∈ internalPaths path k <->
  exists i, (1 <= i < length k)%nat /\ q = path ++ take i k.
Proof.
  unfold internalPaths. rewrite list_elem_of_fmap. split.
  - intros (i & -> & Hi%elem_of_seq). exists i. split; [lia|done].
  - intros (i & Hi & ->). exists i. split; [done|]. apply elem_of_seq. lia.
Qed.

Lemma NoDup_internalPaths path k : NoDup (internalPaths path k).
Proof.
  unfold internalPaths. apply NoDup_fmap_2_strong; [|apply NoDup_seq].
  intros i j Hi%elem_of_seq Hj%elem_of_seq Heq%app_inv_head.
  apply (f_equal length) in Heq. rewrite !length_take in Heq. lia.
Qed.

Section BelowPath.
Variable o : StackTrieOptions.
Variables first last : list N.

Lemma hashTail_events st path blob internal :
  let evs := (hashTail o first last st path blob internal).2 in
  evs = [] \/ evs = [EvGaugeInc] \/
  evs = map EvCleaner internal ++ [EvWriter path (BytesToHash (hashData blob)) blob].
Proof.
  unfold hashTail, gaugeInc. repeat (case_match; cbn [snd]); auto.
Qed.

Lemma hash_belowPath st path e :
  e ∈ o_evs (hash o first last st path) -> belowPath path e.
Proof.
  apply hash_events_ind; clear.
  - intros path x [] He; cbn [belowPath] in *; auto.
    + destruct He as [s ->]. exists (x ++ s). by rewrite app_assoc.
    + destruct He as (s & -> & Hs). exists (x ++ s). rewrite app_assoc. split; [done|].
      destruct x; [done|discriminate].
  - intros st path blob internal e Hint.
    destruct (hashTail_events st path blob internal) as [-> | [-> | ->]].
    + intros He. inversion He.
    + intros ->%list_elem_of_singleton. exact I.
    + intros [He| ->%list_elem_of_singleton]%elem_of_app.
      * apply list_elem_of_fmap in He as (q & -> & Hq). cbn [belowPath].
        destruct Hint as [->|[k ->]]; [inversion Hq|].
        apply elem_of_internalPaths in Hq as (i & Hi & ->).
        exists (take i k). split; [done|].
        destruct k; simpl in *; [lia|]. destruct i; [lia|discriminate].
      * exists []. by rewrite app_nil_r.
Qed.

(** The events of the switch of [hash] are events of hashing a child, at
    the path of that child. *)
Lemma hashChildren_from_child path cs : forall i e,
  e ∈ (hashChildren (hash o first last) path cs i).1.2 ->
  exists c x, Some c ∈ cs /\ x <> [] /\ e ∈ o_evs (hash o first last c (path ++ x)).
Proof.
  induction cs as [|c cs IH]; intros i e; cbn [hashChildren].
  - cbn [fst snd]. intros He. inversion He.
  - specialize (IH (S i) e).
    assert (forall c', (exists c0 x, Some c0 ∈ cs /\ x <> [] /\
                          e ∈ o_evs (hash o first last c0 (path ++ x))) ->
              exists c0 x, Some c0 ∈ c' :: cs /\ x <> [] /\
                          e ∈ o_evs (hash o first last c0 (path ++ x))) as Hcons.
    { intros c' (c0 & x & ? & ? & ?). exists c0, x. split_and!; auto. by right. }
    destruct c as [c|].
    + assert (e ∈ o_evs (hash o first last c (path ++ [N.of_nat i])) ->
              exists c0 x, Some c0 ∈ Some c :: cs /\ x <> [] /\
                          e ∈ o_evs (hash o first last c0 (path ++ x))) as Hhere.
      { intros He. exists c, [N.of_nat i]. split_and!; [by left|done|done]. }
      destruct (o_panic (hash o first last c (path ++ [N.of_nat i]))).
      * cbn [fst snd]. auto.
      * destruct (hashChildren _ _ cs (S i)) as [[[refs cs'] evs] pan].
        cbn [fst snd] in *. intros [He|He]%elem_of_app; auto.
    + destruct (hashChildren _ _ cs (S i)) as [[[refs cs'] evs] pan].
      cbn [fst snd] in *. auto.
Qed.

Lemma hashSwitch_from_child st path st1 blob internal evs pan e :
  hashSwitch o (hash o first last) st path = (st1, blob, internal, evs, pan) ->
  e ∈ evs ->
  exists c x, Some c ∈ children st /\ (typ st = branchNode \/ x = key st) /\
              e ∈ o_evs (hash o first last c (path ++ x)).
Proof.
  destruct st as [ty k v cs]. destruct ty; cbn [hashSwitch children typ key].
  - intros [= <- <- <- <- <-] He; inversion He.
  - pose proof (hashChildren_from_child path cs 0%nat e) as Hch.
    destruct (hashChildren _ _ cs 0%nat) as [[[refs cs'] evs0] pan0]. cbn [fst snd] in Hch.
    intros [= <- <- <- <- <-] He.
    destruct (Hch He) as (c & x & ? & ? & ?). exists c, x. auto.
  - destruct cs as [|[c|] rest].
    + intros [= <- <- <- <- <-] He; inversion He.
    + cbv zeta.
      assert (e ∈ o_evs (hash o first last c (path ++ k)) ->
              exists c0 x, Some c0 ∈ Some c :: rest /\ (extNode = branchNode \/ x = k) /\
                           e ∈ o_evs (hash o first last c0 (path ++ x))) as Hhere.
      { intros He. exists c, k. split_and!; [by left|by right|done]. }
      destruct (o_panic _); intros [= <- <- <- <- <-]; done.
    + intros [= <- <- <- <- <-] He; inversion He.
  - intros [= <- <- <- <- <-] He; inversion He.
  - intros [= <- <- <- <- <-] He; inversion He.
Qed.
End BelowPath.

(** C3. A node hashed at a non-empty path (any node but the root) whose
    encoded blob is shorter than 32 bytes becomes a hashed node whose value
    is the blob, and nothing is emitted for it: the end of [hash] emits
    nothing, so the events of [hash] are those of the switch, which are
    events of hashing its children (none for a leaf). *)
Theorem C3_short_blob_kept_inline (o : StackTrieOptions) (first last : list N)
    (st : stNode) (path : list N) (st1 : stNode) (blob : list N)
    (internal : list (list N)) (evs : list event) :
  path <> [] ->
  typ st = branchNode \/ typ st = extNode \/ typ st = leafNode ->
  hashSwitch o (hash o first last) st path = (st1, blob, internal, evs, None) ->
  (length blob < 32)%nat ->
  hashTail o first last st1 path blob internal
    = (StNode hashedNode [] blob (children st1), []) /\
  hash o first last st path = Out (StNode hashedNode [] blob (children st1)) evs None /\
  (forall e, e ∈ evs ->
     exists c x, Some c ∈ children st /\ e ∈ o_evs (hash o first last c (path ++ x))) /\
  (typ st = leafNode -> evs = []).
Proof.
  intros Hpath Hty Hsw Hlen.
  assert (hashTail o first last st1 path blob internal
          = (StNode hashedNode [] blob (children st1), [])) as Htail.
  { unfold hashTail.
    destruct (Nat.ltb_spec (length blob) 32); [|lia].
    destruct (Nat.ltb_spec 0 (length path)); [done|].
    destruct path; simpl in *; [done|lia]. }
  split_and!; [done| | |].
  - rewrite hash_unfold.
    destruct Hty as [Hty|[Hty|Hty]]; rewrite Hty, Hsw, Htail; by rewrite app_nil_r.
  - intros e He.
    destruct (hashSwitch_from_child o first last st path _ _ _ _ _ e Hsw He)
      as (c & x & ? & _ & ?).
    eauto.
  - intros Hleaf. destruct st as [ty k v cs]. cbn [typ] in Hleaf. subst ty.
    cbn [hashSwitch] in Hsw. by injection Hsw as _ _ _ <-.
Qed.

Lemma C3_short_blob_kept_inline_witness :
  let st := newLeaf [0xa] [1] in
  let path := [1; 0] in
  let blob := [0xc2; 0x3a; 0x01] in
  hash NewStackTrieOptions [] [] st path
    = Out (StNode hashedNode [] blob noChildren) [] None.
Proof.
  intros st path blob.
  refine (proj1 (proj2 (C3_short_blob_kept_inline NewStackTrieOptions [] [] st path
                          st blob [] [] _ _ _ _))).
  - discriminate.
  - right; right; reflexivity.
  - reflexivity.
  - simpl; lia.
Defined.

(** ** The cleaner *)

Lemma filter_eq_absent (q : list N) l :
  q ∉ l -> filter (fun x => x = q) l = [].
Proof.
  induction l as [|a l IH]; [done|].
  intros Hq. rewrite filter_cons. rewrite decide_False.
  - apply IH. intros ?. apply Hq. by right.
  - intros ->. apply Hq. by left.
Qed.

Lemma filter_eq_once (q : list N) l :
  NoDup l -> q ∈ l -> length (filter (fun x => x = q) l) = 1%nat.
Proof.
  induction 1 as [|a l Ha Hnd IH]; [intros Hq; inversion Hq|].
  rewrite filter_cons. intros [->|Hq]%elem_of_cons.
  - rewrite decide_True by done. by rewrite filter_eq_absent.
  - rewrite decide_False; [by apply IH|]. intros ->. done.
Qed.

(** C5. An extension node with key [k] at [path], whose child hashed to a
    digest (a value of 32 bytes or more, not an inline encoding), with a
    cleaner configured, when it is handed to the writer: the events of its
    [hash] are those of the child, then one cleaner call for each internal
    path [path ++ k[..i]], [i] from 1 to [len k - 1], then the writer call
    for [path]. Each internal path is cleaned exactly once, and before the
    writer call. *)
Theorem C5_cleaner_before_writer (o : StackTrieOptions) (first last : list N)
    (k v : list N) (c : stNode) (rest : list (option stNode)) (path : list N) :
  let st := StNode extNode k v (Some c :: rest) in
  let rc := hash o first last c (path ++ k) in
  let r := hash o first last st path in
  Cleaner o = true ->
  k <> [] ->
  o_panic rc = None ->
  (32 <= length (val (o_node rc)))%nat ->
  path ∈ writerPaths (o_evs r) ->
  exists h blob,
    o_evs r = o_evs rc ++ map EvCleaner (internalPaths path k) ++ [EvWriter path h blob] /\
    internalPaths path k = map (fun i => path ++ take i k) (seq 1 (length k - 1)) /\
    cleanerPaths (o_evs r) = cleanerPaths (o_evs rc) ++ internalPaths path k /\
    (path ∉ writerPaths (o_evs rc)) /\
    forall q, q ∈ internalPaths path k ->
      length (filter (fun x => x = q) (cleanerPaths (o_evs r))) = 1%nat.
Proof.
  intros st rc r Hcl Hk Hpan Hlen Hw.
  assert (path ∉ writerPaths (o_evs rc)) as Hnot.
  { intros Hin. unfold writerPaths in Hin.
    apply list_elem_of_omap in Hin as (e & He & Heq).
    apply hash_belowPath in He. destruct e; try discriminate.
    injection Heq as ->. destruct He as [s Hs].
    rewrite <- app_assoc in Hs. rewrite <- (app_nil_r path) in Hs at 1.
    apply app_inv_head in Hs. destruct k; [done|discriminate]. }
  assert (forall q, q ∈ internalPaths path k -> q ∉ cleanerPaths (o_evs rc)) as Hdisj.
  { intros q (i & Hi & ->)%elem_of_internalPaths Hin. unfold cleanerPaths in Hin.
    apply list_elem_of_omap in Hin as (e & He & Heq).
    apply hash_belowPath in He. destruct e; try discriminate.
    injection Heq as ->. destruct He as (s & Hs & _).
    rewrite <- app_assoc in Hs. apply app_inv_head in Hs.
    apply (f_equal length) in Hs. rewrite length_app, length_take in Hs. lia. }
  subst r st. rewrite hash_unfold in Hw |- *. cbn [typ hashSwitch] in Hw |- *.
  cbv zeta in Hw |- *. fold rc in Hw |- *. rewrite Hpan in Hw |- *.
  rewrite (proj2 (Nat.leb_le _ _) Hlen), Hcl in Hw |- *. cbn [andb] in Hw |- *.
  set (blob := shortNode_encode _ _) in *.
  pose proof (hashTail_events o first last
                (StNode extNode k v (None :: rest)) path blob (internalPaths path k)) as Hev.
  destruct (hashTail _ _ _ _ _ _ _) as [st' evs']. cbn [snd o_evs] in *.
  rewrite writerPaths_app in Hw. apply elem_of_app in Hw as [Hw|Hw]; [done|].
  destruct Hev as [-> | [-> | ->]]; [inversion Hw|inversion Hw; subst; inversion H1|].
  exists (BytesToHash (hashData blob)), blob.
  assert (cleanerPaths (o_evs rc ++ map EvCleaner (internalPaths path k)
                          ++ [EvWriter path (BytesToHash (hashData blob)) blob])
          = cleanerPaths (o_evs rc) ++ internalPaths path k) as Hcp.
  { rewrite !cleanerPaths_app, cleanerPaths_cleaners. cbn. by rewrite app_nil_r. }
  split_and!; [done|done|done|done|].
  intros q Hq. rewrite Hcp, filter_app, length_app.
  rewrite filter_eq_absent by auto.
  rewrite filter_eq_once; [done|apply NoDup_internalPaths|done].
Qed.

Lemma C5_cleaner_before_writer_witness :
  let o := WithCleaner writerOptions in
  let st := StNode extNode [1; 0; 0] [] (Some sampleBranch :: replicate 15 None) in
  cleanerPaths (o_evs (hash o [] [] st []))
    = cleanerPaths (o_evs (hash o [] [] sampleBranch [1; 0; 0])) ++ [[1]; [1; 0]].
Proof.
  intros o st.
  destruct (C5_cleaner_before_writer o [] [] [1; 0; 0] [] sampleBranch (replicate 15 None) [])
    as (h & blob & _ & _ & Hcp & _).
  - reflexivity.
  - discriminate.
  - vm_compute; reflexivity.
  - vm_compute. lia.
  - vm_compute. do 2 right. left.
  - exact Hcp.
Defined.

(** ** Skipping the boundaries *)

Section Skip.
Variable o : StackTrieOptions.
Variables first last : list N.




End Skip.

Lemma writerPaths_elem p evs :
  p ∈ writerPaths evs <-> exists h b, EvWriter p h b ∈ evs.
Proof.
  unfold writerPaths. rewrite list_elem_of_omap. split.
  - intros (e & He & Heq). destruct e; try discriminate.
    injection Heq as ->. eauto.
  - intros (h & b & He). eauto.
Qed.



(** Facts about one step of a lifetime. *)
Lemma step_options t op : options (r_trie (step t op)) = options t.
Proof.
  destruct op as [k v| |]; cbn [step]; [|done|done].
  rewrite Update_TryUpdate. unfold TryUpdate. by destruct (length v =? 0)%nat.
Qed.

Lemma step_first_Some t op f :
  first t = Some f -> first (r_trie (step t op)) = Some f.
Proof.
  intros Hf. destruct op as [k v| |]; cbn [step]; [|done|done].
  rewrite Update_TryUpdate. unfold TryUpdate.
  destruct (length v =? 0)%nat; cbn [r_trie first]; by rewrite Hf.
Qed.

Lemma Hash_idle t :
  typ (root t) = emptyNode \/ typ (root t) = hashedNode ->
  r_evs (Hash t).2 = [] /\ r_outcome (Hash t).2 = Returned None /\
  typ (root (r_trie (Hash t).2)) = hashedNode /\
  first (r_trie (Hash t).2) = first t.
Proof.
  intros Hty. unfold Hash. cbn [snd r_evs r_outcome r_trie root first].
  rewrite hash_unfold.
  destruct Hty as [H|H]; rewrite H; cbn [o_evs o_panic o_node typ]; auto.
Qed.



Lemma run_options ops : forall t, options (r_trie (run t ops)) = options t.
Proof.
  induction ops as [|op ops IH]; intros t; cbn [run]; [done|].
  destruct (r_outcome (step t op)); cbn [r_trie].
  - by rewrite IH, step_options.
  - apply step_options.
Qed.

Lemma run_first_Some ops : forall t f,
  first t = Some f -> first (r_trie (run t ops)) = Some f.
Proof.
  induction ops as [|op ops IH]; intros t f Hf; cbn [run]; [done|].
  destruct (r_outcome (step t op)); cbn [r_trie].
  - apply IH. by apply step_first_Some.
  - by apply step_first_Some.
Qed.

Lemma run_first_None ops : forall t,
  first t = None ->
  typ (root t) = emptyNode \/ typ (root t) = hashedNode ->
  first (r_trie (run t ops)) = firstInserted ops.
Proof.
  induction ops as [|op ops IH]; intros t Hf Hty; cbn [run firstInserted]; [done|].
  destruct op as [k v| |]; cbn [step].
  - rewrite Update_TryUpdate. unfold TryUpdate.
    destruct (length v =? 0)%nat; cbn [r_outcome r_trie]; [done|].
    destruct (o_panic _); cbn [r_trie first].
    + by rewrite Hf.
    + apply run_first_Some. cbn [first]. by rewrite Hf.
  - destruct (Hash_idle t Hty) as (_ & -> & Hty' & Hf'). cbn [r_trie].
    apply IH; [congruence|auto].
  - unfold Commit. destruct (Hash_idle t Hty) as (_ & -> & Hty' & Hf'). cbn [r_trie].
    apply IH; [congruence|auto].
Qed.



(** ** The frontier *)

Lemma frontier_leaf_inv k v cs L : frontier (StNode leafNode k v cs) L -> L = k.
Proof. by inversion 1. Qed.

Lemma frontier_ext_inv k v cs L :
  frontier (StNode extNode k v cs) L ->
  exists c rest L', cs = Some c :: rest /\ L = k ++ L' /\ frontier c L'.
Proof. inversion 1; subst; eauto 10. Qed.

Lemma frontier_branch_inv k v cs L :
  frontier (StNode branchNode k v cs) L ->
  exists j c L', L = j :: L' /\ cs !! N.to_nat j = Some (Some c) /\ frontier c L' /\
    (forall i n, (i < N.to_nat j)%nat -> cs !! i = Some (Some n) -> typ n = hashedNode) /\
    (forall i n, (N.to_nat j < i)%nat -> cs !! i <> Some (Some n)).
Proof. inversion 1; subst; eauto 10. Qed.

Lemma frontier_eq n L L' : L = L' -> frontier n L' -> frontier n L.
Proof. by intros ->. Qed.

Lemma frontier_not_hashed n L : frontier n L -> typ n <> hashedNode.
Proof. by inversion 1. Qed.

Lemma frontier_not_empty n L : frontier n L -> typ n <> emptyNode.
Proof. by inversion 1. Qed.

(** *** The order of nibble paths *)

Lemma lexlt_app_same k a b : lexlt (k ++ a) (k ++ b) = lexlt a b.
Proof.
  induction k as [|x k IH]; [done|]. simpl.
  rewrite N.ltb_irrefl, N.eqb_refl. done.
Qed.

Lemma lexlt_first_diff a : forall b d,
  take d a = take d b ->
  (d < length a)%nat -> (d < length b)%nat ->
  nth d a 0 <> nth d b 0 ->
  lexlt a b = true ->
  nth d a 0 < nth d b 0.
Proof.
  induction a as [|x a IH]; intros [|y b] d Ht Ha Hb Hne Hlt; simpl in *; try lia.
  destruct d as [|d]; simpl in *.
  - apply orb_true_iff in Hlt as [Hlt|Hlt]; [by apply N.ltb_lt|].
    apply andb_true_iff in Hlt as [Heq%N.eqb_eq _]. done.
  - injection Ht as -> Ht.
    rewrite N.ltb_irrefl, N.eqb_refl in Hlt. simpl in Hlt.
    apply IH; auto; lia.
Qed.

Lemma hexKey_eq key : hexKey key = flat_map (fun b => [b / 16; b mod 16]) key.
Proof. unfold hexKey, keybytesToHex. apply removelast_last. Qed.

Lemma lexlt_hexKey a : forall b, lexlt a b = true -> lexlt (hexKey a) (hexKey b) = true.
Proof.
  setoid_rewrite hexKey_eq.
  induction a as [|x a IH]; intros [|y b]; simpl; try done.
  intros [Hlt%N.ltb_lt|[Heq%N.eqb_eq Hlt]%andb_true_iff]%orb_true_iff.
  - destruct (N.ltb_spec (x / 16) (y / 16)) as [|Hge]; [done|]. simpl.
    assert (x / 16 = y / 16) as Hq.
    { pose proof (N.Div0.div_le_mono x y 16 ltac:(lia)). lia. }
    rewrite Hq, N.eqb_refl. simpl.
    assert (x mod 16 < y mod 16) as Hm.
    { rewrite (N.div_mod x 16), (N.div_mod y 16) in Hlt by lia. lia. }
    apply N.ltb_lt in Hm. by rewrite Hm.
  - subst y. rewrite !N.ltb_irrefl, !N.eqb_refl. simpl. auto.
Qed.

(** *** The shape of a split *)

Lemma splitResult_frontier d kk v a b n rest value :
  a < b -> b < 16 -> typ n = hashedNode ->
  frontier (splitResult d (take d kk) v (splitChildren a b n (newLeaf rest value)))
    (take d kk ++ b :: rest).
Proof.
  intros Hab Hb Hty.
  assert (frontier (StNode branchNode (if (d =? 0)%nat then take d kk else [])
                      (if (d =? 0)%nat then v else [])
                      (splitChildren a b n (newLeaf rest value))) (b :: rest)) as Hbr.
  { eapply frontier_branch.
    - rewrite splitChildren_lookup by lia. by rewrite decide_True.
    - apply frontier_leaf.
    - intros i n' Hi. rewrite splitChildren_lookup by lia.
      rewrite decide_False by lia.
      destruct (decide (i = N.to_nat a)); [by intros [= <-]|].
      by destruct (decide (i < 16)%nat).
    - intros i n' Hi. rewrite splitChildren_lookup by lia.
      rewrite decide_False by lia. rewrite decide_False by lia.
      by destruct (decide (i < 16)%nat). }
  unfold splitResult. destruct (Nat.eqb_spec d 0) as [->|Hd].
  - by rewrite take_0.
  - by apply frontier_ext.
Qed.

Section Shapes.
Variable o : StackTrieOptions.
Variables first last : list N.

Lemma insert_leaf_shape k v key value path :
  o_panic (insert o first last (StNode leafNode k v noChildren) key value path) = None ->
  exists d n,
    getDiffIndexFrom 0 k key = Some d /\ (d < length k)%nat /\
    nth d k 0 < 16 /\ nth d key 0 < 16 /\ typ n = hashedNode /\
    o_node (insert o first last (StNode leafNode k v noChildren) key value path)
      = splitResult d (take d k) []
          (splitChildren (nth d k 0) (nth d key 0) n (newLeaf (drop (S d) key) value)).
Proof.
  cbn [insert].
  destruct (getDiffIndexFrom 0 k key) as [d|] eqn:Hd; cbn [o_panic]; [|discriminate].
  destruct (Nat.leb_spec (length k) d) as [Hge|Hlt]; cbn [o_panic]; [discriminate|].
  rewrite (splitBase_wf d noChildren) by auto.
  destruct (setChild noChildren (nth d k 0) _) as [pcs1|] eqn:Hs1;
    cbn [o_panic]; [|discriminate].
  apply setChild_Some in Hs1 as [Ha _].
  set (r := hash o first last (newLeaf (drop (S d) k) v) (path ++ take (S d) k)).
  destruct (o_panic r) eqn:Hpan; cbn [o_panic]; [discriminate|].
  destruct (setChild _ (nth d key 0) _) as [pcs2|] eqn:Hs2; cbn [o_panic o_node];
    [|discriminate].
  apply setChild_Some in Hs2 as [Hb ->]. intros _.
  exists d, (o_node r).
  split_and!; [done|done|done|done|by apply hash_hashed|by rewrite splitNode_wf by auto].
Qed.

Lemma insert_ext_shape k v c key value path :
  wf c ->
  o_panic (insert o first last (StNode extNode k v (Some c :: replicate 15 None))
             key value path) = None ->
  exists d,
    getDiffIndexFrom 0 k key = Some d /\
    ((d = length k /\
      o_panic (insert o first last c (drop d key) value (path ++ take d key)) = None /\
      o_node (insert o first last (StNode extNode k v (Some c :: replicate 15 None))
                key value path)
        = StNode extNode k v
            (Some (o_node (insert o first last c (drop d key) value (path ++ take d key)))
               :: replicate 15 None))
     \/
     ((d < length k)%nat /\ nth d k 0 < 16 /\ nth d key 0 < 16 /\
      exists n, typ n = hashedNode /\
        o_node (insert o first last (StNode extNode k v (Some c :: replicate 15 None))
                  key value path)
          = splitResult d (take d k) v
              (splitChildren (nth d k 0) (nth d key 0) n
                 (newLeaf (drop (S d) key) value)))).
Proof.
  intros Hwfc. cbn [insert].
  destruct (getDiffIndexFrom 0 k key) as [d|] eqn:Hd; cbn [o_panic]; [|discriminate].
  pose proof (getDiffIndex_spec _ _ _ Hd) as (Hdk & _).
  destruct (Nat.eqb_spec d (length k)) as [->|Hdne].
  - cbv zeta. cbn [o_panic o_node]. intros Hpan. exists (length k). split; [done|]. left. auto.
  - change (mjoin (head (Some c :: replicate 15 None))) with (Some c).
    assert (forall n evs,
      typ n = hashedNode ->
      o_panic (extFinish d (Some c :: replicate 15 None) k v key value n evs) = None ->
      nth d k 0 < 16 /\ nth d key 0 < 16 /\
      o_node (extFinish d (Some c :: replicate 15 None) k v key value n evs)
        = splitResult d (take d k) v
            (splitChildren (nth d k 0) (nth d key 0) n
               (newLeaf (drop (S d) key) value))) as Hfin.
    { intros n evs Hty. unfold extFinish.
      rewrite (splitBase_wf d (Some c :: replicate 15 None)) by eauto.
      destruct (setChild noChildren (nth d k 0) _) as [pcs1|] eqn:Hs1;
        cbn [o_panic]; [|discriminate].
      apply setChild_Some in Hs1 as [Ha ->].
      destruct (setChild _ (nth d key 0) _) as [pcs2|] eqn:Hs2; cbn [o_panic o_node];
        [|discriminate].
      apply setChild_Some in Hs2 as [Hb ->]. intros _.
      split_and!; [done|done|by rewrite splitNode_wf by eauto]. }
    intros Hpan. exists d. split; [done|]. right. split; [lia|].
    destruct (d <? length k - 1)%nat eqn:Hlast; cbv beta iota zeta in Hpan |- *.
    + set (r := hash o first last _ _) in *.
      destruct (o_panic r) eqn:Hp; [discriminate|].
      destruct (Hfin (o_node r) (o_evs r) (hash_hashed _ _ _ _ _ Hp) Hpan)
        as (Ha & Hb & Heq).
      split_and!; [done|done|]. exists (o_node r).
      split; [by apply hash_hashed|exact Heq].
    + set (r := hash o first last _ _) in *.
      destruct (o_panic r) eqn:Hp; [discriminate|].
      destruct (Hfin (o_node r) (o_evs r) (hash_hashed _ _ _ _ _ Hp) Hpan)
        as (Ha & Hb & Heq).
      split_and!; [done|done|]. exists (o_node r).
      split; [by apply hash_hashed|exact Heq].
Qed.
End Shapes.

(** *** [insert] moves the frontier to the new key *)
Section Frontier.
Variable o : StackTrieOptions.
Variables first last : list N.

Lemma insert_leaf_frontier k v : (frontierSpec o first last) (StNode leafNode k v noChildren).
Proof.
  intros L K value path Hwf ->%frontier_leaf_inv Hlt Hpan.
  destruct (insert_leaf_shape o first last k v K value path Hpan)
    as (d & n & Hd & Hdk & Ha & Hb & Hty & ->).
  apply getDiffIndex_spec in Hd as (_ & _ & Htake & Hdiff).
  destruct (Hdiff Hdk) as [HdK Hne].
  pose proof (lexlt_first_diff k K d Htake Hdk HdK Hne Hlt) as Hab.
  rewrite (split_at_nth K d HdK) at 3. rewrite <- Htake.
  by apply splitResult_frontier.
Qed.

Lemma insert_ext_frontier k v c :
  k <> [] -> wf c -> (frontierSpec o first last) c ->
  (frontierSpec o first last) (StNode extNode k v (Some c :: replicate 15 None)).
Proof.
  intros Hk Hwfc IH L K value path Hwf HL Hlt Hpan.
  apply frontier_ext_inv in HL as (c' & rest & L' & [= <- <-] & -> & HL').
  destruct (insert_ext_shape o first last k v c K value path Hwfc Hpan)
    as (d & Hd & [(-> & Hpanc & ->)|(Hdk & Ha & Hb & n & Hty & ->)]).
  - apply getDiffIndex_spec in Hd as (_ & HdK & Htake & _).
    rewrite take_ge in Htake by lia.
    assert (K = k ++ drop (length k) K) as HK.
    { rewrite Htake at 1. by rewrite take_drop. }
    apply (frontier_eq _ _ _ HK).
    apply frontier_ext. eapply IH; eauto.
    rewrite HK, lexlt_app_same in Hlt. done.
  - apply getDiffIndex_spec in Hd as (_ & _ & Htake & Hdiff).
    destruct (Hdiff Hdk) as [HdK Hne].
    assert (nth d k 0 < nth d K 0) as Hab.
    { rewrite <- (app_nth1 k L' 0 Hdk).
      apply lexlt_first_diff; auto.
      - by rewrite take_app_le by lia.
      - rewrite length_app. lia.
      - by rewrite app_nth1. }
    apply (frontier_eq _ _ (take d k ++ nth d K 0 :: drop (S d) K)).
    { rewrite Htake. by apply split_at_nth. }
    by apply splitResult_frontier.
Qed.

Lemma insert_branch_frontier k v cs :
  length cs = 16%nat ->
  (forall i c, cs !! i = Some (Some c) -> wf c) ->
  Forall (onChild (frontierSpec o first last)) cs ->
  (frontierSpec o first last) (StNode branchNode k v cs).
Proof.
  intros Hlen Hwfcs IH L K value path Hwf HL Hlt.
  apply frontier_branch_inv in HL as (j & c & L' & -> & Hj & Hc & Hleft & Hright).
  cbn [insert].
  destruct K as [|k0 krest]; [done|].
  set (idx := N.to_nat k0).
  destruct (decide (idx <= length cs)%nat) as [Hidx|Hidx].
  2: { by rewrite unresolveElder_out_of_range by lia. }
  assert (N.to_nat j < 16)%nat as Hj16.
  { rewrite <- Hlen. eapply lookup_lt_Some; eauto. }
  cbn [lexlt] in Hlt.
  apply orb_true_iff in Hlt as [Hlt%N.ltb_lt|[<-%N.eqb_eq Hlt]%andb_true_iff].
  - (* the new key leaves the frontier at this branch *)
    assert (N.to_nat j < idx)%nat as Hjidx by (subst idx; lia).
    assert (forall n, cs !! idx <> Some (Some n)) as Hnone.
    { intros n. apply Hright. lia. }
    destruct (unresolveElder_cases o first last cs path idx Hidx)
      as [[_ Hall]|[(i & c' & Hi & Hl & Hty & Hall & _)|(i & c' & Hi & Hl & Hty & Hall & ->)]].
    { rewrite Hall in Hj by done. discriminate. }
    { exfalso. destruct (Nat.lt_trichotomy i (N.to_nat j)) as [?|[->|?]].
      - rewrite Hall in Hj by lia. discriminate.
      - assert (c' = c) as -> by congruence. by apply frontier_not_hashed in Hc.
      - by eapply Hright. }
    assert (i = N.to_nat j) as ->.
    { destruct (Nat.lt_trichotomy i (N.to_nat j)) as [?|[->|?]]; [|done|].
      - rewrite Hall in Hj by lia. discriminate.
      - exfalso. by eapply Hright. }
    assert (c' = c) as -> by congruence.
    cbv zeta.
    set (r := hash o first last c _).
    destruct (o_panic r) eqn:Hp; cbn [o_panic]; [discriminate|].
    rewrite insertSlot_lookup.
    destruct (cs !! idx) as [[child|]|] eqn:Hchild; cbn [o_panic o_node];
      [by destruct (Hnone child)| |discriminate].
    intros _.
    assert (idx < 16)%nat as Hidx16.
    { rewrite <- Hlen. eapply lookup_lt_Some; eauto. }
    eapply frontier_branch.
    + fold idx. rewrite list_lookup_insert_eq; [done|]. rewrite length_insert. lia.
    + apply frontier_leaf.
    + fold idx. intros i n Hi'. rewrite list_lookup_insert_ne by lia.
      destruct (decide (i = N.to_nat j)) as [->|Hne].
      * rewrite list_lookup_insert_eq by lia. intros [= <-]. by apply hash_hashed.
      * rewrite list_lookup_insert_ne by done. intros Hl'.
        destruct (decide (i < N.to_nat j)%nat); [by eapply Hleft|].
        exfalso. eapply (Hright i); [lia|done].
    + fold idx. intros i n Hi'. rewrite !list_lookup_insert_ne by lia.
      apply Hright. lia.
  - (* the new key stays on the frontier *)
    fold idx in Hj, Hleft, Hright.
    assert (unresolveElder o first last cs idx path = (cs, [], None)) as ->.
    { destruct (unresolveElder_cases o first last cs path idx Hidx)
        as [[Heq _]|[(i & c' & _ & _ & _ & _ & Heq)|(i & c' & Hi & Hl & Hty & _)]];
        [done|done|].
      exfalso. apply Hty. by eapply Hleft. }
    rewrite insertSlot_lookup, Hj. cbn [o_panic o_node app].
    intros Hpan.
    assert ((frontierSpec o first last) c) as IHc.
    { rewrite Forall_lookup in IH. apply (IH idx (Some c) Hj). }
    eapply frontier_branch.
    + fold idx. rewrite list_lookup_insert_eq; [done|]. lia.
    + eapply IHc; eauto.
    + fold idx. intros i n Hi. rewrite list_lookup_insert_ne by lia. by apply Hleft.
    + fold idx. intros i n Hi. rewrite list_lookup_insert_ne by lia. by apply Hright.
Qed.

Lemma insert_frontier st : (frontierSpec o first last) st.
Proof.
  induction st as [ty k v cs IH] using stNode_ind.
  intros L K value path Hwf.
  inversion Hwf as [| | |? ? c Hk Hc|? ? ? Hlen Hcs]; subst.
  - intros HL. by apply frontier_not_empty in HL.
  - by apply insert_leaf_frontier.
  - intros HL. by apply frontier_not_hashed in HL.
  - apply Forall_cons_1 in IH as [IHc _]. by apply insert_ext_frontier.
  - by apply insert_branch_frontier.
Qed.
End Frontier.

(** ** Strictly increasing updates *)

Lemma strictlyIncreasing_chain keys : strictlyIncreasing keys = chain None keys.
Proof.
  destruct keys as [|k keys]; [done|]. cbn [chain andb].
  revert k. induction keys as [|k' keys IH]; intros k; [done|].
  change (strictlyIncreasing (k :: k' :: keys))
    with (lexlt k k' && strictlyIncreasing (k' :: keys)).
  by rewrite IH.
Qed.

Lemma chain_app prev l1 l2 :
  chain prev (l1 ++ l2) = chain prev l1 && chain (lastKey prev l1) l2.
Proof.
  revert prev. induction l1 as [|k l1 IH]; intros prev; cbn [chain app lastKey fold_left].
  - done.
  - rewrite IH. unfold lastKey. by rewrite andb_assoc.
Qed.

Lemma Update_trieInv t prev k v :
  trieInv t prev ->
  match prev with
  | None => True
  | Some p => lexlt p k = true
  end ->
  r_outcome (Update t k v) = Returned None ->
  trieInv (r_trie (Update t k v)) (Some k).
Proof.
  intros (Hwf & Hlast & Hfr) Hlt.
  rewrite Update_TryUpdate. unfold TryUpdate.
  destruct (length v =? 0)%nat; cbn [r_outcome r_trie]; [discriminate|].
  fold (hexKey k).
  set (f := boundary _). set (l := boundary _).
  destruct (o_panic (insert (options t) f l (root t) (hexKey k) v [])) eqn:Hpan;
    [discriminate|]. intros _.
  destruct (insert_spec (options t) f l (root t) (hexKey k) v [] Hwf) as (_ & _ & Hok).
  destruct (Hok Hpan) as (Hwf' & _ & _).
  split_and!; [done|done|]. cbn [root].
  destruct prev as [p|].
  - eapply insert_frontier; eauto. by apply lexlt_hexKey.
  - destruct (root t) as [ty k0 v0 cs]. cbn [typ] in Hfr. subst ty.
    cbn [insert o_node]. apply frontier_leaf.
Qed.

Lemma updates_trieInv kvs : forall t prev,
  trieInv t prev ->
  chain prev kvs.*1 = true ->
  r_outcome (updates t kvs) = Returned None ->
  trieInv (r_trie (updates t kvs)) (lastKey prev kvs.*1).
Proof.
  induction kvs as [|[k v] kvs IH]; intros t prev Hinv Hch; cbn [updates]; [done|].
  cbn [fmap list_fmap fst chain] in Hch.
  apply andb_true_iff in Hch as [Hlt Hch].
  destruct (r_outcome (Update t k v)) as [[e|]|p] eqn:Hout; cbn [r_outcome r_trie].
  - exfalso. rewrite Update_TryUpdate in Hout.
    destruct (TryUpdate_outcome t k v) as [H|[p H]]; congruence.
  - intros Hrest. apply (IH _ (Some k)); [|done|done].
    apply (Update_trieInv t prev); [done| |done].
    by destruct prev.
  - rewrite Hout. discriminate.
Qed.

Lemma updates_take_trieInv (o : option StackTrieOptions)
    (kvs : list (list N * list N)) (n : nat) (k v : list N) :
  strictlyIncreasing kvs.*1 = true ->
  kvs !! n = Some (k, v) ->
  r_outcome (updates (NewStackTrie o) (take (S n) kvs)) = Returned None ->
  trieInv (r_trie (updates (NewStackTrie o) (take (S n) kvs))) (Some k).
Proof.
  intros Hinc Hn Hok.
  assert (take (S n) kvs = take n kvs ++ [(k, v)]) as Htake by by apply take_S_r.
  assert (chain None (take (S n) kvs).*1 = true) as Hch.
  { rewrite strictlyIncreasing_chain in Hinc.
    rewrite <- (take_drop (S n) kvs), fmap_app, chain_app in Hinc.
    by apply andb_true_iff in Hinc as [? _]. }
  assert (trieInv (NewStackTrie o) None) as Hinv.
  { split_and!; [apply wf_empty|done|done]. }
  pose proof (updates_trieInv _ _ _ Hinv Hch Hok) as Hend.
  assert (lastKey None (take (S n) kvs).*1 = Some k) as Hk.
  { rewrite Htake, fmap_app. unfold lastKey. by rewrite fold_left_app. }
  by rewrite Hk in Hend.
Qed.

(** C2. For every sequence of updates with strictly increasing keys, after
    each update that returned (the [n+1]-th, with key [k]), the nodes of
    the trie that are not hashed are the nodes on the descent from the root
    along the nibble path of [k], down to its leaf; on the way, every
    sibling to the left is a hashed node and there is no sibling to the
    right. The root is well formed, so a hashed node has no children. *)
Theorem C2_frontier_invariant (o : option StackTrieOptions)
    (kvs : list (list N * list N)) (n : nat) (k v : list N) :
  strictlyIncreasing kvs.*1 = true ->
  kvs !! n = Some (k, v) ->
  r_outcome (updates (NewStackTrie o) (take (S n) kvs)) = Returned None ->
  let t := r_trie (updates (NewStackTrie o) (take (S n) kvs)) in
  frontier (root t) (hexKey k) /\ wf (root t) /\ last t = Some (hexKey k).
Proof.
  intros Hinc Hn Hok t.
  destruct (updates_take_trieInv o kvs n k v Hinc Hn Hok) as (Hwf & Hlast & Hfr).
  fold t in Hwf, Hlast, Hfr. cbn [fmap option_fmap option_map] in Hlast.
  split_and!; [exact Hfr|exact Hwf|exact Hlast].
Qed.

Lemma C2_frontier_invariant_witness :
  frontier (root (r_trie (updates (NewStackTrie (Some writerOptions)) (take 3 sampleFour))))
    [1; 0; 2; 0].
Proof.
  refine (proj1 (C2_frontier_invariant (Some writerOptions) sampleFour 2 [0x10; 0x20] [3]
                   _ _ _)).
  - reflexivity.
  - reflexivity.
  - vm_compute; reflexivity.
Defined.

(** ** Inserting into an existing key *)

Lemma getDiffIndexFrom_prefix k : forall idx rest,
  getDiffIndexFrom idx k (k ++ rest) = Some (idx + length k)%nat.
Proof.
  induction k as [|a k IH]; intros idx rest; simpl.
  - f_equal. lia.
  - rewrite N.eqb_refl, IH. f_equal. lia.
Qed.

(** The index is not inside the key of the leaf when that key is a prefix
    of what is left of the new key, and only then. *)
Lemma existingKey_prefix k v cs rem :
  existingKey (StNode leafNode k v cs) rem <-> k `prefix_of` rem.
Proof.
  unfold existingKey, getDiffIndex. cbn [typ key]. split.
  - intros (_ & d & Hd & Hlen).
    apply getDiffIndex_spec in Hd as (Hdk & _ & Htake & _).
    assert (d = length k) as -> by lia.
    rewrite take_ge in Htake by lia.
    exists (drop (length k) rem). rewrite Htake at 1. by rewrite take_drop.
  - intros [rest ->]. split; [done|]. exists (length k).
    by rewrite getDiffIndexFrom_prefix.
Qed.

Section Existing.
Variable o : StackTrieOptions.
Variables first last : list N.

Lemma insert_ext_existing k v c :
  k <> [] -> wf c -> (existingSpec o first last) c ->
  (existingSpec o first last) (StNode extNode k v (Some c :: replicate 15 None)).
Proof.
  intros Hk Hc IHc key value path Hwf. cbn [insert].
  destruct (getDiffIndexFrom 0 k key) as [d|] eqn:Hd; cbn [o_panic]; [|discriminate].
  destruct (Nat.eqb_spec d (length k)) as [->|Hdne].
  - cbn [o_panic]. intros Hpan.
    destruct (IHc _ _ _ Hc Hpan) as (n & rem & Hr & He).
    exists n, rem. split; [|done]. by apply reaches_ext.
  - change (mjoin (head (Some c :: replicate 15 None))) with (Some c).
    pose proof (getDiffIndex_spec _ _ _ Hd) as (Hdk & _).
    assert (forall n evs,
      o_panic (extFinish d (Some c :: replicate 15 None) k v key value n evs)
        <> Some PanicExistingKey) as Hfin.
    { intros n evs. unfold extFinish.
      repeat (destruct (setChild _ _ _); cbn [o_panic]); discriminate. }
    destruct (d <? length k - 1)%nat eqn:Hlast; cbv beta iota zeta.
    + destruct (hash_spec o first last (newExt (drop (S d) k) (Some c))
                  (path ++ take (S d) k)) as (-> & _).
      { apply (wf_ext (drop (S d) k) [] c); [|done].
        apply Nat.ltb_lt in Hlast.
        intros Heq. apply (f_equal length) in Heq. rewrite length_drop in Heq.
        simpl in Heq. lia. }
      intros Hpan. by apply Hfin in Hpan.
    + destruct (hash_spec o first last c (path ++ k) Hc) as (-> & _).
      intros Hpan. by apply Hfin in Hpan.
Qed.

Lemma insert_existing_reaches st : (existingSpec o first last) st.
Proof.
  induction st as [ty k v cs IH] using stNode_ind.
  intros key value path Hwf.
  inversion Hwf as [| | |? ? c Hk Hc|? ? ? Hlen Hcs]; subst.
  - discriminate.
  - (* leaf *)
    cbn [insert].
    destruct (getDiffIndexFrom 0 k key) as [d|] eqn:Hd; cbn [o_panic]; [|discriminate].
    destruct (Nat.leb_spec (length k) d) as [Hge|Hlt]; cbn [o_panic].
    + intros _. exists (StNode leafNode k v noChildren), key.
      split; [apply reaches_here|]. split; [done|]. exists d. by split.
    + destruct (setChild _ _ _); cbn [o_panic]; [|discriminate].
      destruct (hash_spec o first last (newLeaf (drop (S d) k) v) (path ++ take (S d) k)
                  (wf_leaf _ _)) as (-> & _).
      destruct (setChild _ _ _); cbn [o_panic]; discriminate.
  - discriminate.
  - (* extension *)
    apply Forall_cons_1 in IH as [IHc _]. by apply insert_ext_existing.
  - (* branch *)
    cbn [insert].
    destruct key as [|k0 krest]; cbn [o_panic]; [discriminate|].
    set (idx := N.to_nat k0).
    destruct (decide (idx <= length cs)%nat) as [Hidx|Hidx].
    2: { by rewrite unresolveElder_out_of_range by lia. }
    destruct (elder_spec o first last cs path idx Hidx Hcs) as (cs1 & evs1 & -> & _).
    rewrite insertSlot_lookup.
    destruct (cs !! idx) as [[child|]|] eqn:Hchild; cbn [o_panic]; [|discriminate..].
    intros Hpan.
    rewrite Forall_lookup in IH. specialize (IH _ _ Hchild). cbn [onChild] in IH.
    destruct (IH _ _ _ (Hcs _ _ Hchild) Hpan) as (n & rem & Hr & He).
    exists n, rem. split; [|done]. by eapply reaches_branch.
Qed.

Lemma reaches_insert_existing st key n rem :
  reaches st key n rem ->
  forall value path,
    wf st -> existingKey n rem ->
    o_panic (insert o first last st key value path) = Some PanicExistingKey.
Proof.
  induction 1 as [st kk|k v cs k0 krest c n rem Hl Hr IH|k v c rest kk n rem Hd Hr IH];
    intros value path Hwf He.
  - destruct He as (Hty & d & Hd & Hlen). destruct st as [ty k v cs].
    cbn [typ key] in *. subst ty. unfold getDiffIndex in Hd. cbn [key] in Hd.
    cbn [insert]. rewrite Hd.
    destruct (Nat.leb_spec (length k) d); [done|lia].
  - inversion Hwf as [| | | |? ? ? Hlen Hcs]; subst. cbn [insert].
    assert (N.to_nat k0 < length cs)%nat as Hidx by (eapply lookup_lt_Some; eauto).
    destruct (elder_spec o first last cs path (N.to_nat k0)) as (cs1 & evs1 & -> & _);
      [lia|done|].
    rewrite insertSlot_lookup, Hl. cbn [o_panic]. eauto.
  - inversion Hwf as [| | |? ? ? Hk Hc|]; subst. cbn [insert].
    rewrite Hd, Nat.eqb_refl. cbn [o_panic]. eauto.
Qed.

Lemma insert_covered st : (coveredSpec o first last) st.
Proof.
  induction st as [ty k v cs IH] using stNode_ind.
  intros K L value path Hcov Hfr.
  destruct ty.
  - by apply covers_empty_inv in Hcov.
  - (* branch *)
    apply covers_branch_inv in Hcov as (i & c & K' & -> & Hi & Hc).
    apply frontier_branch_inv in Hfr as (j & cj & L' & -> & Hj & Hcj & Hleft & Hright).
    cbn [insert].
    assert (N.to_nat i <= N.to_nat j)%nat as Hij.
    { destruct (decide (N.to_nat i <= N.to_nat j)%nat); [done|].
      exfalso. eapply (Hright (N.to_nat i)); [lia|done]. }
    assert (N.to_nat i < length cs)%nat as Hilen by (eapply lookup_lt_Some; eauto).
    assert (unresolveElder o first last cs (N.to_nat i) path = (cs, [], None)) as ->.
    { destruct (unresolveElder_cases o first last cs path (N.to_nat i))
        as [[Heq _]|[(i' & c' & _ & _ & _ & _ & Heq)|(i' & c' & Hi' & Hl & Hty & _)]];
        [lia|done|done|].
      exfalso. apply Hty. eapply Hleft; [|done]. lia. }
    rewrite insertSlot_lookup, Hi. cbn [o_node o_evs o_panic app].
    destruct (decide (N.to_nat i = N.to_nat j)) as [Heq|Hne].
    + assert (i = j) as -> by lia.
      assert (c = cj) as -> by congruence.
      rewrite Forall_lookup in IH. specialize (IH _ _ Hj). cbn [onChild] in IH.
      rewrite (IH K' L' value (path ++ [j]) Hc Hcj). cbn [o_node o_evs o_panic].
      rewrite list_insert_id by done.
      f_equal. destruct (decide (K' = L')) as [->|Hne]; [by rewrite decide_True|].
      rewrite decide_False; [done|]. by intros [= ->].
    + assert (typ c = hashedNode) as Hty by (eapply Hleft; [|done]; lia).
      destruct c as [ty kc vc csc]. cbn [typ] in Hty. subst ty.
      cbn [insert o_node o_evs o_panic].
      rewrite list_insert_id by done.
      f_equal. rewrite decide_False; [done|]. intros [= -> _]. done.
  - (* extension *)
    apply covers_ext_inv in Hcov as (c & rest & K' & -> & -> & Hc).
    apply frontier_ext_inv in Hfr as (c' & rest' & L' & [= <- <-] & -> & Hc').
    cbn [insert]. rewrite getDiffIndexFrom_prefix. cbn [Nat.add].
    rewrite Nat.eqb_refl.
    apply Forall_cons_1 in IH as [IHc _]. cbn [onChild] in IHc.
    rewrite drop_app_length.
    rewrite (IHc K' L' value _ Hc Hc'). cbn [o_node o_evs o_panic].
    f_equal. destruct (decide (K' = L')) as [->|Hne]; [by rewrite decide_True|].
    rewrite decide_False; [done|]. by intros Heq%app_inv_head.
  - (* leaf *)
    apply covers_leaf_inv in Hcov as [_ ->].
    apply frontier_leaf_inv in Hfr as ->.
    cbn [insert]. rewrite getDiffIndexFrom_same. cbn [Nat.add].
    rewrite Nat.leb_refl. by rewrite decide_True.
  - by apply frontier_not_hashed in Hfr.
Qed.
End Existing.

(** *** Re-inserting after strictly increasing updates *)

Lemma hexKey_inj a : forall b, hexKey a = hexKey b -> a = b.
Proof.
  setoid_rewrite hexKey_eq.
  induction a as [|x a IH]; intros [|y b]; simpl; try done.
  intros [= Hq Hm Hrest]. f_equal; [|by apply IH].
  rewrite (N.div_mod x 16), (N.div_mod y 16) by lia. lia.
Qed.

Lemma Update_covers t k v :
  wf (root t) ->
  r_outcome (Update t k v) = Returned None ->
  wf (root (r_trie (Update t k v))) /\
  covers true (root (r_trie (Update t k v))) (hexKey k) /\
  forall s, covers true (root t) s -> covers true (root (r_trie (Update t k v))) s.
Proof.
  intros Hwf. rewrite Update_TryUpdate. unfold TryUpdate.
  destruct (length v =? 0)%nat; cbn [r_outcome r_trie root]; [discriminate|].
  fold (hexKey k). set (f := boundary _). set (l := boundary _).
  destruct (o_panic (insert (options t) f l (root t) (hexKey k) v [])) eqn:Hpan;
    [discriminate|]. intros _.
  destruct (insert_spec (options t) f l (root t) (hexKey k) v [] Hwf) as (_ & _ & Hok).
  destruct (Hok Hpan) as (Hwf' & Hcov & Hmono). auto.
Qed.

Lemma updates_covers kvs : forall t (Ks : list (list N)),
  wf (root t) ->
  (forall k, k ∈ Ks -> covers true (root t) (hexKey k)) ->
  r_outcome (updates t kvs) = Returned None ->
  forall k, k ∈ Ks ++ kvs.*1 -> covers true (root (r_trie (updates t kvs))) (hexKey k).
Proof.
  induction kvs as [|[k v] kvs IH]; intros t Ks Hwf HKs; cbn [updates].
  - intros _ k'. rewrite app_nil_r. apply HKs.
  - destruct (r_outcome (Update t k v)) as [[e|]|p] eqn:Hout; cbn [r_outcome r_trie].
    + exfalso. rewrite Update_TryUpdate in Hout.
      destruct (TryUpdate_outcome t k v) as [H|[p H]]; congruence.
    + destruct (Update_covers t k v Hwf Hout) as (Hwf' & Hcov & Hmono).
      intros Hrest k' Hk'.
      apply (IH _ (Ks ++ [k])); [done| |done|].
      * intros k'' [?| ->%list_elem_of_singleton]%elem_of_app; auto.
      * by rewrite <- app_assoc.
    + rewrite Hout. discriminate.
Qed.

(** C6, as amended. [insert] panics for an existing key exactly when its
    descent reaches a leaf whose key is a prefix of what is left of the new
    key (the index of the first difference is not inside the key of the
    leaf), which includes the leaf whose key equals it. After updates with
    strictly increasing keys that returned, an update with a key that was
    inserted already fails: with the existing-key panic when the key is the
    last one inserted, at a hashed node otherwise; the failing call leaves
    the nodes as they are and hands nothing to the sink. *)
Theorem C6_existing_key (o : StackTrieOptions) (f l : list N) (st : stNode)
    (key value path : list N)
    (oo : option StackTrieOptions) (kvs : list (list N * list N))
    (n : nat) (k v : list N) (b : N) (value' kl vl : list N) :
  (wf st ->
   (o_panic (insert o f l st key value path) = Some PanicExistingKey <->
    exists leaf rem, reaches st key leaf rem /\ existingKey leaf rem)) /\
  (forall lk lv lcs rem,
     existingKey (StNode leafNode lk lv lcs) rem <-> lk `prefix_of` rem) /\
  (strictlyIncreasing kvs.*1 = true ->
   r_outcome (updates (NewStackTrie oo) kvs) = Returned None ->
   kvs !! n = Some (k, v) ->
   kvs !! (length kvs - 1)%nat = Some (kl, vl) ->
   let t := r_trie (updates (NewStackTrie oo) kvs) in
   Update t k (b :: value')
     = Result (mkStackTrie (options t) (root t) (first t) (Some (hexKey k))) []
         (Panicked (if decide (k = kl) then PanicExistingKey else PanicInsertIntoHash))).
Proof.
  split_and!.
  - intros Hwf. split.
    + by apply insert_existing_reaches.
    + intros (leaf & rem & Hr & He). by eapply reaches_insert_existing.
  - intros. apply existingKey_prefix.
  - intros Hinc Hok Hn Hl t.
    assert (length kvs <> 0)%nat as Hlen.
    { apply lookup_lt_Some in Hn. lia. }
    (* the frontier runs to the last key *)
    assert (frontier (root t) (hexKey kl)) as Hfr.
    { destruct (updates_take_trieInv oo kvs (length kvs - 1) kl vl Hinc Hl) as (_ & _ & H).
      - replace (S (length kvs - 1)) with (length kvs) by lia. by rewrite take_ge.
      - replace (S (length kvs - 1)) with (length kvs) in H by lia.
        by rewrite take_ge in H. }
    (* the key is covered *)
    assert (covers true (root t) (hexKey k)) as Hcov.
    { apply (updates_covers kvs (NewStackTrie oo) []); [apply wf_empty| |done|].
      - intros k' Hk'. inversion Hk'.
      - cbn [app]. apply list_elem_of_fmap. exists (k, v). split; [done|].
        by eapply list_elem_of_lookup_2. }
    assert (exists f0, first t = Some f0) as [f0 Hf0].
    { pose proof (run_first_None (map (fun kv => OpUpdate kv.1 kv.2) kvs)
                    (NewStackTrie oo) eq_refl (or_introl eq_refl)) as Hfirst.
      rewrite <- updates_run in Hfirst. fold t in Hfirst.
      destruct kvs as [|[k1 v1] kvs']; [done|].
      cbn [map firstInserted fst snd] in Hfirst.
      destruct (length v1 =? 0)%nat eqn:Hv1; [|eauto].
      exfalso. cbn [updates] in Hok. rewrite Update_TryUpdate in Hok.
      unfold TryUpdate in Hok. rewrite Hv1 in Hok. cbn [r_outcome] in Hok. discriminate. }
    rewrite Update_TryUpdate. unfold TryUpdate. cbn [length Nat.eqb].
    fold (hexKey k). rewrite Hf0.
    rewrite (insert_covered _ _ _ _ _ _ _ _ Hcov Hfr). cbn [o_node o_evs o_panic].
    do 2 f_equal.
    destruct (decide (k = kl)) as [->|Hne]; [by rewrite decide_True|].
    rewrite decide_False; [done|]. by intros ?%hexKey_inj.
Qed.

Lemma C6_existing_key_witness :
  let t := r_trie (updates (NewStackTrie (Some writerOptions)) sampleBig) in
  Update t [0x10; 0x01] [9]
    = Result (mkStackTrie (options t) (root t) (first t) (Some [1; 0; 0; 1])) []
        (Panicked PanicInsertIntoHash) /\
  ([1; 0] `prefix_of` [1; 0; 0; 0] -> existingKey (newLeaf [1; 0] [1]) [1; 0; 0; 0]).
Proof.
  destruct (C6_existing_key writerOptions [] [] poolGet [] [] []
              (Some writerOptions) sampleBig 1 [0x10; 0x01] (replicate 40 2) 9 []
              [0x20; 0x00] (replicate 40 3)) as (_ & Hpre & Hre).
  split.
  - apply Hre; [reflexivity|vm_compute; reflexivity|reflexivity|reflexivity].
  - apply Hpre.
Defined.

(** The claim as stated fails. A leaf whose path is a proper prefix of what
    is left of the new key makes the update fail with the existing-key
    panic although the two differ: after [0x10], the key [0x1000]. And when
    earlier keys were not increasing, the failing call can hand a node to
    the writer: after [0x00], [0x20], [0x10], the key [0x20] again. *)
Lemma C6_counterexample :
  (let t := r_trie (updates (NewStackTrie None) [([0x10], [1])]) in
   root t = StNode leafNode [1; 0] [1] noChildren /\
   r_outcome (Update t [0x10; 0x00] [2]) = Panicked PanicExistingKey /\
   hexKey [0x10; 0x00] = [1; 0; 0; 0] /\
   [1; 0] <> hexKey [0x10; 0x00]) /\
  (let t := r_trie (updates (NewStackTrie (Some writerOptions))
                      [([0x00], replicate 40 1); ([0x20], replicate 40 2);
                       ([0x10], replicate 40 3)]) in
   r_outcome (Update t [0x20] [4]) = Panicked PanicExistingKey /\
   writerPaths (r_evs (Update t [0x20] [4])) = [[1]]).
Proof.
  split; [split_and!|split]; try (vm_compute; reflexivity).
  vm_compute. discriminate.
Qed.

(** * Further properties *)

(** ** Updates that return *)

Lemma rightOf_getDiffIndex k L' : forall K idx,
  rightOf (k ++ L') K = true ->
  (exists d, (d < length k)%nat /\ (d < length K)%nat /\
     getDiffIndexFrom idx k K = Some (idx + d)%nat /\ nth d k 0 < nth d K 0)
  \/ (getDiffIndexFrom idx k K = Some (idx + length k)%nat /\
      take (length k) K = k /\ rightOf L' (drop (length k) K) = true).
Proof.
  induction k as [|a k IH]; intros K idx; cbn [app].
  - intros HR. right. cbn [getDiffIndexFrom length]. rewrite Nat.add_0_r.
    by rewrite take_0, drop_0.
  - destruct K as [|b K]; cbn [rightOf getDiffIndexFrom]; [done|].
    intros [Hlt%N.ltb_lt|[Heq%N.eqb_eq HR]%andb_true_iff]%orb_true_iff.
    + left. exists 0%nat. cbn [length nth]. rewrite Nat.add_0_r.
      destruct (N.eqb_spec a b); [lia|]. split_and!; [lia|lia|done|done].
    + subst b. rewrite N.eqb_refl.
      destruct (IH K (S idx) HR) as [(d & Hdk & HdK & Hd & Hlt)|(Hd & Ht & HR')].
      * left. exists (S d). cbn [length nth].
        split_and!; [lia|lia| |done]. rewrite Hd. f_equal. lia.
      * right. cbn [length take drop]. split_and!; [|by rewrite Ht|done].
        rewrite Hd. f_equal. lia.
Qed.

Lemma nibbles_nth s d : nibbles s -> (d < length s)%nat -> nth d s 0 < 16.
Proof.
  intros Hs Hd. unfold nibbles in Hs. rewrite Forall_lookup in Hs.
  destruct (lookup_lt_is_Some_2 s d Hd) as [x Hx].
  rewrite (nth_lookup_Some _ _ _ _ Hx). eauto.
Qed.

Lemma setChild_lt cs idx c :
  idx < 16 -> setChild cs idx c = Some (<[N.to_nat idx := c]> cs).
Proof. intros H. by apply setChild_Some. Qed.

Section Returns.
Variable o : StackTrieOptions.
Variables first last : list N.

Lemma hash_returns st path : wf st -> o_panic (hash o first last st path) = None.
Proof. intros Hwf. by destruct (hash_spec o first last st path Hwf) as [? _]. Qed.

Lemma insert_leaf_returns k v : (returnsSpec o first last) (StNode leafNode k v noChildren).
Proof.
  intros L K value path Hwf ->%frontier_leaf_inv Hk HK HR.
  rewrite <- (app_nil_r k) in HR.
  destruct (rightOf_getDiffIndex k [] K 0%nat HR) as [(d & Hdk & HdK & Hd & Hlt)|(_ & _ & HR')];
    [|by destruct (drop _ _)].
  cbn [insert]. rewrite Hd. cbn [Nat.add].
  destruct (Nat.leb_spec (length k) d) as [?|_]; [lia|].
  rewrite (splitBase_wf d noChildren) by auto.
  rewrite setChild_lt by by apply nibbles_nth.
  rewrite hash_returns by apply wf_leaf.
  rewrite setChild_lt by by apply nibbles_nth.
  reflexivity.
Qed.

Lemma insert_ext_returns k v c :
  k <> [] -> wf c -> (returnsSpec o first last) c ->
  (returnsSpec o first last) (StNode extNode k v (Some c :: replicate 15 None)).
Proof.
  intros Hk Hwfc IH L K value path Hwf HL HnL HnK HR.
  apply frontier_ext_inv in HL as (c' & rest & L' & [= <- <-] & -> & HL').
  apply Forall_app in HnL as [Hnk HnL'].
  destruct (rightOf_getDiffIndex k L' K 0%nat HR) as [(d & Hdk & HdK & Hd & Hlt)|(Hd & Ht & HR')];
    cbn [insert]; rewrite Hd; cbn [Nat.add].
  - destruct (Nat.eqb_spec d (length k)) as [?|_]; [lia|].
    change (mjoin (head (Some c :: replicate 15 None))) with (Some c).
    assert (forall n evs,
      o_panic (extFinish d (Some c :: replicate 15 None) k v K value n evs) = None) as Hfin.
    { intros n evs. unfold extFinish.
      rewrite (splitBase_wf d (Some c :: replicate 15 None)) by eauto.
      rewrite setChild_lt by by apply nibbles_nth.
      rewrite setChild_lt by by apply nibbles_nth.
      reflexivity. }
    destruct (d <? length k - 1)%nat eqn:Hlast; cbv beta iota zeta.
    + rewrite hash_returns.
      * apply (Hfin _ _).
      * apply Nat.ltb_lt in Hlast.
        change (newExt (drop (S d) k) (Some c))
          with (StNode extNode (drop (S d) k) [] (Some c :: replicate 15 None)).
        apply wf_ext; [|done].
        intros Hnil. apply (f_equal length) in Hnil. rewrite length_drop in Hnil.
        simpl in Hnil. lia.
    + rewrite hash_returns by done. apply (Hfin _ _).
  - rewrite Nat.eqb_refl. cbn [o_panic].
    eapply IH; eauto. unfold nibbles. by apply Forall_drop.
Qed.

Lemma insert_branch_returns k v cs :
  length cs = 16%nat ->
  (forall i c, cs !! i = Some (Some c) -> wf c) ->
  Forall (onChild (returnsSpec o first last)) cs ->
  (returnsSpec o first last) (StNode branchNode k v cs).
Proof.
  intros Hlen Hwfcs IH L K value path Hwf HL HnL HnK HR.
  apply frontier_branch_inv in HL as (j & c & L' & -> & Hj & Hc & Hleft & Hright).
  destruct K as [|k0 krest]; [done|].
  apply Forall_cons_1 in HnL as [Hj16 HnL'].
  apply Forall_cons_1 in HnK as [Hk16 HnK'].
  cbn [insert]. set (idx := N.to_nat k0).
  assert (idx < 16)%nat as Hidx16 by (subst idx; lia).
  assert (idx <= length cs)%nat as Hidx by lia.
  cbn [rightOf] in HR.
  apply orb_true_iff in HR as [Hlt%N.ltb_lt|[<-%N.eqb_eq HR]%andb_true_iff].
  - (* the new key leaves the frontier at this branch *)
    assert (N.to_nat j < idx)%nat as Hjidx by (subst idx; lia).
    destruct (unresolveElder_cases o first last cs path idx Hidx)
      as [[-> _]|[(i & c' & _ & _ & _ & _ & ->)|(i & c' & Hi & Hl & Hty & Hall & ->)]].
    1,2: rewrite insertSlot_lookup;
         destruct (cs !! idx) as [[child|]|] eqn:Hchild; cbn [o_panic];
         [exfalso; eapply (Hright idx); [lia|done]|done|
          apply lookup_ge_None in Hchild; lia].
    cbv zeta. rewrite hash_returns by eauto.
    rewrite insertSlot_lookup.
    destruct (cs !! idx) as [[child|]|] eqn:Hchild; cbn [o_panic];
      [exfalso; eapply (Hright idx); [lia|done]|done|
       apply lookup_ge_None in Hchild; lia].
  - (* the new key stays on the frontier *)
    fold idx in Hj, Hleft, Hright.
    assert (unresolveElder o first last cs idx path = (cs, [], None)) as ->.
    { destruct (unresolveElder_cases o first last cs path idx Hidx)
        as [[Heq _]|[(i & c' & _ & _ & _ & _ & Heq)|(i & c' & Hi & Hl & Hty & _)]];
        [done|done|].
      exfalso. apply Hty. by eapply Hleft. }
    rewrite insertSlot_lookup, Hj. cbn [o_panic].
    rewrite Forall_lookup in IH. eapply (IH idx (Some c) Hj); eauto.
Qed.

Lemma insert_returns st : (returnsSpec o first last) st.
Proof.
  induction st as [ty k v cs IH] using stNode_ind.
  intros L K value path Hwf.
  inversion Hwf as [| | |? ? c Hk Hc|? ? ? Hlen Hcs]; subst.
  - intros HL. by apply frontier_not_empty in HL.
  - by apply insert_leaf_returns.
  - intros HL. by apply frontier_not_hashed in HL.
  - apply Forall_cons_1 in IH as [IHc _]. by apply insert_ext_returns.
  - by apply insert_branch_returns.
Qed.
End Returns.

Lemma rightOf_lexlt a : forall b, rightOf a b = true -> lexlt a b = true.
Proof.
  induction a as [|x a IH]; intros [|y b]; cbn [rightOf lexlt]; try done.
  intros [->|[-> HR]%andb_true_iff]%orb_true_iff; [done|].
  rewrite (IH _ HR). by rewrite orb_true_r.
Qed.

Lemma lexlt_rightOf a : forall b,
  lexlt a b = true -> HasPrefix b a = false -> rightOf a b = true.
Proof.
  induction a as [|x a IH]; intros [|y b]; cbn [rightOf lexlt HasPrefix]; try done.
  intros [->|[Heq Hlt]%andb_true_iff]%orb_true_iff; [done|].
  rewrite Heq. cbn [andb]. intros Hp. rewrite IH by done. by rewrite orb_true_r.
Qed.

Lemma rightOf_hexKey a : forall b, rightOf a b = true -> rightOf (hexKey a) (hexKey b) = true.
Proof.
  setoid_rewrite hexKey_eq.
  induction a as [|x a IH]; intros [|y b]; simpl; try done.
  intros [Hlt%N.ltb_lt|[Heq%N.eqb_eq Hlt]%andb_true_iff]%orb_true_iff.
  - destruct (N.ltb_spec (x / 16) (y / 16)) as [|Hge]; [done|]. simpl.
    assert (x / 16 = y / 16) as Hq.
    { pose proof (N.Div0.div_le_mono x y 16 ltac:(lia)). lia. }
    rewrite Hq, N.eqb_refl. simpl.
    assert (x mod 16 < y mod 16) as Hm.
    { rewrite (N.div_mod x 16), (N.div_mod y 16) in Hlt by lia. lia. }
    apply N.ltb_lt in Hm. by rewrite Hm.
  - subst y. rewrite !N.ltb_irrefl, !N.eqb_refl. simpl. auto.
Qed.

Lemma nibbles_hexKey k : forallb (fun b => b <? 256) k = true -> nibbles (hexKey k).
Proof.
  rewrite hexKey_eq. unfold nibbles.
  induction k as [|b k IH]; cbn [forallb flat_map app]; [constructor|].
  intros [Hb%N.ltb_lt Hk]%andb_true_iff.
  repeat constructor; [|apply N.mod_lt; lia|by apply IH].
  apply N.Div0.div_lt_upper_bound. lia.
Qed.

Lemma ascending_sorted keys :
  strictlyIncreasing keys = true -> prefixFree keys = true -> ascending None keys = true.
Proof.
  destruct keys as [|k keys]; [done|]. cbn [ascending andb].
  revert k. induction keys as [|k' keys IH]; intros k; [done|].
  change (strictlyIncreasing (k :: k' :: keys))
    with (lexlt k k' && strictlyIncreasing (k' :: keys)).
  change (prefixFree (k :: k' :: keys))
    with (negb (HasPrefix k' k) && prefixFree (k' :: keys)).
  intros [Hlt Hinc]%andb_true_iff [Hp%negb_true_iff Hpf]%andb_true_iff.
  cbn [ascending]. rewrite lexlt_rightOf by done. by apply IH.
Qed.

Lemma Update_returns t prev k v :
  trieInv t prev ->
  match prev with
  | None => True
  | Some p => forallb (fun b => b <? 256) p = true /\ rightOf p k = true
  end ->
  validUpdate (k, v) = true ->
  r_outcome (Update t k v) = Returned None.
Proof.
  intros (Hwf & Hlast & Hfr) Hprev [Hk Hv%negb_true_iff]%andb_true_iff.
  cbn [fst snd] in Hk, Hv.
  rewrite Update_TryUpdate. unfold TryUpdate. rewrite Hv. cbn [r_outcome].
  fold (hexKey k). set (f := boundary _). set (l := boundary _).
  enough (o_panic (insert (options t) f l (root t) (hexKey k) v []) = None) as -> by done.
  destruct prev as [p|].
  - destruct Hprev as [Hp HR].
    eapply insert_returns; eauto using nibbles_hexKey, rightOf_hexKey.
  - destruct (root t) as [ty k0 v0 cs]. cbn [typ] in Hfr. by subst ty.
Qed.

Lemma updates_return_from kvs : forall t prev,
  trieInv t prev ->
  match prev with
  | None => True
  | Some p => forallb (fun b => b <? 256) p = true
  end ->
  ascending prev kvs.*1 = true ->
  forallb validUpdate kvs = true ->
  r_outcome (updates t kvs) = Returned None.
Proof.
  induction kvs as [|[k v] kvs IH]; intros t prev Hinv Hprev Hasc Hval; cbn [updates]; [done|].
  cbn [fmap list_fmap fst ascending] in Hasc.
  apply andb_true_iff in Hasc as [HR Hasc].
  cbn [forallb] in Hval. apply andb_true_iff in Hval as [Hkv Hval].
  assert (r_outcome (Update t k v) = Returned None) as Hout.
  { apply (Update_returns t prev); [done| |done]. by destruct prev. }
  rewrite Hout. cbn [r_outcome].
  apply (IH _ (Some k)); [| |done|done].
  - apply (Update_trieInv t prev); [done| |done].
    destruct prev; [by apply rightOf_lexlt|done].
  - by apply andb_true_iff in Hkv as [? _].
Qed.

(** X1. Updates whose keys are made of bytes, strictly increasing and such
    that no key is a prefix of the next one (keys of one length, for
    instance), with values that are not empty, all return: no call panics,
    and neither does the [Hash] that follows. *)
Theorem updates_return (o : option StackTrieOptions) (kvs : list (list N * list N)) :
  strictlyIncreasing kvs.*1 = true ->
  prefixFree kvs.*1 = true ->
  forallb validUpdate kvs = true ->
  r_outcome (updates (NewStackTrie o) kvs) = Returned None /\
  r_outcome (Hash (r_trie (updates (NewStackTrie o) kvs))).2 = Returned None.
Proof.
  intros Hinc Hpf Hval.
  assert (r_outcome (updates (NewStackTrie o) kvs) = Returned None) as Hout.
  { apply (updates_return_from kvs _ None); [|done|by apply ascending_sorted|done].
    split_and!; [apply wf_empty|done|done]. }
  split; [done|].
  unfold Hash. cbn [snd r_outcome].
  by rewrite hash_returns by by eapply updates_wf.
Qed.

Lemma updates_return_witness :
  r_outcome (updates (NewStackTrie (Some writerOptions)) sampleFour) = Returned None.
Proof.
  refine (proj1 (updates_return (Some writerOptions) sampleFour _ _ _)); reflexivity.
Defined.

(** ** Every event of a lifetime comes from the end of a [hash]

    A property of events that holds of what the end of [hash] emits, for
    every pair of boundaries, holds of every event of a lifetime. The list
    of internal paths is empty unless a cleaner is configured. *)
Section SinkInduction.
Variable o : StackTrieOptions.
Variable P : event -> Prop.

Hypothesis P_tail : forall first last st path blob internal e,
  internal = [] \/ (Cleaner o = true /\ exists k, internal = internalPaths path k) ->
  e ∈ (hashTail o first last st path blob internal).2 -> P e.

Lemma hash_sink first last st : forall path e,
  e ∈ o_evs (hash o first last st path) -> P e.
Proof.
  induction st as [ty k v cs IH] using stNode_ind.
  intros path e. rewrite hash_unfold.
  destruct ty; cbn [typ hashSwitch o_evs].
  - intros He. inversion He.
  - (* branch *)
    pose proof (hashChildren_events o first last (fun _ => P) ltac:(done) path cs IH 0%nat e)
      as Hch.
    destruct (hashChildren _ _ cs 0%nat) as [[[refs cs'] evs] [p|]]; cbn [fst snd o_evs] in *;
      [done|].
    destruct (hashTail _ _ _ _ _ _ _) as [st' evs'] eqn:Htail; cbn [o_evs].
    intros [He|He]%elem_of_app; [auto|].
    eapply (P_tail _ _ _ _ _ []); [by left|]. by rewrite Htail.
  - (* extension *)
    destruct cs as [|[c|] rest]; cbn [o_evs]; try (intros He; by inversion He).
    apply Forall_cons_1 in IH as [IHc _]. cbn [onChild] in IHc.
    cbv zeta.
    destruct (o_panic (hash o first last c (path ++ k))); cbn [o_evs].
    + intros He. eapply IHc, He.
    + destruct (hashTail _ _ _ _ _ _ _) as [st' evs'] eqn:Htail; cbn [o_evs].
      intros [He|He]%elem_of_app; [eapply IHc, He|].
      eapply P_tail; [|by rewrite Htail].
      destruct (32 <=? _)%nat; cbn [andb]; [|by left].
      destruct (Cleaner o); eauto.
  - (* leaf *)
    destruct (hashTail _ _ _ _ _ _ _) as [st' evs'] eqn:Htail; cbn [o_evs app].
    intros He. eapply (P_tail _ _ _ _ _ []); [by left|]. by rewrite Htail.
  - intros He. inversion He.
Qed.

Lemma unresolveElder_sink first last cs path : forall n e,
  e ∈ (unresolveElder o first last cs n path).1.2 -> P e.
Proof.
  induction n as [|n IH]; intros e; cbn [unresolveElder].
  - cbn [fst snd]. intros He. inversion He.
  - destruct (cs !! n) as [[c|]|]; [|by apply IH|cbn [fst snd]; intros He; inversion He].
    destruct (decide (typ c = hashedNode)); cbn [fst snd].
    + intros He. inversion He.
    + apply hash_sink.
Qed.

Lemma insert_sink first last st : forall key value path e,
  e ∈ o_evs (insert o first last st key value path) -> P e.
Proof.
  induction st as [ty k v cs IH] using stNode_ind.
  intros key value path e.
  destruct ty; cbn [insert o_evs]; try (intros He; by inversion He).
  - (* branch *)
    destruct key as [|k0 krest]; cbn [o_evs]; [intros He; by inversion He|].
    pose proof (unresolveElder_sink first last cs path (N.to_nat k0) e) as Hel.
    destruct (unresolveElder _ _ _ cs (N.to_nat k0) path) as [[cs1 evs1] [p|]];
      cbn [fst snd o_evs] in *; [done|].
    rewrite insertSlot_lookup.
    destruct (cs !! N.to_nat k0) as [[child|]|] eqn:Hl; cbn [o_evs]; [| |done].
    + rewrite Forall_lookup in IH. specialize (IH _ _ Hl). cbn [onChild] in IH.
      intros [He|He]%elem_of_app; [auto|]. eapply IH, He.
    + rewrite app_nil_r. done.
  - (* extension *)
    destruct (getDiffIndexFrom 0 k key) as [d|]; cbn [o_evs]; [|intros He; by inversion He].
    destruct (d =? length k)%nat.
    + destruct cs as [|[c|] rest]; cbn [o_evs]; try (intros He; by inversion He).
      apply Forall_cons_1 in IH as [IHc _]. cbn [onChild] in IHc.
      intros He. eapply IHc, He.
    + destruct (d <? length k - 1)%nat; [|destruct (mjoin (head cs))];
        cbv beta iota zeta.
      * pose proof (hash_sink first last (newExt (drop (S d) k) (mjoin (head cs)))
                      (path ++ take (S d) k) e) as Hhash.
        destruct (o_panic _); cbn [o_evs]; [done|].
        repeat (destruct (setChild _ _ _); cbn [o_evs]); done.
      * pose proof (hash_sink first last s (path ++ k) e) as Hhash.
        destruct (o_panic _); cbn [o_evs]; [done|].
        repeat (destruct (setChild _ _ _); cbn [o_evs]); done.
      * cbn [o_evs]. intros He. inversion He.
  - (* leaf *)
    destruct (getDiffIndexFrom 0 k key) as [d|]; cbn [o_evs]; [|intros He; by inversion He].
    destruct (length k <=? d)%nat; cbn [o_evs]; [intros He; by inversion He|].
    destruct (setChild _ _ _); cbn [o_evs]; [|intros He; by inversion He].
    pose proof (hash_sink first last (newLeaf (drop (S d) k) v) (path ++ take (S d) k) e)
      as Hhash.
    destruct (o_panic _); cbn [o_evs]; [done|].
    destruct (setChild _ _ _); cbn [o_evs]; done.
Qed.

Lemma step_sink t op e :
  options t = o -> e ∈ r_evs (step t op) -> P e.
Proof.
  intros Ho. destruct op as [k v| |]; cbn [step].
  - rewrite Update_TryUpdate. unfold TryUpdate.
    destruct (length v =? 0)%nat; cbn [r_evs]; [intros He; by inversion He|].
    rewrite Ho. apply insert_sink.
  - unfold Hash. cbn [snd r_evs]. rewrite Ho. apply hash_sink.
  - unfold Commit, Hash. cbn [snd r_evs]. rewrite Ho. apply hash_sink.
Qed.

Lemma run_sink ops : forall t e,
  options t = o -> e ∈ r_evs (run t ops) -> P e.
Proof.
  induction ops as [|op ops IH]; intros t e Ho; cbn [run].
  - cbn [r_evs]. intros He. inversion He.
  - pose proof (step_sink t op e Ho) as Hstep.
    destruct (r_outcome (step t op)); [|done].
    cbn [r_evs]. intros [He|He]%elem_of_app; [auto|].
    eapply IH, He. by rewrite step_options.
Qed.
End SinkInduction.

Lemma hashTail_configured o first last st path blob internal e :
  internal = [] \/ (Cleaner o = true /\ exists k, internal = internalPaths path k) ->
  e ∈ (hashTail o first last st path blob internal).2 -> configured o e.
Proof.
  intros Hint. unfold hashTail, gaugeInc.
  destruct (_ && _); cbn [snd]; [intros He; by inversion He|].
  destruct (Writer o) eqn:HW; cbn [negb snd]; [|intros He; by inversion He].
  destruct (SkipLeftBoundary o) eqn:HL; cbn [andb].
  { destruct (HasPrefix first path); cbn [snd].
    - destruct (boundaryGauge o) eqn:HG; [|intros He; by inversion He].
      intros ->%list_elem_of_singleton. cbn. auto.
    - destruct (SkipRightBoundary o && HasPrefix last path) eqn:HR; cbn [snd].
      + destruct (boundaryGauge o) eqn:HG; [|intros He; by inversion He].
        intros ->%list_elem_of_singleton. cbn. auto.
      + intros [He|He]%elem_of_app.
        * apply list_elem_of_fmap in He as (q & -> & Hq).
          destruct Hint as [->|[? _]]; [by inversion Hq|done].
        * apply list_elem_of_singleton in He as ->. done. }
  destruct (SkipRightBoundary o && HasPrefix last path) eqn:HR; cbn [snd].
  - apply andb_true_iff in HR as [HR _].
    destruct (boundaryGauge o) eqn:HG; [|intros He; by inversion He].
    intros ->%list_elem_of_singleton. cbn. auto.
  - intros [He|He]%elem_of_app.
    + apply list_elem_of_fmap in He as (q & -> & Hq).
      destruct Hint as [->|[? _]]; [by inversion Hq|done].
    + apply list_elem_of_singleton in He as ->. done.
Qed.

Lemma hashTail_writerCallOK o first last st path blob internal e :
  e ∈ (hashTail o first last st path blob internal).2 -> writerCallOK e.
Proof.
  unfold hashTail, gaugeInc.
  destruct (Nat.ltb_spec (length blob) 32) as [Hlt|Hge]; cbn [andb].
  - destruct (Nat.ltb_spec 0 (length path)) as [Hpos|Hzero]; cbn [snd].
    { intros He. by inversion He. }
    assert (path = []) as -> by (destruct path; simpl in *; [done|lia]).
    repeat (case_match; cbn [snd]); intros He;
      try (by inversion He);
      try (apply list_elem_of_singleton in He as ->; done).
    apply elem_of_app in He as [He|He].
    + apply list_elem_of_fmap in He as (q & -> & _). done.
    + apply list_elem_of_singleton in He as ->. cbn [writerCallOK].
      rewrite BytesToHash_32 by apply hashData_length.
      split_and!; [done|apply hashData_length|by right].
  - repeat (case_match; cbn [snd]); intros He;
      try (by inversion He);
      try (apply list_elem_of_singleton in He as ->; done).
    apply elem_of_app in He as [He|He].
    + apply list_elem_of_fmap in He as (q & -> & _). done.
    + apply list_elem_of_singleton in He as ->. cbn [writerCallOK].
      rewrite BytesToHash_32 by apply hashData_length.
      split_and!; [done|apply hashData_length|by left].
Qed.

Lemma run_configured t ops e : e ∈ r_evs (run t ops) -> configured (options t) e.
Proof.
  intros He. apply (run_sink (options t) (configured (options t))) with (t := t) (ops := ops);
    [|done|done].
  intros first last st path blob internal e'. apply hashTail_configured.
Qed.

Lemma run_silent t ops : Writer (options t) = false -> r_evs (run t ops) = [].
Proof.
  intros HW. pose proof (run_configured t ops) as Hall.
  destruct (r_evs (run t ops)) as [|e evs]; [done|].
  specialize (Hall e ltac:(left)).
  destruct e; cbn in Hall; [congruence|destruct Hall; congruence|
                            destruct Hall as (_ & ? & _); congruence|done].
Qed.

(** X2. Whatever trie a lifetime starts from and whatever its operations,
    every call of the writer is handed the Keccak-256 digest of the blob it
    is handed, 32 bytes long, and the blob is 32 bytes or longer unless the
    path is empty: a node whose encoding is shorter is written only when it
    is the root. *)
Theorem writer_gets_digest_of_blob (t : StackTrie) (ops : list op) (p h b : list N) :
  EvWriter p h b ∈ r_evs (run t ops) ->
  h = hashData b /\ length h = 32%nat /\ ((32 <= length b)%nat \/ p = []).
Proof.
  intros He.
  apply (run_sink (options t) writerCallOK) with (e := EvWriter p h b) (t := t) (ops := ops);
    [|done|done].
  intros first last st path blob internal e _. apply hashTail_writerCallOK.
Qed.

Lemma writer_gets_digest_of_blob_witness :
  sampleWrite.1.2 = hashData sampleWrite.2.
Proof.
  refine (proj1 (writer_gets_digest_of_blob (NewStackTrie (Some writerOptions)) sampleRun
                   sampleWrite.1.1 sampleWrite.1.2 sampleWrite.2 _)).
  vm_compute. apply list_elem_of_here.
Defined.

(** X3. Over a lifetime, from any trie, a sink is called only when it is
    configured: the writer only when there is a writer, the cleaner only
    when there are a cleaner and a writer, the gauge only when there are a
    gauge, a writer and a boundary to skip; no error is ever logged.
    Without a writer nothing at all is emitted. *)
Theorem sinks_called_only_when_configured (t : StackTrie) (ops : list op) :
  (forall e, e ∈ r_evs (run t ops) -> configured (options t) e) /\
  (Writer (options t) = false -> r_evs (run t ops) = []) /\
  (Cleaner (options t) = false -> cleanerPaths (r_evs (run t ops)) = []) /\
  (boundaryGauge (options t) = false \/
   (SkipLeftBoundary (options t) = false /\ SkipRightBoundary (options t) = false) ->
   EvGaugeInc ∉ r_evs (run t ops)).
Proof.
  pose proof (run_configured t ops) as Hall.
  split_and!; [done|apply run_silent| |].
  - intros HC. induction (r_evs (run t ops)) as [|e evs IH]; [done|].
    assert (cleanerPaths evs = []) as Hrest.
    { apply IH. intros e' He'. apply Hall. by right. }
    specialize (Hall e ltac:(left)).
    destruct e; cbn in Hall |- *; try done. destruct Hall; congruence.
  - intros Hno He. apply Hall in He. cbn in He.
    destruct He as (HG & _ & Hskip).
    destruct Hno as [?|[? ?]]; [congruence|]. destruct Hskip; congruence.
Qed.

Lemma sinks_called_only_when_configured_witness :
  r_evs (run (NewStackTrie (Some (WithCleaner NewStackTrieOptions))) sampleRun) = [].
Proof.
  apply (proj1 (proj2 (sinks_called_only_when_configured
                         (NewStackTrie (Some (WithCleaner NewStackTrieOptions))) sampleRun))).
  reflexivity.
Defined.

(** X4. [Reset] replaces the options by empty ones: the lifetime that
    starts at a [Reset] emits nothing, whatever sinks the trie was built
    with; so does the lifetime of a trie built without options. *)
Theorem Reset_drops_the_sinks (t : StackTrie) (ops : list op) :
  options (Reset t) = NewStackTrieOptions /\
  r_evs (run (Reset t) ops) = [] /\
  r_evs (run (NewStackTrie None) ops) = [] /\
  options (r_trie (run (Reset t) ops)) = NewStackTrieOptions.
Proof.
  split_and!; [done| | |by rewrite run_options].
  - by apply run_silent.
  - by apply run_silent.
Qed.

(** ** The writer is called bottom-up *)

Lemma HasPrefix_spec p : forall q, HasPrefix q p = true <-> exists s, q = p ++ s.
Proof.
  induction p as [|x p IH]; intros [|y q]; cbn [HasPrefix].
  - split; [intros _; by exists []|done].
  - split; [intros _; by exists (y :: q)|done].
  - split; [done|]. intros [s Hs]. discriminate.
  - rewrite andb_true_iff, IH, N.eqb_eq. split.
    + intros [-> [s ->]]. by exists s.
    + intros [s [= -> ->]]. eauto.
Qed.

Lemma HasPrefix_sibling path a b s s' :
  a <> b -> HasPrefix (path ++ a :: s') (path ++ b :: s) = false.
Proof.
  intros Hab. apply not_true_is_false. intros [x Hx]%HasPrefix_spec.
  rewrite <- app_assoc in Hx. apply app_inv_head in Hx. by injection Hx.
Qed.

Lemma HasPrefix_longer path s : s <> [] -> HasPrefix path (path ++ s) = false.
Proof.
  intros Hs. apply not_true_is_false. intros [x Hx]%HasPrefix_spec.
  apply (f_equal length) in Hx. rewrite !length_app in Hx.
  destruct s; [done|]. simpl in Hx. lia.
Qed.

Lemma bottomUp_nil : bottomUp [].
Proof. intros i j p q _ Hi. by rewrite lookup_nil in Hi. Qed.

Lemma bottomUp_app l1 l2 :
  bottomUp l1 -> bottomUp l2 ->
  (forall p q, p ∈ l1 -> q ∈ l2 -> HasPrefix q p = false) ->
  bottomUp (l1 ++ l2).
Proof.
  intros H1 H2 Hx i j p q Hij Hi Hj.
  apply lookup_app_Some in Hi as [Hi|[Hil Hi]];
    apply lookup_app_Some in Hj as [Hj|[Hjl Hj]].
  - eapply H1; eauto.
  - eapply Hx; eapply list_elem_of_lookup_2; eauto.
  - apply lookup_lt_Some in Hj. lia.
  - eapply (H2 (i - length l1)%nat (j - length l1)%nat); eauto. lia.
Qed.

Lemma bottomUp_own path l :
  l = [] \/ l = [path] -> bottomUp l.
Proof.
  intros [-> | ->]; [apply bottomUp_nil|].
  intros i j p q Hij Hi Hj. apply lookup_lt_Some in Hj. simpl in Hj. lia.
Qed.

Lemma dead_app n s : dead n s -> forall x, dead n (s ++ x).
Proof.
  induction 1 as [k v cs s|k v cs Hb|k v c rest s Hc IH|k v cs i c s Hl Hc IH]; intros x.
  - constructor.
  - discriminate.
  - rewrite <- app_assoc. by constructor.
  - cbn [app]. econstructor; eauto.
Qed.

Section BottomUp.
Variable o : StackTrieOptions.
Variables first last : list N.

Lemma hash_writer_below st path p :
  p ∈ writerPaths (o_evs (hash o first last st path)) -> exists s, p = path ++ s.
Proof.
  intros (h & b & He)%writerPaths_elem.
  by apply hash_belowPath in He.
Qed.

Lemma insert_belowPath st key value path e :
  e ∈ o_evs (insert o first last st key value path) -> belowPath path e.
Proof.
  apply insert_events_ind.
  - clear. intros path x [] He; cbn [belowPath] in *; auto.
    + destruct He as [s ->]. exists (x ++ s). by rewrite app_assoc.
    + destruct He as (s & -> & Hs). exists (x ++ s). rewrite app_assoc. split; [done|].
      destruct x; [done|discriminate].
  - clear. intros st path blob internal e Hint He.
    destruct (hashTail_events o first last st path blob internal) as [Heq | [Heq | Heq]];
      rewrite Heq in He.
    + inversion He.
    + apply list_elem_of_singleton in He as ->. exact I.
    + apply elem_of_app in He as [He| ->%list_elem_of_singleton].
      * apply list_elem_of_fmap in He as (q & -> & Hq). cbn [belowPath].
        destruct Hint as [->|[k ->]]; [inversion Hq|].
        apply elem_of_internalPaths in Hq as (i & Hi & ->).
        exists (take i k). split; [done|].
        destruct k; simpl in *; [lia|]. destruct i; [lia|discriminate].
      * exists []. by rewrite app_nil_r.
Qed.

Lemma insert_writer_below st key value path p :
  p ∈ writerPaths (o_evs (insert o first last st key value path)) -> exists s, p = path ++ s.
Proof.
  intros (h & b & He)%writerPaths_elem.
  by apply insert_belowPath in He.
Qed.

Lemma hashChildren_paths path cs : forall i p,
  p ∈ writerPaths (hashChildren (hash o first last) path cs i).1.2 ->
  exists j s, (i <= j)%nat /\ p = path ++ N.of_nat j :: s.
Proof.
  induction cs as [|c cs IH]; intros i p; cbn [hashChildren].
  - cbn [fst snd]. intros Hp. inversion Hp.
  - assert (p ∈ writerPaths (hashChildren (hash o first last) path cs (S i)).1.2 ->
            exists j s, (i <= j)%nat /\ p = path ++ N.of_nat j :: s) as Hrest.
    { intros (j & s & ? & ->)%IH. exists j, s. split; [lia|done]. }
    destruct c as [c|].
    + assert (p ∈ writerPaths (o_evs (hash o first last c (path ++ [N.of_nat i]))) ->
              exists j s, (i <= j)%nat /\ p = path ++ N.of_nat j :: s) as Hhere.
      { intros [s ->]%hash_writer_below. exists i, s. by rewrite <- app_assoc. }
      destruct (o_panic (hash o first last c (path ++ [N.of_nat i]))).
      * cbn [fst snd]. auto.
      * destruct (hashChildren _ _ cs (S i)) as [[[refs cs'] evs] pan].
        cbn [fst snd] in *. rewrite writerPaths_app. intros [?|?]%elem_of_app; auto.
    + destruct (hashChildren _ _ cs (S i)) as [[[refs cs'] evs] pan].
      cbn [fst snd] in *. auto.
Qed.

Lemma hashChildren_bottomUp path cs :
  Forall (onChild (fun n => wf n -> forall path,
            bottomUp (writerPaths (o_evs (hash o first last n path))))) cs ->
  (forall i c, cs !! i = Some (Some c) -> wf c) ->
  forall i, bottomUp (writerPaths (hashChildren (hash o first last) path cs i).1.2).
Proof.
  induction 1 as [|c cs Hc Hcs IH]; intros Hwf i; cbn [hashChildren].
  - apply bottomUp_nil.
  - assert (forall i c, cs !! i = Some (Some c) -> wf c) as Hwf'.
    { intros i' c' Hl. apply (Hwf (S i')). done. }
    specialize (IH Hwf' (S i)).
    pose proof (hashChildren_paths path cs (S i)) as Hpaths.
    destruct c as [c|].
    + assert (bottomUp (writerPaths (o_evs (hash o first last c (path ++ [N.of_nat i])))))
        as Hhere.
      { apply Hc. apply (Hwf 0%nat). done. }
      pose proof (hash_writer_below c (path ++ [N.of_nat i])) as Hbelow.
      destruct (o_panic (hash o first last c (path ++ [N.of_nat i]))); [done|].
      destruct (hashChildren _ _ cs (S i)) as [[[refs cs'] evs] pan].
      cbn [fst snd] in *. rewrite writerPaths_app.
      apply bottomUp_app; [done|done|].
      intros p q [s ->]%Hbelow (j & s' & Hj & ->)%Hpaths.
      rewrite <- app_assoc. apply HasPrefix_sibling. lia.
    + destruct (hashChildren _ _ cs (S i)) as [[[refs cs'] evs] pan].
      cbn [fst snd] in *. done.
Qed.

Lemma hash_bottomUp st : wf st -> forall path,
  bottomUp (writerPaths (o_evs (hash o first last st path))).
Proof.
  induction st as [ty k v cs IH] using stNode_ind.
  intros Hwf path. rewrite hash_unfold.
  inversion Hwf as [| | |? ? c Hk Hc|? ? ? Hlen Hcs]; subst; cbn [typ hashSwitch o_evs].
  - apply bottomUp_nil.
  - (* leaf *)
    pose proof (hashTail_writerPaths o first last (StNode leafNode k v noChildren) path
                  (shortNode_encode (hexToCompact (k ++ [16])) (rlp_string v)) []) as Hown.
    destruct (hashTail _ _ _ _ _ _ _) as [st' evs']; cbn [o_evs app snd] in *.
    by eapply bottomUp_own.
  - apply bottomUp_nil.
  - (* extension *)
    apply Forall_cons_1 in IH as [IHc _]. cbn [onChild] in IHc.
    cbv zeta. specialize (IHc Hc (path ++ k)).
    pose proof (hash_writer_below c (path ++ k)) as Hbelow.
    destruct (o_panic (hash o first last c (path ++ k))); cbn [o_evs]; [done|].
    match goal with |- context [hashTail ?a ?b ?c ?d ?e ?f ?g] =>
      pose proof (hashTail_writerPaths a b c d e f g) as Hown;
      destruct (hashTail a b c d e f g) as [st' evs'] end.
    cbn [o_evs snd] in *. rewrite writerPaths_app.
    apply bottomUp_app; [done|by eapply bottomUp_own|].
    intros p q [s ->]%Hbelow Hq.
    apply (own_path_only _ _ _ Hown) in Hq as ->.
    rewrite <- app_assoc. apply HasPrefix_longer. by destruct k.
  - (* branch *)
    pose proof (hashChildren_bottomUp path cs IH Hcs 0%nat) as Hch.
    pose proof (hashChildren_paths path cs 0%nat) as Hpaths.
    destruct (hashChildren _ _ cs 0%nat) as [[[refs cs'] evs] [p|]]; cbn [fst snd o_evs] in *;
      [done|].
    match goal with |- context [hashTail ?a ?b ?c ?d ?e ?f ?g] =>
      pose proof (hashTail_writerPaths a b c d e f g) as Hown;
      destruct (hashTail a b c d e f g) as [st' evs'] end.
    cbn [o_evs snd] in *. rewrite writerPaths_app.
    apply bottomUp_app; [done|by eapply bottomUp_own|].
    intros p q (j & s & _ & ->)%Hpaths Hq.
    apply (own_path_only _ _ _ Hown) in Hq as ->.
    by apply HasPrefix_longer.
Qed.

Lemma insert_bottomUp st : wf st -> forall key value path,
  bottomUp (writerPaths (o_evs (insert o first last st key value path))).
Proof.
  induction st as [ty k v cs IH] using stNode_ind.
  intros Hwf key value path.
  inversion Hwf as [| | |? ? c Hk Hc|? ? ? Hlen Hcs]; subst; cbn [insert o_evs];
    try apply bottomUp_nil.
  - (* leaf *)
    destruct (getDiffIndexFrom 0 k key) as [d|]; cbn [o_evs]; [|apply bottomUp_nil].
    destruct (length k <=? d)%nat; cbn [o_evs]; [apply bottomUp_nil|].
    destruct (setChild _ _ _); cbn [o_evs]; [|apply bottomUp_nil].
    pose proof (hash_bottomUp (newLeaf (drop (S d) k) v) (wf_leaf _ _) (path ++ take (S d) k))
      as Hhash.
    destruct (o_panic _); cbn [o_evs]; [done|].
    destruct (setChild _ _ _); cbn [o_evs]; done.
  - (* extension *)
    apply Forall_cons_1 in IH as [IHc _]. cbn [onChild] in IHc.
    destruct (getDiffIndexFrom 0 k key) as [d|] eqn:Hd; cbn [o_evs]; [|apply bottomUp_nil].
    apply getDiffIndex_spec in Hd as (Hdk & _).
    destruct (Nat.eqb_spec d (length k)) as [->|Hne]; cbn [o_evs]; [by apply IHc|].
    change (mjoin (head (Some c :: _))) with (Some c).
    destruct (d <? length k - 1)%nat eqn:Hlast; cbv beta iota zeta.
    + assert (wf (newExt (drop (S d) k) (Some c))) as Hwfn.
      { apply Nat.ltb_lt in Hlast.
        change (newExt (drop (S d) k) (Some c))
          with (StNode extNode (drop (S d) k) [] (Some c :: replicate 15 None)).
        apply wf_ext; [|done].
        intros Hnil. apply (f_equal length) in Hnil. rewrite length_drop in Hnil.
        simpl in Hnil. lia. }
      pose proof (hash_bottomUp _ Hwfn (path ++ take (S d) k)) as Hhash.
      destruct (o_panic _); cbn [o_evs]; [done|].
      repeat (destruct (setChild _ _ _); cbn [o_evs]); done.
    + pose proof (hash_bottomUp _ Hc (path ++ k)) as Hhash.
      destruct (o_panic _); cbn [o_evs]; [done|].
      repeat (destruct (setChild _ _ _); cbn [o_evs]); done.
  - (* branch *)
    destruct key as [|k0 krest]; cbn [o_evs]; [apply bottomUp_nil|].
    set (idx := N.to_nat k0).
    destruct (decide (idx <= length cs)%nat) as [Hidx|Hidx].
    2: { rewrite unresolveElder_out_of_range by lia. apply bottomUp_nil. }
    assert (exists cs1 evs1 pan1,
      unresolveElder o first last cs idx path = (cs1, evs1, pan1) /\
      bottomUp (writerPaths evs1) /\
      forall p, p ∈ writerPaths evs1 ->
        exists i s, (i < idx)%nat /\ p = path ++ N.of_nat i :: s) as (cs1 & evs1 & pan1 & -> & Hb1 & Hp1).
    { destruct (unresolveElder_cases o first last cs path idx Hidx)
        as [[-> _]|[(i & c' & _ & _ & _ & _ & ->)|(i & c' & Hi & Hl & Hty & Hall & ->)]].
      1,2: eexists _, [], _; split_and!; [done|apply bottomUp_nil|intros p Hp; inversion Hp].
      eexists _, _, _. split_and!; [done|by eapply hash_bottomUp, Hcs|].
      intros p [s ->]%hash_writer_below. exists i, s. by rewrite <- app_assoc. }
    destruct pan1; cbn [o_evs]; [done|].
    rewrite insertSlot_lookup.
    destruct (cs !! idx) as [[child|]|] eqn:Hl; cbn [o_evs]; [| |done].
    + rewrite Forall_lookup in IH. specialize (IH _ _ Hl). cbn [onChild] in IH.
      rewrite writerPaths_app. apply bottomUp_app; [done|by eapply IH, Hcs|].
      intros p q (i & s & Hi & ->)%Hp1 [s' ->]%insert_writer_below.
      rewrite <- app_assoc. apply HasPrefix_sibling. subst idx. lia.
    + by rewrite app_nil_r.
Qed.
End BottomUp.

Lemma bottomUp_step t tr op :
  closedInv t tr -> bottomUp (writerPaths tr) ->
  bottomUp (writerPaths (tr ++ r_evs (step t op))).
Proof.
  intros (Hwf & Hdead & Hnd) Hbu.
  assert (forall evs,
    bottomUp (writerPaths evs) ->
    (forall p, p ∈ writerPaths evs -> ~ dead (root t) p) ->
    bottomUp (writerPaths (tr ++ evs))) as Hgen.
  { intros evs Hb Hnew. rewrite writerPaths_app. apply bottomUp_app; [done|done|].
    intros p q Hp Hq. apply not_true_is_false. intros [s ->]%HasPrefix_spec.
    apply (Hnew _ Hq). by apply dead_app, Hdead. }
  destruct op as [k v| |]; cbn [step].
  - rewrite Update_TryUpdate. unfold TryUpdate.
    destruct (length v =? 0)%nat; cbn [r_evs]; [by rewrite app_nil_r|].
    apply Hgen; [by apply insert_bottomUp|].
    intros p Hp.
    match type of Hp with context [insert ?a ?b ?c ?d ?e ?f ?g] =>
      destruct (insert_spec a b c d e f g Hwf) as (Hev & _) end.
    by destruct (Hev p Hp) as (s & -> & Hs & _).
  - unfold Hash. cbn [snd r_evs].
    apply Hgen; [by apply hash_bottomUp|].
    intros p Hp.
    match type of Hp with context [hash ?a ?b ?c ?d ?e] =>
      destruct (hash_spec a b c d e Hwf) as (_ & _ & _ & Hev & _) end.
    by destruct (Hev p Hp) as (s & -> & Hs).
  - unfold Commit, Hash. cbn [snd r_evs].
    apply Hgen; [by apply hash_bottomUp|].
    intros p Hp.
    match type of Hp with context [hash ?a ?b ?c ?d ?e] =>
      destruct (hash_spec a b c d e Hwf) as (_ & _ & _ & Hev & _) end.
    by destruct (Hev p Hp) as (s & -> & Hs).
Qed.

Lemma bottomUp_run ops : forall t tr,
  closedInv t tr -> bottomUp (writerPaths tr) ->
  bottomUp (writerPaths (tr ++ r_evs (run t ops))).
Proof.
  induction ops as [|op ops IH]; intros t tr Hinv Hbu; cbn [run].
  - cbn [r_evs]. by rewrite app_nil_r.
  - pose proof (bottomUp_step t tr op Hinv Hbu) as Hstep.
    destruct (closedInv_step t tr op Hinv) as [_ Hnext].
    destruct (r_outcome (step t op)) as [e|p] eqn:Hout; [|done].
    cbn [r_evs]. rewrite app_assoc. apply IH; [by eapply Hnext|done].
Qed.

(** X5. Over a lifetime of a trie, from its construction, the writer is
    called bottom-up: a path handed to the writer is never followed by a
    path that extends it (nor by itself). So when a node is written, every
    node below it that is written at all has been written before. *)
Theorem writer_called_bottom_up (o : option StackTrieOptions) (ops : list op)
    (i j : nat) (p q : list N) :
  (i < j)%nat ->
  writerPaths (r_evs (run (NewStackTrie o) ops)) !! i = Some p ->
  writerPaths (r_evs (run (NewStackTrie o) ops)) !! j = Some q ->
  HasPrefix q p = false.
Proof.
  pose proof (bottomUp_run ops _ [] (closedInv_new o) bottomUp_nil) as H.
  cbn [app] in H. apply H.
Qed.

Lemma writer_called_bottom_up_witness :
  HasPrefix [0] [0; 0] = false.
Proof.
  apply (writer_called_bottom_up (Some writerOptions) sampleRun 0 2 [0; 0] [0]).
  - lia.
  - vm_compute; reflexivity.
  - vm_compute; reflexivity.
Defined.

(** ** The trie does not depend on the sinks *)
Section Independence.
Variables o o' : StackTrieOptions.
Variables first last first' last' : list N.

Lemma hashTail_indep st path blob internal internal' :
  (hashTail o first last st path blob internal).1
  = (hashTail o' first' last' st path blob internal').1.
Proof. unfold hashTail. repeat case_match; reflexivity. Qed.

Lemma hashChildren_indep path cs :
  Forall (onChild (fun n => forall path,
            sameNode (hash o first last n path) (hash o' first' last' n path))) cs ->
  forall i,
    (hashChildren (hash o first last) path cs i).1.1
    = (hashChildren (hash o' first' last') path cs i).1.1 /\
    (hashChildren (hash o first last) path cs i).2
    = (hashChildren (hash o' first' last') path cs i).2.
Proof.
  induction 1 as [|c cs Hc Hcs IH]; intros i; cbn [hashChildren]; [done|].
  destruct (IH (S i)) as [H1 H2].
  destruct c as [c|].
  - destruct (Hc (path ++ [N.of_nat i])) as [-> ->].
    destruct (o_panic (hash o' first' last' c (path ++ [N.of_nat i]))); [done|].
    destruct (hashChildren (hash o first last) path cs (S i)) as [[[refs cs1] evs] pan].
    destruct (hashChildren (hash o' first' last') path cs (S i)) as [[[refs' cs1'] evs'] pan'].
    cbn [fst snd] in *. injection H1 as -> ->. by subst.
  - destruct (hashChildren (hash o first last) path cs (S i)) as [[[refs cs1] evs] pan].
    destruct (hashChildren (hash o' first' last') path cs (S i)) as [[[refs' cs1'] evs'] pan'].
    cbn [fst snd] in *. injection H1 as -> ->. by subst.
Qed.

Lemma hash_indep st : forall path,
  sameNode (hash o first last st path) (hash o' first' last' st path).
Proof.
  induction st as [ty k v cs IH] using stNode_ind.
  intros path. unfold sameNode. rewrite !hash_unfold.
  destruct ty; cbn [typ hashSwitch]; try done.
  - (* branch *)
    destruct (hashChildren_indep path cs IH 0%nat) as [H1 H2].
    destruct (hashChildren (hash o first last) path cs 0%nat) as [[[refs cs1] evs] pan].
    destruct (hashChildren (hash o' first' last') path cs 0%nat) as [[[refs' cs1'] evs'] pan'].
    cbn [fst snd] in *. injection H1 as -> ->. subst pan'.
    destruct pan; [done|].
    pose proof (hashTail_indep (StNode branchNode k v cs1') path (fullNode_encode refs')
                  [] []) as Ht.
    destruct (hashTail o _ _ _ _ _ _), (hashTail o' _ _ _ _ _ _). cbn [fst] in Ht.
    by subst.
  - (* extension *)
    destruct cs as [|[c|] rest]; try done.
    apply Forall_cons_1 in IH as [IHc _]. cbn [onChild] in IHc.
    cbv zeta. destruct (IHc (path ++ k)) as [-> ->].
    destruct (o_panic (hash o' first' last' c (path ++ k))); [done|].
    match goal with
    | |- context [hashTail o first last ?a ?b ?c ?d] =>
        match goal with
        | |- context [hashTail o' first' last' a b c ?d'] =>
            pose proof (hashTail_indep a b c d d') as Ht;
            destruct (hashTail o first last a b c d), (hashTail o' first' last' a b c d')
        end
    end.
    cbn [fst] in Ht. by subst.
  - (* leaf *)
    match goal with
    | |- context [hashTail o first last ?a ?b ?c ?d] =>
        pose proof (hashTail_indep a b c d d) as Ht;
        destruct (hashTail o first last a b c d), (hashTail o' first' last' a b c d)
    end.
    cbn [fst] in Ht. by subst.
Qed.

Lemma unresolveElder_indep cs path : forall n,
  (unresolveElder o first last cs n path).1.1 = (unresolveElder o' first' last' cs n path).1.1 /\
  (unresolveElder o first last cs n path).2 = (unresolveElder o' first' last' cs n path).2.
Proof.
  induction n as [|n IH]; cbn [unresolveElder]; [done|].
  destruct (cs !! n) as [[c|]|]; [|done|done].
  destruct (decide (typ c = hashedNode)); [done|]. cbn [fst snd].
  by destruct (hash_indep c (path ++ [N.of_nat n])) as [-> ->].
Qed.

Lemma insert_indep st : forall key value path,
  sameNode (insert o first last st key value path) (insert o' first' last' st key value path).
Proof.
  induction st as [ty k v cs IH] using stNode_ind.
  intros key value path. unfold sameNode.
  destruct ty; cbn [insert].
  - split; reflexivity.
  - (* branch *)
    destruct key as [|k0 krest]; [split; reflexivity|].
    destruct (unresolveElder_indep cs path (N.to_nat k0)) as [H1 H2].
    destruct (unresolveElder o _ _ cs (N.to_nat k0) path) as [[cs1 evs1] pan1].
    destruct (unresolveElder o' _ _ cs (N.to_nat k0) path) as [[cs1' evs1'] pan1'].
    cbn [fst snd] in *. subst cs1' pan1'.
    destruct pan1; [split; reflexivity|].
    rewrite !insertSlot_lookup.
    destruct (cs !! N.to_nat k0) as [[child|]|] eqn:Hl;
      [|split; reflexivity|split; reflexivity].
    rewrite Forall_lookup in IH. specialize (IH _ _ Hl). cbn [onChild] in IH.
    cbn [o_node o_panic]. destruct (IH krest value (path ++ [k0])) as [-> ->].
    split; reflexivity.
  - (* extension *)
    destruct (getDiffIndexFrom 0 k key) as [d|]; [|split; reflexivity].
    destruct (d =? length k)%nat.
    + destruct cs as [|[c|] rest]; [split; reflexivity| |split; reflexivity].
      apply Forall_cons_1 in IH as [IHc _]. cbn [onChild] in IHc.
      cbn [o_node o_panic].
      destruct (IHc (drop d key) value (path ++ take d key)) as [-> ->].
      split; reflexivity.
    + destruct (d <? length k - 1)%nat; [|destruct (mjoin (head cs))];
        cbv beta iota zeta.
      * destruct (hash_indep (newExt (drop (S d) k) (mjoin (head cs))) (path ++ take (S d) k))
          as [-> ->].
        destruct (o_panic (hash _ _ _ _ _)); [split; reflexivity|].
        repeat (destruct (setChild _ _ _)); split; reflexivity.
      * destruct (hash_indep s (path ++ k)) as [-> ->].
        destruct (o_panic (hash _ _ _ _ _)); [split; reflexivity|].
        repeat (destruct (setChild _ _ _)); split; reflexivity.
      * split; reflexivity.
  - (* leaf *)
    destruct (getDiffIndexFrom 0 k key) as [d|]; [|split; reflexivity].
    destruct (length k <=? d)%nat; [split; reflexivity|].
    destruct (setChild _ _ _); [|split; reflexivity].
    destruct (hash_indep (newLeaf (drop (S d) k) v) (path ++ take (S d) k)) as [-> ->].
    destruct (o_panic (hash _ _ _ _ _)); [split; reflexivity|].
    destruct (setChild _ _ _); split; reflexivity.
  - split; reflexivity.
Qed.
End Independence.

Lemma step_sameTrie t t' op :
  sameTrie t t' ->
  r_outcome (step t op) = r_outcome (step t' op) /\
  sameTrie (r_trie (step t op)) (r_trie (step t' op)).
Proof.
  destruct t as [o r f l], t' as [o' r' f' l']. intros (Hr & Hf & Hl).
  cbn [root first last] in Hr, Hf, Hl. subst r' f' l'.
  destruct op as [k v| |]; cbn [step].
  - rewrite !Update_TryUpdate. unfold TryUpdate. cbn [options root first last].
    destruct (length v =? 0)%nat; cbn [r_outcome r_trie]; [done|].
    match goal with
    | |- context [insert o ?a ?b ?c ?d ?e ?g] =>
        destruct (insert_indep o o' a b a b c d e g) as [Hn Hp]
    end.
    rewrite Hn, Hp. split; [reflexivity|]. split_and!; reflexivity.
  - unfold Hash. cbn [snd options root first last r_outcome r_trie].
    destruct (hash_indep o o' (boundary f) (boundary l) (boundary f) (boundary l) r [])
      as [Hn Hp].
    rewrite Hn, Hp. split; [reflexivity|]. split_and!; reflexivity.
  - unfold Commit, Hash. cbn [snd options root first last r_outcome r_trie].
    destruct (hash_indep o o' (boundary f) (boundary l) (boundary f) (boundary l) r [])
      as [Hn Hp].
    rewrite Hn, Hp. split; [reflexivity|]. split_and!; reflexivity.
Qed.

Lemma run_sameTrie ops : forall t t',
  sameTrie t t' ->
  r_outcome (run t ops) = r_outcome (run t' ops) /\
  sameTrie (r_trie (run t ops)) (r_trie (run t' ops)).
Proof.
  induction ops as [|op ops IH]; intros t t' Hsame; cbn [run]; [by split|].
  destruct (step_sameTrie t t' op Hsame) as [Hout Hnext].
  destruct (r_outcome (step t op)) eqn:H1; rewrite <- Hout.
  - cbn [r_outcome r_trie]. by apply IH.
  - split; [congruence|done].
Qed.

(** X6. The options change what is handed to the sinks and nothing else:
    two lifetimes with the same operations, whatever the options of each
    (writer, cleaner, boundaries to skip, gauge), end in the same way, with
    the same nodes and the same boundaries, and [Hash] returns the same
    digest for both. *)
Theorem options_do_not_change_the_trie (o1 o2 : option StackTrieOptions) (ops : list op) :
  let r1 := run (NewStackTrie o1) ops in
  let r2 := run (NewStackTrie o2) ops in
  r_outcome r1 = r_outcome r2 /\
  root (r_trie r1) = root (r_trie r2) /\
  first (r_trie r1) = first (r_trie r2) /\
  last (r_trie r1) = last (r_trie r2) /\
  (Hash (r_trie r1)).1 = (Hash (r_trie r2)).1.
Proof.
  intros r1 r2.
  destruct (run_sameTrie ops (NewStackTrie o1) (NewStackTrie o2)) as (Hout & Hr & Hf & Hl);
    [done|].
  fold r1 r2 in Hout, Hr, Hf, Hl.
  split_and!; [done|done|done|done|].
  unfold Hash. cbn [fst]. rewrite Hr, Hf, Hl.
  by destruct (hash_indep (options (r_trie r1)) (options (r_trie r2))
                 (boundary (first (r_trie r2))) (boundary (last (r_trie r2)))
                 (boundary (first (r_trie r2))) (boundary (last (r_trie r2)))
                 (root (r_trie r2)) []) as [-> _].
Qed.

(** ** The root and its digest *)

Section Root.
Variable o : StackTrieOptions.
Variables first last : list N.

(** An [insert] that returns leaves a branch, an extension node or a
    leaf. *)
Lemma insert_live st key value path :
  o_panic (insert o first last st key value path) = None ->
  typ (o_node (insert o first last st key value path)) <> emptyNode /\
  typ (o_node (insert o first last st key value path)) <> hashedNode.
Proof.
  destruct st as [ty k v cs]. destruct ty; cbn [insert]; try done.
  - (* branch *)
    destruct key as [|k0 krest]; [done|].
    destruct (unresolveElder _ _ _ _ _ _) as [[cs1 evs1] [p|]]; [done|].
    destruct (insertSlot _ _ _ _); done.
  - (* extension *)
    destruct (getDiffIndexFrom 0 k key) as [d|]; [|done].
    destruct (d =? length k)%nat eqn:Hd.
    + destruct cs as [|[c|] rest]; done.
    + destruct (d <? length k - 1)%nat; [|destruct (mjoin (head cs))];
        cbv beta iota zeta; try done.
      all: destruct (o_panic (hash _ _ _ _ _)); [done|].
      all: repeat (destruct (setChild _ _ _); [|done]).
      all: cbn [o_node]; unfold splitNode; by destruct (d =? 0)%nat.
  - (* leaf *)
    destruct (getDiffIndexFrom 0 k key) as [d|]; [|done].
    destruct (length k <=? d)%nat; [done|].
    destruct (setChild _ _ _); [|done].
    destruct (o_panic (hash _ _ _ _ _)); [done|].
    destruct (setChild _ _ _); [|done].
    cbn [o_node]. unfold splitNode. by destruct (d =? 0)%nat.
Qed.

(** [hash] at the root, when it returns from a node that was not hashed:
    the value of the root is the digest of its encoding, and the end of
    [hash] does what the options say. *)
Lemma hash_root st :
  typ st <> emptyNode -> typ st <> hashedNode ->
  o_panic (hash o first last st []) = None ->
  exists evs blob internal,
    val (o_node (hash o first last st [])) = hashData blob /\
    o_evs (hash o first last st []) =
      evs ++
      if negb (Writer o) then []
      else if SkipLeftBoundary o && HasPrefix first [] then gaugeInc o
      else if SkipRightBoundary o && HasPrefix last [] then gaugeInc o
      else map EvCleaner internal ++ [EvWriter [] (hashData blob) blob].
Proof.
  intros He Hh. rewrite hash_unfold.
  destruct (typ st) eqn:Hty; try done.
  all: destruct (hashSwitch _ _ _ _) as [[[[st1 blob] internal] evs] [p|]];
    cbn [o_panic]; [done|]; intros _.
  all: exists evs, blob, internal.
  all: unfold hashTail; cbn [length Nat.ltb Nat.leb andb].
  all: rewrite andb_false_r.
  all: rewrite (BytesToHash_32 (hashData blob)) by apply hashData_length.
  all: repeat (case_match; cbn [o_node o_evs val]).
  all: match goal with H : (_, _) = (_, _) |- _ => injection H as <- <- end.
  all: done.
Qed.
End Root.

Lemma HasPrefix_nil s : HasPrefix s [] = true.
Proof. by destruct s. Qed.

Lemma updates_live kvs : forall t,
  (0 < length kvs)%nat ->
  r_outcome (updates t kvs) = Returned None ->
  typ (root (r_trie (updates t kvs))) <> emptyNode /\
  typ (root (r_trie (updates t kvs))) <> hashedNode.
Proof.
  induction kvs as [|[k v] kvs IH]; intros t Hlen; cbn [updates].
  - simpl in Hlen. lia.
  - destruct (r_outcome (Update t k v)) as [e|p] eqn:Hout; cbn [r_outcome r_trie].
    2: { rewrite Hout. discriminate. }
    destruct kvs as [|kv kvs].
    + intros _. cbn [updates r_trie].
      rewrite Update_TryUpdate in Hout |- *. unfold TryUpdate in Hout |- *.
      destruct (length v =? 0)%nat; cbn [r_outcome r_trie root] in *; [discriminate|].
      apply insert_live. by destruct (o_panic _).
    + apply IH. simpl. lia.
Qed.

(** X7. With a writer and no boundary to skip, the [Hash] after one or more
    updates that returned ends by handing the root to the writer, at the
    empty path, under the digest that [Hash] returns, which is the Keccak-256
    digest of the blob; this holds also when the blob is shorter than 32
    bytes. *)
Theorem Hash_writes_the_root (o : StackTrieOptions) (kvs : list (list N * list N)) :
  Writer o = true -> SkipLeftBoundary o = false -> SkipRightBoundary o = false ->
  (0 < length kvs)%nat ->
  r_outcome (updates (NewStackTrie (Some o)) kvs) = Returned None ->
  let t := r_trie (updates (NewStackTrie (Some o)) kvs) in
  exists evs blob,
    r_evs (Hash t).2 = evs ++ [EvWriter [] (Hash t).1 blob] /\
    (Hash t).1 = hashData blob /\
    r_outcome (Hash t).2 = Returned None.
Proof.
  intros HW HL HR Hlen Hok t.
  pose proof (updates_wf (Some o) kvs None Hok) as Hwf. fold t in Hwf.
  destruct (updates_live kvs _ Hlen Hok) as [He Hh]. fold t in He, Hh.
  assert (options t = o) as Ho.
  { subst t. rewrite updates_run, run_options. done. }
  assert (o_panic (hash (options t) (boundary (first t)) (boundary (last t)) (root t) [])
          = None) as Hpan.
  { by destruct (hash_spec (options t) (boundary (first t)) (boundary (last t))
                   (root t) [] Hwf) as [? _]. }
  destruct (hash_root (options t) (boundary (first t)) (boundary (last t)) (root t)
              He Hh Hpan) as (evs & blob & internal & Hval & Hevs).
  rewrite <- Ho in HW, HL, HR.
  rewrite HW, HL, HR in Hevs. cbn [negb andb] in Hevs.
  exists (evs ++ map EvCleaner internal), blob.
  unfold Hash. cbn [fst snd r_evs r_outcome].
  rewrite Hpan, Hval, (BytesToHash_32 (hashData blob)) by apply hashData_length.
  split_and!; [|done|done].
  rewrite Hevs. by rewrite app_assoc.
Qed.

Lemma Hash_writes_the_root_witness :
  let t := r_trie (updates (NewStackTrie (Some writerOptions)) sampleThree) in
  exists evs blob, r_evs (Hash t).2 = evs ++ [EvWriter [] (Hash t).1 blob].
Proof.
  destruct (Hash_writes_the_root writerOptions sampleThree) as (evs & blob & H & _);
    [reflexivity|reflexivity|reflexivity|simpl; lia|vm_compute; reflexivity|].
  exists evs, blob. exact H.
Defined.

(** X8. [Hash] seals the trie: once it has returned, an [Update] with a
    value that is not empty panics ("trying to insert into hash"), hands
    nothing to the sinks and leaves the root as it is; only the boundaries
    [first] and [last] are moved beforehand. This holds for every trie,
    also for one on which no update was performed. *)
Theorem Update_after_Hash_panics (t : StackTrie) (key : list N) (b : N) (value : list N) :
  r_outcome (Hash t).2 = Returned None ->
  let t1 := r_trie (Hash t).2 in
  typ (root t1) = hashedNode /\
  Update t1 key (b :: value)
    = Result (mkStackTrie (options t) (root t1)
                (Some (default (hexKey key) (first t))) (Some (hexKey key)))
        [] (Panicked PanicInsertIntoHash).
Proof.
  intros Hret t1.
  assert (typ (root t1) = hashedNode) as Hty.
  { subst t1. unfold Hash in Hret |- *. cbn [snd r_outcome r_trie root] in *.
    apply hash_hashed. by destruct (o_panic _). }
  split; [done|].
  rewrite Update_TryUpdate. unfold TryUpdate. cbn [length Nat.eqb]. fold (hexKey key).
  destruct (root t1) as [ty k v cs] eqn:Hroot. cbn [typ] in Hty. subst ty.
  cbn [insert o_node o_evs o_panic].
  subst t1. unfold Hash. cbn [snd r_trie options first last].
  by destruct (first t).
Qed.

Lemma Update_after_Hash_panics_witness :
  r_outcome (Update (r_trie (Hash (NewStackTrie None)).2) [0x10] [1])
    = Panicked PanicInsertIntoHash.
Proof.
  destruct (Update_after_Hash_panics (NewStackTrie None) [0x10] 1 []) as [_ H];
    [reflexivity|].
  rewrite H. reflexivity.
Defined.

(** X9. The trie of a single key: after one [Update] on a new trie, [Hash]
    returns the Keccak-256 digest of the encoding of one leaf, the list of
    the compact form of the key's nibbles with the terminator and of the
    value, however short that encoding is. The leaf is handed to the
    writer at the empty path, unless a boundary is to be skipped: the only
    node is on both boundaries. *)
Theorem single_key_root (o : option StackTrieOptions) (key : list N) (b : N) (value : list N) :
  let opts := default NewStackTrieOptions o in
  let t := r_trie (Update (NewStackTrie o) key (b :: value)) in
  let blob := shortNode_encode (hexToCompact (keybytesToHex key)) (rlp_string (b :: value)) in
  r_outcome (Update (NewStackTrie o) key (b :: value)) = Returned None /\
  root t = StNode leafNode (hexKey key) (b :: value) noChildren /\
  Hash t = (hashData blob,
            Result (mkStackTrie opts (StNode hashedNode [] (hashData blob) noChildren)
                      (Some (hexKey key)) (Some (hexKey key)))
              (if negb (Writer opts) then []
               else if SkipLeftBoundary opts || SkipRightBoundary opts
                    then (if boundaryGauge opts then [EvGaugeInc] else [])
                    else [EvWriter [] (hashData blob) blob])
              (Returned None)).
Proof.
  intros opts t blob.
  assert (keybytesToHex key = hexKey key ++ [16]) as Hk.
  { unfold hexKey, keybytesToHex. by rewrite removelast_last. }
  split_and!; [done|done|].
  unfold Hash. subst t. rewrite Update_TryUpdate. unfold TryUpdate.
  cbn [length Nat.eqb NewStackTrie options root first last r_trie insert poolGet o_node
       o_evs o_panic boundary default].
  fold (hexKey key). fold opts.
  rewrite hash_unfold. cbn [typ hashSwitch]. rewrite <- Hk. fold blob.
  unfold hashTail. cbn [length Nat.ltb Nat.leb]. rewrite andb_false_r.
  rewrite !HasPrefix_nil, !andb_true_r.
  rewrite (BytesToHash_32 (hashData blob)) by apply hashData_length.
  unfold gaugeInc.
  destruct (Writer opts), (SkipLeftBoundary opts), (SkipRightBoundary opts);
    cbn [negb orb o_node o_evs o_panic val fst snd app map children];
    rewrite ?(BytesToHash_32 (hashData blob)) by apply hashData_length; reflexivity.
Qed.

(** ** The index of the first difference *)

Lemma getDiffIndexFrom_S nkey : forall idx k,
  getDiffIndexFrom (S idx) nkey k = S <$> getDiffIndexFrom idx nkey k.
Proof.
  induction nkey as [|a nkey IH]; intros idx [|b k]; cbn [getDiffIndexFrom]; try done.
  destruct (a =? b); [apply IH|done].
Qed.

Lemma getDiffIndexFrom_None nkey : forall k,
  getDiffIndexFrom 0 nkey k = None <-> exists x s, nkey = k ++ x :: s.
Proof.
  induction nkey as [|a nkey IH]; intros [|b k]; cbn [getDiffIndexFrom].
  - split; [done|]. by intros (x & s & ?).
  - split; [done|]. by intros (x & s & ?).
  - split; [eauto|done].
  - destruct (N.eqb_spec a b) as [->|Hne].
    + rewrite getDiffIndexFrom_S. destruct (getDiffIndexFrom 0 nkey k) eqn:Hg.
      * split; [done|]. intros (x & s & [= Hs]).
        assert (Some n = None) as Habs; [|done].
        rewrite <- Hg. apply IH. eauto.
      * split; [|done]. intros _. destruct (proj1 (IH k) Hg) as (x & s & ->). eauto.
    + split; [done|]. intros (x & s & [= ? _]). done.
Qed.

Lemma getDiffIndexFrom_Some nkey : forall k d,
  (d <= length nkey)%nat -> (d <= length k)%nat -> take d nkey = take d k ->
  ((d < length nkey)%nat -> (d < length k)%nat /\ nth d nkey 0 <> nth d k 0) ->
  getDiffIndexFrom 0 nkey k = Some d.
Proof.
  induction nkey as [|a nkey IH]; intros k d Hdn Hdk Ht Hne; cbn [getDiffIndexFrom].
  - simpl in Hdn. f_equal. lia.
  - destruct k as [|b k].
    + simpl in Hdk, Hne. assert (d = 0)%nat as -> by lia. simpl in Hne. lia.
    + destruct d as [|d].
      * destruct (Hne ltac:(simpl; lia)) as [_ Hab]. simpl in Hab.
        destruct (N.eqb_spec a b); done.
      * injection Ht as -> Ht. rewrite N.eqb_refl, getDiffIndexFrom_S.
        rewrite (IH k d); [done|simpl in *; lia|simpl in *; lia|done|].
        intros Hd. simpl in Hne. destruct Hne as [? ?]; [lia|]. split; [lia|done].
Qed.

(** X10. [getDiffIndex] returns the index of the first nibble at which the
    key of the node and the given key differ, or the length of the key of
    the node when the given key starts with it. It fails, with an index out
    of range, exactly when the given key is a proper prefix of the key of
    the node; [insert] then fails in the same way on a leaf and on an
    extension node, which it leaves as they are. *)
Theorem getDiffIndex_characterised (n : stNode) (k : list N) :
  (getDiffIndex n k = None <-> exists x s, key n = k ++ x :: s) /\
  (forall d, getDiffIndex n k = Some d <->
     (d <= length (key n))%nat /\ (d <= length k)%nat /\
     take d (key n) = take d k /\
     ((d < length (key n))%nat -> (d < length k)%nat /\ nth d (key n) 0 <> nth d k 0)) /\
  (forall o f l x s v cs value path,
     insert o f l (StNode leafNode (k ++ x :: s) v cs) k value path
       = Out (StNode leafNode (k ++ x :: s) v cs) [] (Some PanicIndex) /\
     insert o f l (StNode extNode (k ++ x :: s) v cs) k value path
       = Out (StNode extNode (k ++ x :: s) v cs) [] (Some PanicIndex)).
Proof.
  split_and!.
  - apply getDiffIndexFrom_None.
  - intros d. split; [apply getDiffIndex_spec|].
    intros (? & ? & ? & ?). by apply getDiffIndexFrom_Some.
  - intros o f l x s v cs value path.
    assert (getDiffIndexFrom 0 (k ++ x :: s) k = None) as Hg.
    { apply getDiffIndexFrom_None. eauto. }
    cbn [insert]. by rewrite Hg.
Qed.

Lemma getDiffIndex_characterised_witness :
  getDiffIndex (newLeaf [1; 2; 3] [7]) [1; 2] = None.
Proof.
  apply (proj1 (getDiffIndex_characterised (newLeaf [1; 2; 3] [7]) [1; 2])).
  by exists 3, [].
Defined.

(** ** The nodes an update writes, and the nodes [Hash] writes *)

Lemma HasPrefix_app_same a : forall b s, HasPrefix (a ++ b) (a ++ s) = HasPrefix b s.
Proof.
  induction a as [|x a IH]; intros b s; [done|].
  cbn [app HasPrefix]. by rewrite N.eqb_refl, IH.
Qed.

Lemma HasPrefix_take L i : HasPrefix L (take i L) = true.
Proof. apply HasPrefix_spec. exists (drop i L). by rewrite take_drop. Qed.

Lemma HasPrefix_diff k key d x :
  getDiffIndexFrom 0 k key = Some d -> (d < length k)%nat ->
  HasPrefix key (take (S d) k ++ x) = false.
Proof.
  intros (_ & _ & Ht & Hne)%getDiffIndex_spec Hd.
  destruct (Hne Hd) as [HdK Hab].
  rewrite (take_S_nth k d Hd), Ht, <- app_assoc.
  rewrite (split_at_nth key d HdK) at 1.
  rewrite HasPrefix_app_same. cbn [app HasPrefix].
  destruct (N.eqb_spec (nth d k 0) (nth d key 0)); done.
Qed.

Section Paths.
Variable o : StackTrieOptions.
Variables first last : list N.

Lemma hash_offPath K st path x e :
  HasPrefix K x = false ->
  e ∈ o_evs (hash o first last st (path ++ x)) -> offPath K path e.
Proof.
  intros HK He. apply hash_belowPath in He.
  destruct e; cbn [belowPath offPath] in *; [|done..].
  destruct He as [s ->]. exists (x ++ s). rewrite app_assoc. split; [done|].
  apply not_true_is_false. intros [y Hy]%HasPrefix_spec.
  assert (HasPrefix K x = true); [|congruence].
  apply HasPrefix_spec. exists (s ++ y). by rewrite app_assoc.
Qed.

Lemma unresolveElder_offPath cs path k0 krest : forall n e,
  (n <= N.to_nat k0)%nat ->
  e ∈ (unresolveElder o first last cs n path).1.2 -> offPath (k0 :: krest) path e.
Proof.
  induction n as [|n IH]; intros e Hn; cbn [unresolveElder].
  - cbn [fst snd]. intros He. inversion He.
  - destruct (cs !! n) as [[c|]|]; [|apply IH; lia|cbn [fst snd]; intros He; inversion He].
    destruct (decide (typ c = hashedNode)); cbn [fst snd].
    + intros He. inversion He.
    + apply hash_offPath. cbn [HasPrefix].
      destruct (N.eqb_spec (N.of_nat n) k0); [lia|done].
Qed.

(** The nodes that [insert] hashes are off the path of the new key. *)
Lemma insert_offPath st : forall key value path e,
  e ∈ o_evs (insert o first last st key value path) -> offPath key path e.
Proof.
  induction st as [ty k v cs IH] using stNode_ind.
  intros key value path e.
  destruct ty; cbn [insert o_evs]; try (intros He; by inversion He).
  - (* branch *)
    destruct key as [|k0 krest]; cbn [o_evs]; [intros He; by inversion He|].
    pose proof (unresolveElder_offPath cs path k0 krest (N.to_nat k0) e ltac:(lia)) as Hel.
    destruct (unresolveElder _ _ _ cs (N.to_nat k0) path) as [[cs1 evs1] [p|]];
      cbn [fst snd o_evs] in *; [done|].
    rewrite insertSlot_lookup.
    destruct (cs !! N.to_nat k0) as [[child|]|] eqn:Hl; cbn [o_evs]; [| |done].
    + rewrite Forall_lookup in IH. specialize (IH _ _ Hl). cbn [onChild] in IH.
      intros [He|He]%elem_of_app; [auto|].
      apply IH in He. destruct e; cbn [offPath] in *; [|done..].
      destruct He as (s & -> & Hs). exists (k0 :: s). rewrite <- app_assoc.
      split; [done|]. cbn [HasPrefix]. by rewrite N.eqb_refl.
    + rewrite app_nil_r. done.
  - (* extension *)
    destruct (getDiffIndexFrom 0 k key) as [d|] eqn:Hd; cbn [o_evs];
      [|intros He; by inversion He].
    pose proof (getDiffIndex_spec _ _ _ Hd) as (Hdk & HdK & Ht & _).
    destruct (Nat.eqb_spec d (length k)) as [->|Hne].
    + destruct cs as [|[c|] rest]; cbn [o_evs]; try (intros He; by inversion He).
      apply Forall_cons_1 in IH as [IHc _]. cbn [onChild] in IHc.
      intros He. apply IHc in He. destruct e; cbn [offPath] in *; [|done..].
      destruct He as (s & -> & Hs). exists (take (length k) key ++ s).
      rewrite app_assoc. split; [done|].
      rewrite <- (take_drop (length k) key) at 1. by rewrite HasPrefix_app_same.
    + assert (d < length k)%nat as Hlt by lia.
      destruct (d <? length k - 1)%nat; [|destruct (mjoin (head cs))];
        cbv beta iota zeta.
      * assert (HasPrefix key (take (S d) k) = false) as Hoff.
        { rewrite <- (app_nil_r (take (S d) k)). by eapply HasPrefix_diff. }
        pose proof (hash_offPath key (newExt (drop (S d) k) (mjoin (head cs))) path
                      (take (S d) k) e Hoff) as Hhash.
        destruct (o_panic (hash _ _ _ _ _)); cbn [o_evs]; [done|].
        repeat (destruct (setChild _ _ _); cbn [o_evs]); done.
      * assert (HasPrefix key k = false) as Hoff.
        { rewrite <- (take_drop (S d) k). by eapply HasPrefix_diff. }
        pose proof (hash_offPath key s path k e Hoff) as Hhash.
        destruct (o_panic (hash _ _ _ _ _)); cbn [o_evs]; [done|].
        repeat (destruct (setChild _ _ _); cbn [o_evs]); done.
      * cbn [o_evs]. intros He. inversion He.
  - (* leaf *)
    destruct (getDiffIndexFrom 0 k key) as [d|] eqn:Hd; cbn [o_evs];
      [|intros He; by inversion He].
    destruct (Nat.leb_spec (length k) d) as [|Hlt]; cbn [o_evs]; [intros He; by inversion He|].
    destruct (setChild _ _ _); cbn [o_evs]; [|intros He; by inversion He].
    assert (HasPrefix key (take (S d) k) = false) as Hoff.
    { rewrite <- (app_nil_r (take (S d) k)). by eapply HasPrefix_diff. }
    pose proof (hash_offPath key (newLeaf (drop (S d) k) v) path (take (S d) k) e Hoff)
      as Hhash.
    destruct (o_panic (hash _ _ _ _ _)); cbn [o_evs]; [done|].
    destruct (setChild _ _ _); cbn [o_evs]; done.
Qed.

Lemma onPath_tail L st path blob internal e :
  internal = [] \/ (exists k, HasPrefix L k = true /\ internal = internalPaths path k) ->
  e ∈ (hashTail o first last st path blob internal).2 -> onPath L path e.
Proof.
  intros Hint.
  destruct (hashTail_events o first last st path blob internal) as [-> | [-> | ->]].
  - intros He. inversion He.
  - intros ->%list_elem_of_singleton. exact I.
  - intros [He| ->%list_elem_of_singleton]%elem_of_app.
    + apply list_elem_of_fmap in He as (q & -> & Hq). cbn [onPath].
      destruct Hint as [->|(k & Hk & ->)]; [inversion Hq|].
      apply elem_of_internalPaths in Hq as (i & Hi & ->).
      exists (take i k). split; [done|].
      apply HasPrefix_spec in Hk as [x ->].
      apply HasPrefix_spec. exists (drop i k ++ x). by rewrite app_assoc, take_drop.
    + cbn [onPath]. exists []. rewrite app_nil_r. split; [done|]. apply HasPrefix_nil.
Qed.

Lemma onPath_child L path x e :
  onPath L (path ++ x) e -> onPath (x ++ L) path e.
Proof.
  destruct e; cbn [onPath]; [| |done..].
  all: intros (s & -> & Hs); exists (x ++ s); rewrite app_assoc; split; [done|].
  all: by rewrite HasPrefix_app_same.
Qed.

Lemma hashChildren_onPath path j c L cs : forall i,
  (forall m n, cs !! m = Some (Some n) ->
     ((i + m < j)%nat -> typ n = hashedNode) /\
     ((i + m = j)%nat -> n = c) /\ (i + m <= j)%nat) ->
  (forall e, e ∈ o_evs (hash o first last c (path ++ [N.of_nat j])) ->
             onPath L (path ++ [N.of_nat j]) e) ->
  forall e, e ∈ (hashChildren (hash o first last) path cs i).1.2 ->
            onPath (N.of_nat j :: L) path e.
Proof.
  induction cs as [|c0 cs IH]; intros i Hcs Hc e; cbn [hashChildren].
  - cbn [fst snd]. intros He. inversion He.
  - assert (e ∈ (hashChildren (hash o first last) path cs (S i)).1.2 ->
            onPath (N.of_nat j :: L) path e) as Hrest.
    { apply IH; [|done]. intros m n Hm.
      destruct (Hcs (S m) n Hm) as (H1 & H2 & H3).
      split_and!; [intros; apply H1; lia|intros; apply H2; lia|lia]. }
    destruct c0 as [c0|].
    + destruct (Hcs 0%nat c0 eq_refl) as (H1 & H2 & H3).
      assert (e ∈ o_evs (hash o first last c0 (path ++ [N.of_nat i])) ->
              onPath (N.of_nat j :: L) path e) as Hhere.
      { destruct (decide (i = j)) as [->|Hij].
        - rewrite (H2 ltac:(lia)). intros He. by apply (onPath_child L path [N.of_nat j]), Hc.
        - rewrite hash_noop by (apply H1; lia). intros He. inversion He. }
      destruct (o_panic (hash o first last c0 (path ++ [N.of_nat i]))).
      * cbn [fst snd]. done.
      * destruct (hashChildren _ _ cs (S i)) as [[[refs cs'] evs] pan].
        cbn [fst snd] in *. intros [He|He]%elem_of_app; auto.
    + destruct (hashChildren _ _ cs (S i)) as [[[refs cs'] evs] pan].
      cbn [fst snd] in *. done.
Qed.

(** The nodes that [hash] hashes below a node are on its frontier. *)
Lemma hash_onPath st L : frontier st L -> forall path e,
  e ∈ o_evs (hash o first last st path) -> onPath L path e.
Proof.
  induction 1 as [k v cs|k v c rest L Hc IH|k v cs j c L Hj Hc IH Hleft Hright];
    intros path e; rewrite hash_unfold; cbn [typ hashSwitch].
  - (* leaf *)
    destruct (hashTail _ _ _ _ _ _ _) as [st' evs'] eqn:Htail; cbn [o_evs app].
    intros He. eapply (onPath_tail _ _ _ _ []); [by left|]. by rewrite Htail.
  - (* extension *)
    cbv zeta.
    assert (forall e, e ∈ o_evs (hash o first last c (path ++ k)) -> onPath (k ++ L) path e)
      as Hch.
    { intros e' He'. by apply onPath_child, IH. }
    destruct (o_panic (hash o first last c (path ++ k))); cbn [o_evs]; [by apply Hch|].
    destruct (hashTail _ _ _ _ _ _ _) as [st' evs'] eqn:Htail; cbn [o_evs].
    intros [He|He]%elem_of_app; [by apply Hch|].
    eapply onPath_tail; [|by rewrite Htail].
    destruct (_ && _); [|by left]. right. exists k. split; [|done].
    apply HasPrefix_spec. by exists L.
  - (* branch *)
    pose proof (hashChildren_onPath path (N.to_nat j) c L cs 0%nat) as Hch.
    rewrite N2Nat.id in Hch.
    assert (forall e, e ∈ (hashChildren (hash o first last) path cs 0%nat).1.2 ->
                      onPath (j :: L) path e) as Hch'.
    { apply Hch; [|by intros; apply IH].
      intros m n Hm. cbn [Nat.add]. split_and!.
      - intros. by eapply Hleft.
      - intros ->. congruence.
      - destruct (decide (m <= N.to_nat j)%nat); [done|].
        exfalso. eapply (Hright m); [lia|done]. }
    destruct (hashChildren _ _ cs 0%nat) as [[[refs cs'] evs] [p|]]; cbn [fst snd o_evs] in *;
      [by apply Hch'|].
    destruct (hashTail _ _ _ _ _ _ _) as [st' evs'] eqn:Htail; cbn [o_evs].
    intros [He|He]%elem_of_app; [by apply Hch'|].
    eapply (onPath_tail _ _ _ _ []); [by left|]. by rewrite Htail.
Qed.
End Paths.

(** X11. An [Update] never hands to the writer a node on the path of the
    key it inserts: no path written during the call is a prefix of the
    nibble path of the new key, whatever the trie and its options. The
    nodes on the way to the newest key stay open. *)
Theorem Update_writes_off_the_new_path (t : StackTrie) (key value p : list N) :
  p ∈ writerPaths (r_evs (Update t key value)) ->
  HasPrefix (hexKey key) p = false.
Proof.
  intros (h & b & He)%writerPaths_elem. revert He.
  rewrite Update_TryUpdate. unfold TryUpdate.
  destruct (length value =? 0)%nat; cbn [r_evs]; [intros He; by inversion He|].
  intros He. apply insert_offPath in He. cbn [offPath] in He.
  by destruct He as (s & -> & Hs).
Qed.

(** X12. After updates with strictly increasing keys that returned, [Hash]
    hands to the writer and to the cleaner only paths on the right
    boundary: every one is a prefix of the nibble path of the last key
    inserted. All other nodes were written by the updates. *)
Theorem Hash_writes_the_right_boundary (o : option StackTrieOptions)
    (kvs : list (list N * list N)) (n : nat) (k v : list N) (p : list N) :
  strictlyIncreasing kvs.*1 = true ->
  kvs !! n = Some (k, v) ->
  r_outcome (updates (NewStackTrie o) (take (S n) kvs)) = Returned None ->
  let t := r_trie (updates (NewStackTrie o) (take (S n) kvs)) in
  p ∈ writerPaths (r_evs (Hash t).2) \/ p ∈ cleanerPaths (r_evs (Hash t).2) ->
  HasPrefix (hexKey k) p = true.
Proof.
  intros Hinc Hn Hok t Hp.
  destruct (updates_take_trieInv o kvs n k v Hinc Hn Hok) as (_ & _ & Hfr).
  fold t in Hfr.
  assert (exists e, e ∈ r_evs (Hash t).2 /\
            match e with
            | EvWriter q _ _ => q = p
            | EvCleaner q => q = p
            | _ => False
            end) as (e & He & Hq).
  { destruct Hp as [(h & b & He)%writerPaths_elem|Hp].
    - by exists (EvWriter p h b).
    - unfold cleanerPaths in Hp. apply list_elem_of_omap in Hp as (e & He & Heq).
      exists e. split; [done|]. destruct e; try discriminate. by injection Heq. }
  unfold Hash in He. cbn [snd r_evs] in He.
  apply (hash_onPath _ _ _ _ _ Hfr) in He.
  destruct e; cbn [onPath] in He; try done; subst.
  all: by destruct He as (s & -> & Hs).
Qed.

Lemma Update_writes_off_the_new_path_witness :
  HasPrefix (hexKey [0x10; 0x01]) [1; 0; 0; 0] = false.
Proof.
  apply (Update_writes_off_the_new_path
           (r_trie (updates (NewStackTrie (Some writerOptions)) (take 1 sampleBig)))
           [0x10; 0x01] (replicate 40 2) [1; 0; 0; 0]).
  vm_compute. apply list_elem_of_here.
Defined.

Lemma Hash_writes_the_right_boundary_witness :
  HasPrefix (hexKey [0x20; 0x00]) [2] = true.
Proof.
  apply (Hash_writes_the_right_boundary (Some writerOptions) sampleBig 2
           [0x20; 0x00] (replicate 40 3) [2]).
  - reflexivity.
  - reflexivity.
  - vm_compute; reflexivity.
  - left. vm_compute. apply list_elem_of_here.
Defined.

(** ** The nodes a trie holds *)

Lemma sum_list_with_bound {A} (h : A -> nat) b l :
  Forall (fun x => h x <= b)%nat l -> (sum_list_with h l <= b * length l)%nat.
Proof. induction 1; simpl; lia. Qed.

Lemma countNodes_unfold f ty k v cs :
  countNodes f (StNode ty k v cs)
  = ((if f (StNode ty k v cs) then 1 else 0) +
     sum_list_with (fun c => match c with
                             | Some n => countNodes f n
                             | None => 0
                             end) cs)%nat.
Proof. reflexivity. Qed.

Lemma countNodes_noChildren f ty k v :
  countNodes f (StNode ty k v noChildren) = if f (StNode ty k v noChildren) then 1%nat else 0%nat.
Proof. rewrite countNodes_unfold. cbn [noChildren replicate sum_list_with]. lia. Qed.

Lemma countNodes_branch f b cs j c :
  cs !! j = Some (Some c) ->
  (forall i n, (i < j)%nat -> cs !! i = Some (Some n) -> (countNodes f n <= b)%nat) ->
  (forall i n, (j < i)%nat -> cs !! i <> Some (Some n)) ->
  (sum_list_with (fun c => match c with
                           | Some n => countNodes f n
                           | None => 0
                           end) cs <= b * j + countNodes f c)%nat.
Proof.
  intros Hj Hleft Hright.
  rewrite <- (take_drop_middle cs j (Some c) Hj), sum_list_with_app.
  cbn [sum_list_with].
  assert (j < length cs)%nat as Hlen by (eapply lookup_lt_Some; eauto).
  assert (sum_list_with (fun c => match c with
                                  | Some n => countNodes f n
                                  | None => 0
                                  end) (take j cs) <= b * j)%nat as H1.
  { etrans; [apply (sum_list_with_bound _ b)|rewrite length_take; nia].
    apply Forall_lookup. intros i [n|] Hi; [|lia].
    apply lookup_take_Some in Hi as [Hi ?]. eauto. }
  assert (sum_list_with (fun c => match c with
                                  | Some n => countNodes f n
                                  | None => 0
                                  end) (drop (S j) cs) = 0)%nat as H2.
  { assert (sum_list_with (fun c => match c with
                                    | Some n => countNodes f n
                                    | None => 0
                                    end) (drop (S j) cs) <= 0 * length (drop (S j) cs))%nat;
      [|lia].
    apply sum_list_with_bound, Forall_lookup. intros i [n|] Hi; [|lia].
    rewrite lookup_drop in Hi. exfalso. eapply (Hright (S j + i)%nat); [lia|done]. }
  lia.
Qed.

Lemma frontier_count st L :
  frontier st L -> wf st ->
  (unhashed st <= length L + 1)%nat /\ (held st <= 16 * length L + 1)%nat.
Proof.
  unfold unhashed, held.
  induction 1 as [k v cs|k v c rest L Hc IH|k v cs j c L Hj Hc IH Hleft Hright]; intros Hwf.
  - (* leaf *)
    inversion Hwf; subst. rewrite !countNodes_noChildren.
    split; [destruct (negb _)|]; lia.
  - (* extension *)
    inversion Hwf as [| | |? ? ? Hk Hwfc|]; subst.
    destruct (IH Hwfc) as [IH1 IH2].
    rewrite !countNodes_unfold. cbn [sum_list_with replicate typ].
    rewrite length_app. destruct k; [done|]. cbn [length].
    split; [destruct (negb _)|]; lia.
  - (* branch *)
    inversion Hwf as [| | | |? ? ? Hlen Hwfcs]; subst.
    destruct (IH (Hwfcs _ _ Hj)) as [IH1 IH2].
    assert (N.to_nat j < 16)%nat as Hj16.
    { rewrite <- Hlen. eapply lookup_lt_Some; eauto. }
    assert (forall i n, (i < N.to_nat j)%nat -> cs !! i = Some (Some n) ->
              exists k' v', n = StNode hashedNode k' v' noChildren) as Hhashed.
    { intros i n Hi Hl. pose proof (Hleft i n Hi Hl) as Hty.
      pose proof (Hwfcs i n Hl) as Hwfn.
      inversion Hwfn; subst; cbn [typ] in Hty; try discriminate. eauto. }
    rewrite !countNodes_unfold. cbn [typ]. split.
    + pose proof (countNodes_branch (fun n => negb (bool_decide (typ n = hashedNode)))
                    0 cs (N.to_nat j) c Hj) as Hb.
      cbn [length]. etrans; [apply Nat.add_le_mono_l, Hb|destruct (negb _); lia]; [|done].
      intros i n Hi Hl. destruct (Hhashed i n Hi Hl) as (k' & v' & ->).
      rewrite countNodes_noChildren. cbn [typ]. by rewrite bool_decide_eq_true_2.
    + pose proof (countNodes_branch (fun _ => true) 1 cs (N.to_nat j) c Hj) as Hb.
      cbn [length]. etrans; [apply Nat.add_le_mono_l, Hb|lia]; [|done].
      intros i n Hi Hl. destruct (Hhashed i n Hi Hl) as (k' & v' & ->).
      by rewrite countNodes_noChildren.
Qed.

Lemma length_hexKey k : length (hexKey k) = (2 * length k)%nat.
Proof.
  rewrite hexKey_eq. induction k as [|b k IH]; [done|].
  cbn [flat_map app length]. lia.
Qed.

(** X13. After updates with strictly increasing keys that returned, the
    trie holds few nodes: the nodes that are not hashed are at most one
    more than the nibbles of the last key, that is [2 * len key + 1], and
    all the nodes it holds, the hashed children of the branches on the way
    included, are at most [32 * len key + 1]. The size of the trie does not
    grow with the number of keys. *)
Theorem trie_holds_few_nodes (o : option StackTrieOptions)
    (kvs : list (list N * list N)) (n : nat) (k v : list N) :
  strictlyIncreasing kvs.*1 = true ->
  kvs !! n = Some (k, v) ->
  r_outcome (updates (NewStackTrie o) (take (S n) kvs)) = Returned None ->
  let t := r_trie (updates (NewStackTrie o) (take (S n) kvs)) in
  (unhashed (root t) <= 2 * length k + 1)%nat /\
  (held (root t) <= 32 * length k + 1)%nat.
Proof.
  intros Hinc Hn Hok t.
  destruct (updates_take_trieInv o kvs n k v Hinc Hn Hok) as (Hwf & _ & Hfr).
  fold t in Hwf, Hfr.
  destruct (frontier_count _ _ Hfr Hwf) as [H1 H2].
  rewrite length_hexKey in H1, H2. split; lia.
Qed.

Lemma trie_holds_few_nodes_witness :
  (held (root (r_trie (updates (NewStackTrie (Some writerOptions)) (take 3 sampleFour))))
   <= 65)%nat.
Proof.
  refine (proj2 (trie_holds_few_nodes (Some writerOptions) sampleFour 2 [0x10; 0x20] [3]
                   _ _ _)).
  - reflexivity.
  - reflexivity.
  - vm_compute; reflexivity.
Defined.

(** ** What [hash] leaves *)

Lemma hashTail_val o first last st path blob internal :
  let n := (hashTail o first last st path blob internal).1 in
  (val n = hashData blob /\ ((32 <= length blob)%nat \/ path = [])) \/
  (val n = blob /\ (length blob < 32)%nat /\ path <> []).
Proof.
  unfold hashTail.
  destruct (Nat.ltb_spec (length blob) 32) as [Hlt|Hge]; cbn [andb].
  - destruct path as [|x path]; cbn [length Nat.ltb Nat.leb].
    + left. repeat case_match; cbn [fst val]; auto.
    + right. cbn [fst val]. auto.
  - left. repeat case_match; cbn [fst val]; auto.
Qed.

Lemma wf_hashed_children n : wf n -> typ n = hashedNode -> children n = noChildren.
Proof. destruct 1; cbn [typ children]; try discriminate. done. Qed.

Lemma hash_fresh o first last st path :
  typ st <> hashedNode ->
  o_panic (hash o first last st path) = None ->
  let n := o_node (hash o first last st path) in
  key n = [] /\
  ((length (val n) = 32%nat) \/ ((length (val n) < 32)%nat /\ path <> [])) /\
  (typ st = emptyNode -> val n = emptyRoot).
Proof.
  intros Hty. rewrite hash_unfold.
  destruct (typ st) eqn:Hst; try done.
  - intros _. cbn [o_node key val]. split_and!; [done|by left|done].
  - destruct (hashSwitch _ _ _ _) as [[[[st1 blob] internal] evs] [p|]];
      cbn [o_panic]; [done|]; intros _.
    pose proof (hashTail_node o first last st1 path blob internal) as (_ & Hk & _).
    pose proof (hashTail_val o first last st1 path blob internal) as Hv.
    destruct (hashTail _ _ _ _ _ _ _) as [st' evs']; cbn [fst o_node] in *.
    split_and!; [done| |done].
    destruct Hv as [[-> _]|(-> & ? & ?)]; [left; apply hashData_length|by right].
  - destruct (hashSwitch _ _ _ _) as [[[[st1 blob] internal] evs] [p|]];
      cbn [o_panic]; [done|]; intros _.
    pose proof (hashTail_node o first last st1 path blob internal) as (_ & Hk & _).
    pose proof (hashTail_val o first last st1 path blob internal) as Hv.
    destruct (hashTail _ _ _ _ _ _ _) as [st' evs']; cbn [fst o_node] in *.
    split_and!; [done| |done].
    destruct Hv as [[-> _]|(-> & ? & ?)]; [left; apply hashData_length|by right].
  - destruct (hashSwitch _ _ _ _) as [[[[st1 blob] internal] evs] [p|]];
      cbn [o_panic]; [done|]; intros _.
    pose proof (hashTail_node o first last st1 path blob internal) as (_ & Hk & _).
    pose proof (hashTail_val o first last st1 path blob internal) as Hv.
    destruct (hashTail _ _ _ _ _ _ _) as [st' evs']; cbn [fst o_node] in *.
    split_and!; [done| |done].
    destruct Hv as [[-> _]|(-> & ? & ?)]; [left; apply hashData_length|by right].
Qed.

(** X14. [hash] on a well-formed node that is not hashed yet returns and
    leaves a hashed node with an empty key and no children; its value is at
    most 32 bytes long: the 32 bytes of a digest, or the encoding of the
    node when that is shorter than 32 bytes and the node is not the root.
    At the root the value is always a digest of 32 bytes; for an empty
    node it is the empty-root constant. *)
Theorem hash_leaves_a_hashed_node (o : StackTrieOptions) (first last : list N)
    (st : stNode) (path : list N) :
  wf st -> typ st <> hashedNode ->
  let n := o_node (hash o first last st path) in
  o_panic (hash o first last st path) = None /\
  typ n = hashedNode /\ key n = [] /\ children n = noChildren /\
  (length (val n) <= 32)%nat /\
  (path = [] -> length (val n) = 32%nat) /\
  (typ st = emptyNode -> val n = emptyRoot).
Proof.
  intros Hwf Hty n.
  destruct (hash_spec o first last st path Hwf) as (Hpan & Hwf' & Hty' & _).
  fold n in Hwf', Hty'.
  destruct (hash_fresh o first last st path Hty Hpan) as (Hk & Hv & He).
  fold n in Hk, Hv, He.
  split_and!; [done|done|done|by apply wf_hashed_children| | |done].
  - destruct Hv as [->|[? _]]; lia.
  - intros ->. by destruct Hv as [?|[_ ?]].
Qed.

Lemma hash_leaves_a_hashed_node_witness :
  children (o_node (hash writerOptions [] [] (newLeaf [1] [2]) [3])) = noChildren.
Proof.
  destruct (hash_leaves_a_hashed_node writerOptions [] [] (newLeaf [1] [2]) [3])
    as (_ & _ & _ & H & _).
  - apply wf_leaf.
  - discriminate.
  - exact H.
Defined.

(** ** The sinks are handed paths made of nibbles *)

Lemma nibbleTree_inv ty k v cs :
  nibbleTree (StNode ty k v cs) ->
  nibbles k /\ forall i c, cs !! i = Some (Some c) -> nibbleTree c.
Proof. by inversion 1. Qed.

Lemma nibbleTree_noChildren ty k v : nibbles k -> nibbleTree (StNode ty k v noChildren).
Proof.
  intros Hk. constructor; [done|]. intros i c Hl.
  apply lookup_replicate in Hl as [? _]. done.
Qed.

Lemma nibbles_app a b : nibbles a -> nibbles b -> nibbles (a ++ b).
Proof. intros. by apply Forall_app. Qed.

Lemma nibbles_take i a : nibbles a -> nibbles (take i a).
Proof. apply Forall_take. Qed.

Lemma nibbles_drop i a : nibbles a -> nibbles (drop i a).
Proof. apply Forall_drop. Qed.

Lemma nibbles_slot path i : nibbles path -> (i < 16)%nat -> nibbles (path ++ [N.of_nat i]).
Proof. intros Hp Hi. apply nibbles_app; [done|]. repeat constructor. lia. Qed.

Section NibblePaths.
Variable o : StackTrieOptions.
Variables first last : list N.

Lemma hashTail_sinkNibbles st path blob internal e :
  nibbles path ->
  internal = [] \/ (exists k, nibbles k /\ internal = internalPaths path k) ->
  e ∈ (hashTail o first last st path blob internal).2 -> sinkNibbles e.
Proof.
  intros Hp Hint.
  destruct (hashTail_events o first last st path blob internal) as [-> | [-> | ->]].
  - intros He. inversion He.
  - intros ->%list_elem_of_singleton. exact I.
  - intros [He| ->%list_elem_of_singleton]%elem_of_app; [|done].
    apply list_elem_of_fmap in He as (q & -> & Hq). cbn [sinkNibbles].
    destruct Hint as [->|(k & Hk & ->)]; [inversion Hq|].
    apply elem_of_internalPaths in Hq as (i & Hi & ->).
    by apply nibbles_app, nibbles_take.
Qed.

Lemma hashChildren_sinkNibbles path cs :
  nibbles path ->
  Forall (onChild (fun n => wf n -> nibbleTree n -> forall path e,
            nibbles path -> e ∈ o_evs (hash o first last n path) -> sinkNibbles e)) cs ->
  (forall i c, cs !! i = Some (Some c) -> wf c /\ nibbleTree c) ->
  forall i e, (i + length cs <= 16)%nat ->
    e ∈ (hashChildren (hash o first last) path cs i).1.2 -> sinkNibbles e.
Proof.
  intros Hp. induction 1 as [|c cs Hc Hcs IH]; intros Hok i e Hi; cbn [hashChildren].
  - cbn [fst snd]. intros He. inversion He.
  - cbn [length] in Hi.
    assert (e ∈ (hashChildren (hash o first last) path cs (S i)).1.2 -> sinkNibbles e) as Hrest.
    { apply IH; [|lia]. intros i' c' Hl. apply (Hok (S i')). done. }
    destruct c as [c|].
    + destruct (Hok 0%nat c eq_refl) as [Hwfc Hnc].
      assert (e ∈ o_evs (hash o first last c (path ++ [N.of_nat i])) -> sinkNibbles e) as Hhere.
      { apply Hc; [done|done|]. apply nibbles_slot; [done|lia]. }
      destruct (o_panic (hash o first last c (path ++ [N.of_nat i]))).
      * cbn [fst snd]. done.
      * destruct (hashChildren _ _ cs (S i)) as [[[refs cs'] evs] pan].
        cbn [fst snd] in *. intros [He|He]%elem_of_app; auto.
    + destruct (hashChildren _ _ cs (S i)) as [[[refs cs'] evs] pan].
      cbn [fst snd] in *. done.
Qed.

Lemma hash_sinkNibbles st : wf st -> nibbleTree st -> forall path e,
  nibbles path -> e ∈ o_evs (hash o first last st path) -> sinkNibbles e.
Proof.
  induction st as [ty k v cs IH] using stNode_ind.
  intros Hwf [Hk Hcs]%nibbleTree_inv path e Hp. rewrite hash_unfold.
  inversion Hwf as [| | |? ? c Hkne Hc|? ? ? Hlen Hwfcs]; subst; cbn [typ hashSwitch o_evs].
  - intros He. inversion He.
  - (* leaf *)
    destruct (hashTail _ _ _ _ _ _ _) as [st' evs'] eqn:Htail; cbn [o_evs app].
    intros He. eapply (hashTail_sinkNibbles _ _ _ []); [done|by left|]. by rewrite Htail.
  - intros He. inversion He.
  - (* extension *)
    apply Forall_cons_1 in IH as [IHc _]. cbn [onChild] in IHc.
    cbv zeta.
    assert (e ∈ o_evs (hash o first last c (path ++ k)) -> sinkNibbles e) as Hch.
    { apply IHc; [done|by apply (Hcs 0%nat)|by apply nibbles_app]. }
    destruct (o_panic (hash o first last c (path ++ k))); cbn [o_evs]; [done|].
    destruct (hashTail _ _ _ _ _ _ _) as [st' evs'] eqn:Htail; cbn [o_evs].
    intros [He|He]%elem_of_app; [auto|].
    eapply hashTail_sinkNibbles; [done| |by rewrite Htail].
    destruct (_ && _); eauto.
  - (* branch *)
    pose proof (hashChildren_sinkNibbles path cs Hp) as Hch.
    assert (forall e, e ∈ (hashChildren (hash o first last) path cs 0%nat).1.2 ->
                      sinkNibbles e) as Hch'.
    { intros e'. apply Hch; [|by eauto|lia].
      eapply Forall_impl; [exact IH|]. intros [n|]; cbn [onChild]; auto. }
    destruct (hashChildren _ _ cs 0%nat) as [[[refs cs'] evs] [p|]]; cbn [fst snd o_evs] in *;
      [by apply Hch'|].
    destruct (hashTail _ _ _ _ _ _ _) as [st' evs'] eqn:Htail; cbn [o_evs].
    intros [He|He]%elem_of_app; [auto|].
    eapply (hashTail_sinkNibbles _ _ _ []); [done|by left|]. by rewrite Htail.
Qed.

Lemma hash_nibbleTree st path :
  wf st -> nibbleTree st -> nibbleTree (o_node (hash o first last st path)).
Proof.
  intros Hwf Hn.
  destruct (decide (typ st = hashedNode)) as [Hty|Hty].
  - by rewrite hash_noop.
  - destruct (hash_spec o first last st path Hwf) as (Hpan & Hwf' & Hty' & _).
    pose proof (wf_hashed_children _ Hwf' Hty') as Hcs.
    destruct (hash_fresh o first last st path Hty Hpan) as (Hk & _).
    destruct (o_node (hash o first last st path)) as [ty k v cs].
    cbn [children key] in *. subst. apply nibbleTree_noChildren. constructor.
Qed.
End NibblePaths.

Lemma split_nibbleTree d cs k v a b n l :
  cs = noChildren \/ (exists c, cs = Some c :: replicate 15 None) ->
  nibbles k -> nibbleTree n -> nibbleTree l ->
  nibbleTree (splitNode d cs k v (<[b := Some l]> (<[a := Some n]> noChildren))).
Proof.
  intros Hcs Hk Hn Hl. rewrite splitNode_wf by done.
  assert (forall i c, (<[b := Some l]> (<[a := Some n]> noChildren)) !! i = Some (Some c) ->
            nibbleTree c) as Hpair.
  { intros i c [(_ & [= <-] & _)|[_ Hi]]%list_lookup_insert_Some; [done|].
    apply list_lookup_insert_Some in Hi as [(_ & [= <-] & _)|[_ Hi]]; [done|].
    apply lookup_replicate in Hi as [? _]. done. }
  destruct (d =? 0)%nat.
  - by constructor.
  - constructor; [done|]. intros [|i] c; cbn [lookup list_lookup].
    + intros [= <-]. constructor; [constructor|done].
    + intros Hi. apply lookup_replicate in Hi as [? _]. done.
Qed.

Section NibbleInsert.
Variable o : StackTrieOptions.
Variables first last : list N.

Lemma insert_leaf_nibbles k v : (nibbleSpec o first last) (StNode leafNode k v noChildren).
Proof.
  intros key value path Hwf [Hk _]%nibbleTree_inv HK Hp. cbn [insert].
  destruct (getDiffIndexFrom 0 k key) as [d|]; cbn [o_evs o_panic];
    [|split; [intros e He; inversion He|done]].
  destruct (length k <=? d)%nat; cbn [o_evs o_panic];
    [split; [intros e He; inversion He|done]|].
  rewrite (splitBase_wf d noChildren) by auto.
  destruct (setChild noChildren (nth d k 0) _) as [pcs1|]; cbn [o_evs o_panic];
    [|split; [intros e He; inversion He|done]].
  assert (wf (newLeaf (drop (S d) k) v)) as Hwfl by apply wf_leaf.
  assert (nibbleTree (newLeaf (drop (S d) k) v)) as Hnl.
  { by apply nibbleTree_noChildren, nibbles_drop. }
  pose proof (hash_sinkNibbles o first last _ Hwfl Hnl (path ++ take (S d) k)) as Hev.
  pose proof (hash_nibbleTree o first last _ (path ++ take (S d) k) Hwfl Hnl) as Hn.
  set (r := hash o first last (newLeaf (drop (S d) k) v) (path ++ take (S d) k)) in *.
  assert (forall e, e ∈ o_evs r -> sinkNibbles e) as Hev'.
  { intros e. apply Hev. by apply nibbles_app, nibbles_take. }
  destruct (o_panic r); cbn [o_evs o_panic]; [by split|].
  destruct (setChild _ (nth d key 0) _) as [pcs2|] eqn:Hs2; cbn [o_evs o_panic o_node];
    [|by split].
  apply setChild_Some in Hs2 as [_ ->].
  split; [done|]. intros _.
  apply split_nibbleTree; [by left|by apply nibbles_take|done|].
  by apply nibbleTree_noChildren, nibbles_drop.
Qed.

Lemma insert_ext_nibbles k v c :
  k <> [] -> wf c -> (nibbleSpec o first last) c ->
  (nibbleSpec o first last) (StNode extNode k v (Some c :: replicate 15 None)).
Proof.
  intros Hk Hwfc IH key value path Hwf [Hnk Hcs]%nibbleTree_inv HK Hp.
  assert (nibbleTree c) as Hnc by by apply (Hcs 0%nat).
  cbn [insert].
  destruct (getDiffIndexFrom 0 k key) as [d|] eqn:Hd; cbn [o_evs o_panic];
    [|split; [intros e He; inversion He|done]].
  pose proof (getDiffIndex_spec _ _ _ Hd) as (Hdk & _).
  destruct (Nat.eqb_spec d (length k)) as [->|Hne].
  - cbn [o_evs o_panic o_node].
    destruct (IH (drop (length k) key) value (path ++ take (length k) key) Hwfc Hnc)
      as [Hev Hok]; [by apply nibbles_drop|by apply nibbles_app, nibbles_take|].
    split; [done|]. intros Hpan. constructor; [done|].
    intros [|i] c'; cbn [lookup list_lookup].
    + intros [= <-]. by apply Hok.
    + intros Hi. apply lookup_replicate in Hi as [? _]. done.
  - change (mjoin (head (Some c :: replicate 15 None))) with (Some c).
    assert (forall n evs,
      (forall e, e ∈ evs -> sinkNibbles e) -> nibbleTree n ->
      (forall e, e ∈ o_evs (extFinish d (Some c :: replicate 15 None) k v key value n evs) ->
                 sinkNibbles e) /\
      (o_panic (extFinish d (Some c :: replicate 15 None) k v key value n evs) = None ->
       nibbleTree (o_node (extFinish d (Some c :: replicate 15 None) k v key value n evs))))
      as Hfin.
    { intros n evs Hev Hn. unfold extFinish.
      rewrite (splitBase_wf d (Some c :: replicate 15 None)) by eauto.
      destruct (setChild noChildren (nth d k 0) _) as [pcs1|] eqn:Hs1;
        cbn [o_evs o_panic]; [|by split].
      apply setChild_Some in Hs1 as [_ ->].
      destruct (setChild _ (nth d key 0) _) as [pcs2|] eqn:Hs2; cbn [o_evs o_panic o_node];
        [|by split].
      apply setChild_Some in Hs2 as [_ ->].
      split; [done|]. intros _.
      apply split_nibbleTree; [eauto|by apply nibbles_take|done|].
      by apply nibbleTree_noChildren, nibbles_drop. }
    destruct (d <? length k - 1)%nat eqn:Hlast; cbv beta iota zeta.
    + assert (wf (newExt (drop (S d) k) (Some c))) as Hwfn.
      { apply Nat.ltb_lt in Hlast.
        change (newExt (drop (S d) k) (Some c))
          with (StNode extNode (drop (S d) k) [] (Some c :: replicate 15 None)).
        apply wf_ext; [|done].
        intros Hnil. apply (f_equal length) in Hnil. rewrite length_drop in Hnil.
        simpl in Hnil. lia. }
      assert (nibbleTree (newExt (drop (S d) k) (Some c))) as Hnn.
      { constructor; [by apply nibbles_drop|].
        intros [|i] c'; cbn [lookup list_lookup].
        - by intros [= <-].
        - intros Hi. apply lookup_replicate in Hi as [? _]. done. }
      pose proof (hash_sinkNibbles o first last _ Hwfn Hnn (path ++ take (S d) k)) as Hev.
      pose proof (hash_nibbleTree o first last _ (path ++ take (S d) k) Hwfn Hnn) as Hn.
      set (r := hash o first last _ _) in *.
      assert (forall e, e ∈ o_evs r -> sinkNibbles e) as Hev'.
      { intros e. apply Hev. by apply nibbles_app, nibbles_take. }
      destruct (o_panic r); cbn [o_evs o_panic]; [by split|].
      apply (Hfin _ _ Hev' Hn).
    + pose proof (hash_sinkNibbles o first last _ Hwfc Hnc (path ++ k)) as Hev.
      pose proof (hash_nibbleTree o first last _ (path ++ k) Hwfc Hnc) as Hn.
      set (r := hash o first last _ _) in *.
      assert (forall e, e ∈ o_evs r -> sinkNibbles e) as Hev'.
      { intros e. apply Hev. by apply nibbles_app. }
      destruct (o_panic r); cbn [o_evs o_panic]; [by split|].
      apply (Hfin _ _ Hev' Hn).
Qed.

Lemma unresolveElder_nibbles cs path n :
  (n <= length cs)%nat -> length cs = 16%nat -> nibbles path ->
  (forall i c, cs !! i = Some (Some c) -> wf c /\ nibbleTree c) ->
  (forall e, e ∈ (unresolveElder o first last cs n path).1.2 -> sinkNibbles e) /\
  (forall i c, (unresolveElder o first last cs n path).1.1 !! i = Some (Some c) ->
               nibbleTree c).
Proof.
  intros Hn Hlen Hp Hcs.
  destruct (unresolveElder_cases o first last cs path n Hn)
    as [[-> _]|[(i & c & _ & _ & _ & _ & ->)|(i & c & Hi & Hl & Hty & _ & ->)]];
    cbn [fst snd].
  1,2: split; [intros e He; inversion He|intros i' c' Hl'; by apply (Hcs i' c')].
  destruct (Hcs i c Hl) as [Hwfc Hnc]. split.
  - intros e. apply hash_sinkNibbles; [done|done|]. apply nibbles_slot; [done|lia].
  - intros i' c' [(_ & [= <-] & _)|[_ Hl']]%list_lookup_insert_Some.
    + by apply hash_nibbleTree.
    + by apply (Hcs i' c').
Qed.

Lemma insert_branch_nibbles k v cs :
  length cs = 16%nat ->
  (forall i c, cs !! i = Some (Some c) -> wf c) ->
  Forall (onChild (nibbleSpec o first last)) cs ->
  (nibbleSpec o first last) (StNode branchNode k v cs).
Proof.
  intros Hlen Hwfcs IH key value path Hwf [Hnk Hcs]%nibbleTree_inv HK Hp.
  cbn [insert].
  destruct key as [|k0 krest]; cbn [o_evs o_panic]; [split; [intros e He; inversion He|done]|].
  apply Forall_cons_1 in HK as [Hk0 HK'].
  set (idx := N.to_nat k0).
  assert (idx < 16)%nat as Hidx by (subst idx; lia).
  destruct (unresolveElder_nibbles cs path idx) as [Hev1 Hcs1]; [lia|done|done|by eauto|].
  destruct (unresolveElder o first last cs idx path) as [[cs1 evs1] pan1].
  cbn [fst snd] in Hev1, Hcs1.
  destruct pan1; cbn [o_evs o_panic]; [by split|].
  rewrite insertSlot_lookup.
  destruct (cs !! idx) as [[child|]|] eqn:Hl; cbn [o_evs o_panic o_node]; [| |by split].
  - rewrite Forall_lookup in IH. specialize (IH _ _ Hl). cbn [onChild] in IH.
    destruct (IH krest value (path ++ [k0]) (Hwfcs _ _ Hl) (Hcs _ _ Hl) HK') as [Hev Hok].
    { apply nibbles_app; [done|]. by repeat constructor. }
    split.
    + intros e [He|He]%elem_of_app; auto.
    + intros Hpan. constructor; [done|].
      intros i c [(_ & [= <-] & _)|[_ Hl']]%list_lookup_insert_Some; [by apply Hok|].
      by apply (Hcs1 i c).
  - rewrite app_nil_r. split; [done|]. intros _. constructor; [done|].
    intros i c [(_ & [= <-] & _)|[_ Hl']]%list_lookup_insert_Some.
    + by apply nibbleTree_noChildren.
    + by apply (Hcs1 i c).
Qed.

Lemma insert_nibbles st : (nibbleSpec o first last) st.
Proof.
  induction st as [ty k v cs IH] using stNode_ind.
  intros key value path Hwf.
  inversion Hwf as [| | |? ? c Hk Hc|? ? ? Hlen Hcs]; subst.
  - intros _ HK Hp. cbn [insert o_evs o_panic o_node].
    split; [intros e He; inversion He|]. intros _. by apply nibbleTree_noChildren.
  - by apply insert_leaf_nibbles.
  - intros _ HK Hp. cbn [insert o_evs o_panic].
    split; [intros e He; inversion He|done].
  - apply Forall_cons_1 in IH as [IHc _]. by apply insert_ext_nibbles.
  - by apply insert_branch_nibbles.
Qed.
End NibbleInsert.

Lemma nibbles_step t tr op :
  closedInv t tr -> nibbleTree (root t) -> byteKeys [op] = true ->
  (forall e, e ∈ r_evs (step t op) -> sinkNibbles e) /\
  (forall e, r_outcome (step t op) = Returned e -> nibbleTree (root (r_trie (step t op)))).
Proof.
  intros (Hwf & _) Hn Hop.
  destruct op as [k v| |]; cbn [step].
  - cbn [byteKeys forallb] in Hop. rewrite andb_true_r in Hop.
    rewrite Update_TryUpdate. unfold TryUpdate.
    destruct (length v =? 0)%nat; cbn [r_evs r_outcome r_trie root].
    { split; [intros e He; inversion He|done]. }
    fold (hexKey k).
    match goal with |- context [insert ?a ?b ?c ?d ?e ?f ?g] =>
      destruct (insert_nibbles a b c d e f g Hwf Hn) as [Hev Hok] end;
      [by apply nibbles_hexKey|constructor|].
    split; [done|]. intros e He. apply Hok. by destruct (o_panic _).
  - unfold Hash. cbn [snd r_evs r_outcome r_trie root]. split.
    + intros e. apply hash_sinkNibbles; [done|done|constructor].
    + intros _ _. by apply hash_nibbleTree.
  - unfold Commit, Hash. cbn [snd r_evs r_outcome r_trie root]. split.
    + intros e. apply hash_sinkNibbles; [done|done|constructor].
    + intros _ _. by apply hash_nibbleTree.
Qed.

Lemma nibbles_run ops : forall t tr,
  closedInv t tr -> nibbleTree (root t) -> byteKeys ops = true ->
  forall e, e ∈ r_evs (run t ops) -> sinkNibbles e.
Proof.
  induction ops as [|op ops IH]; intros t tr Hinv Hn Hops e; cbn [run].
  - cbn [r_evs]. intros He. inversion He.
  - cbn [byteKeys forallb] in Hops. apply andb_true_iff in Hops as [Hop Hops].
    destruct (nibbles_step t tr op Hinv Hn) as [Hev Hnext].
    { cbn [byteKeys forallb]. by rewrite Hop. }
    destruct (closedInv_step t tr op Hinv) as [_ Hinv'].
    destruct (r_outcome (step t op)) as [e'|p] eqn:Hout; [|by apply Hev].
    cbn [r_evs]. intros [He|He]%elem_of_app; [by apply Hev|].
    eapply (IH _ (tr ++ r_evs (step t op))); eauto.
Qed.

(** X15. When the keys of the updates are made of bytes, every path handed
    to the writer or to the cleaner over a lifetime is made of nibbles: its
    elements are below 16, so the terminator of a key is never part of a
    path. *)
Theorem sink_paths_are_nibbles (o : option StackTrieOptions) (ops : list op) (p : list N) :
  byteKeys ops = true ->
  p ∈ writerPaths (r_evs (run (NewStackTrie o) ops)) \/
  p ∈ cleanerPaths (r_evs (run (NewStackTrie o) ops)) ->
  Forall (fun x => x < 16) p.
Proof.
  intros Hops Hp.
  assert (exists e, e ∈ r_evs (run (NewStackTrie o) ops) /\
            match e with
            | EvWriter q _ _ => q = p
            | EvCleaner q => q = p
            | _ => False
            end) as (e & He & Hq).
  { destruct Hp as [(h & b & He)%writerPaths_elem|Hp].
    - by exists (EvWriter p h b).
    - unfold cleanerPaths in Hp. apply list_elem_of_omap in Hp as (e & He & Heq).
      exists e. split; [done|]. destruct e; try discriminate. by injection Heq. }
  apply (nibbles_run ops _ [] (closedInv_new o)) in He; [| |done].
  - destruct e; cbn [sinkNibbles] in He; try done; by subst.
  - apply (nibbleTree_noChildren emptyNode [] []). constructor.
Qed.

Lemma sink_paths_are_nibbles_witness :
  Forall (fun x => x < 16) [0; 0].
Proof.
  apply (sink_paths_are_nibbles (Some writerOptions) sampleRun [0; 0]).
  - reflexivity.
  - left. vm_compute. apply list_elem_of_here.
Defined.

(** ** A greater key that extends the last key *)

(** The descent along a key that starts with the frontier arrives at the
    leaf of the frontier, which holds the key already as [insert] sees
    it. *)
Lemma frontier_reaches st L :
  frontier st L ->
  forall x, exists n rem, reaches st (L ++ x) n rem /\ existingKey n rem.
Proof.
  induction 1 as [k v cs|k v c rest L Hc IH|k v cs j c L Hj Hc IH Hleft Hright]; intros x.
  - exists (StNode leafNode k v cs), (k ++ x). split; [constructor|].
    apply existingKey_prefix. by exists x.
  - destruct (IH x) as (n & rem & Hr & He). exists n, rem. split; [|done].
    rewrite <- app_assoc. apply reaches_ext.
    + by rewrite getDiffIndexFrom_prefix.
    + by rewrite drop_app_length.
  - destruct (IH x) as (n & rem & Hr & He). exists n, rem. split; [|done].
    cbn [app]. by eapply reaches_branch.
Qed.

Lemma hexKey_app a b : hexKey (a ++ b) = hexKey a ++ hexKey b.
Proof. rewrite !hexKey_eq. apply flat_map_app. Qed.

(** X16. After updates with strictly increasing keys that returned, an
    update with a greater key, made of bytes, and a value that is not empty
    returns, unless the new key extends the last key inserted: then it
    panics ("Trying to insert into existing key"), although the two keys
    differ. *)
Theorem greater_key_returns_unless_it_extends_the_last
    (o : option StackTrieOptions) (kvs : list (list N * list N))
    (kl vl k : list N) (b : N) (value : list N) :
  strictlyIncreasing kvs.*1 = true ->
  r_outcome (updates (NewStackTrie o) kvs) = Returned None ->
  kvs !! (length kvs - 1)%nat = Some (kl, vl) ->
  forallb (fun x => x <? 256) kl = true ->
  forallb (fun x => x <? 256) k = true ->
  lexlt kl k = true ->
  r_outcome (Update (r_trie (updates (NewStackTrie o) kvs)) k (b :: value))
    = if HasPrefix k kl then Panicked PanicExistingKey else Returned None.
Proof.
  intros Hinc Hok Hl Hkl Hk Hlt.
  assert (length kvs <> 0)%nat as Hlen.
  { apply lookup_lt_Some in Hl. lia. }
  assert (trieInv (r_trie (updates (NewStackTrie o) kvs)) (Some kl)) as Hinv.
  { pose proof (updates_take_trieInv o kvs (length kvs - 1) kl vl Hinc Hl) as H.
    replace (S (length kvs - 1)) with (length kvs) in H by lia.
    rewrite take_ge in H by lia. by apply H. }
  destruct (HasPrefix k kl) eqn:Hpre.
  - apply HasPrefix_spec in Hpre as [x ->].
    destruct Hinv as (Hwf & _ & Hfr).
    destruct (frontier_reaches _ _ Hfr (hexKey x)) as (n & rem & Hr & He).
    rewrite Update_TryUpdate. unfold TryUpdate. cbn [length Nat.eqb r_outcome].
    fold (hexKey (kl ++ x)). rewrite hexKey_app.
    by erewrite reaches_insert_existing.
  - apply (Update_returns _ (Some kl)); [done| |].
    + split; [done|]. by apply lexlt_rightOf.
    + unfold validUpdate. cbn [fst snd length Nat.eqb negb]. by rewrite Hk.
Qed.

Lemma greater_key_returns_unless_it_extends_the_last_witness :
  r_outcome (Update (r_trie (updates (NewStackTrie None) [([0x10], [1])])) [0x10; 0x00] [2])
    = Panicked PanicExistingKey.
Proof.
  apply (greater_key_returns_unless_it_extends_the_last None [([0x10], [1])]
           [0x10] [1] [0x10; 0x00] 2 []); reflexivity.
Defined.
